(** * Conversion between ParmEd structures and GMSO topologies

    A shallow embedding of [gmso/external/convert_parmed.py]: the forward
    converter [from_parmed], the reverse converter [to_parmed] and their
    helpers, followed by the properties of the conversion layer.

    Python objects are modelled with explicit identities: a ParmEd type
    record carries the number [id(...)] returns for it, GMSO potentials
    live in a store addressed by position, and sites are addressed by their
    position in the topology.  Floating-point numbers are modelled by
    rationals. *)

From Stdlib Require Import QArith Qabs.
From stdpp Require Import gmap strings list fin_maps.

Local Open Scope string_scope.
Local Open Scope list_scope.

(** ** Python exceptions and the conversion monad *)

Inductive exn : Type :=
  | KeyError
  | ValueError
  | AttributeError
  | AssertionError (msg : string)
  | GMSOError (msg : string)
  | TypeError (msg : string)
  | UnitConversionError
  | DanglingReference.

(** A computation reads and updates a state [S] and either raises or
    returns. *)
Definition M (S A : Type) : Type := S → exn + (A * S).

Definition ret {S A} (a : A) : M S A := λ st, inr (a, st).

Definition raise {S A} (e : exn) : M S A := λ _, inl e.

Definition bind {S A B} (m : M S A) (k : A → M S B) : M S B :=
  λ st, match m st with
        | inl e => inl e
        | inr (a, st') => k a st'
        end.

Definition get {S} : M S S := λ st, inr (st, st).

Definition modify {S} (f : S → S) : M S unit := λ st, inr (tt, f st).

Declare Scope py_scope.
Delimit Scope py_scope with py.
Notation "x <- c1 ;; c2" := (bind c1 (λ x, c2))
  (at level 100, c1 at next level, right associativity) : py_scope.
Notation "c1 ;;; c2" := (bind c1 (λ _, c2))
  (at level 100, right associativity) : py_scope.

(** [for x in xs: body]. *)
Fixpoint forM_ {S A} (body : A → M S unit) (xs : list A) : M S unit :=
  match xs with
  | [] => ret tt
  | x :: xs' => bind (body x) (λ _, forM_ body xs')
  end.

(** [d[k]] on a dictionary: a missing key raises [KeyError]. *)
Definition dict_get {S K V} `{Countable K} (d : gmap K V) (k : K) : M S V :=
  match d !! k with
  | Some v => ret v
  | None => raise KeyError
  end.

(** ** Numbers and units *)

(** Truthiness of a number: non-zero. *)
Definition Qtruthy (x : Q) : bool := negb (Qnum x =? 0)%Z.

(** [np.all(a)] on a numeric array. *)
Definition np_all (a : list Q) : bool := forallb Qtruthy a.

(** The units the converter names. *)
Inductive unit_ : Type :=
  | angstrom | nm | degree
  | elementary_charge | Coulomb
  | kcal_mol | kcal_angstrom2_mol | kcal_rad2_mol
  | amu | dimensionless.

Global Instance unit_eq_dec : EqDecision unit_.
Proof. solve_decision. Defined.

Record quantity : Type := Quantity { value : Q; unit_of : unit_ }.

(** Conversion factor between two units of the same dimension. *)
Definition unit_factor (src dst : unit_) : option Q :=
  if decide (src = dst) then Some 1%Q
  else match src, dst with
       | angstrom, nm => Some (1 # 10)%Q
       | nm, angstrom => Some (10 # 1)%Q
       | elementary_charge, Coulomb =>
           Some (1602176634 # 10000000000000000000000000000)%Q
       | Coulomb, elementary_charge =>
           Some (10000000000000000000000000000 # 1602176634)%Q
       | _, _ => None
       end.

(** [q.to(u)] / [q.in_units(u)]: fails across dimensions. *)
Definition to_unit {S} (q : quantity) (u : unit_) : M S quantity :=
  match unit_factor (unit_of q) u with
  | Some f => ret (Quantity (Qred (value q * f)) u)
  | None => raise UnitConversionError
  end.

(** The same on an array of numbers with one unit. *)
Definition to_unit_array {S} (q : list Q * unit_) (u : unit_)
    : M S (list Q * unit_) :=
  match unit_factor q.2 u with
  | Some f => ret ((λ x, Qred (x * f)) <$> q.1, u)
  | None => raise UnitConversionError
  end.

(** Truthiness of a quantity is that of its value. *)
Definition quantity_truthy (q : quantity) : bool := Qtruthy (value q).

(** ** Symbolic potential expressions *)

(** The syntax tree [parse_expr] produces for the expressions the
    converter writes down: numbers, symbols, sums, products, integer
    powers and the cosine. *)
Inductive expr : Type :=
  | Num (q : Q)
  | Sym (s : string)
  | Add (a b : expr)
  | Mul (a b : expr)
  | Pow (a : expr) (n : Z)
  | Cos (a : expr).

Definition Neg (a : expr) : expr := Mul (Num (-1)) a.
Definition Sub (a b : expr) : expr := Add a (Neg b).
Definition Div (a b : expr) : expr := Mul a (Pow b (-1)).

Global Instance Q_eq_dec : EqDecision Q.
Proof. solve_decision. Defined.

Global Instance expr_eq_dec : EqDecision expr.
Proof. solve_decision. Defined.

(** The value of an expression under an assignment of its symbols and an
    interpretation of the cosine; undefined where a zero is inverted. *)
Fixpoint eval (cosf : Q → Q) (env : string → Q) (e : expr) : option Q :=
  match e with
  | Num q => Some q
  | Sym s => Some (env s)
  | Add a b =>
      match eval cosf env a, eval cosf env b with
      | Some x, Some y => Some (x + y)%Q
      | _, _ => None
      end
  | Mul a b =>
      match eval cosf env a, eval cosf env b with
      | Some x, Some y => Some (x * y)%Q
      | _, _ => None
      end
  | Pow a n =>
      match eval cosf env a with
      | Some x =>
          if (n <? 0)%Z && negb (Qtruthy x) then None else Some (Qpower x n)
      | None => None
      end
  | Cos a =>
      match eval cosf env a with
      | Some x => Some (cosf x)
      | None => None
      end
  end.

(** Interpretations of [cos] that respect what every cosine satisfies. *)
Definition cosine_like (cosf : Q → Q) : Prop :=
  cosf 0%Q == 1%Q ∧ (∀ x, cosf (- x)%Q == cosf x) ∧
  (∀ x y, x == y → cosf x == cosf y).

(** Two expressions agree when they take the same value wherever both
    are defined. *)
Definition agree (a b : expr) : Prop :=
  ∀ cosf env va vb, cosine_like cosf →
    eval cosf env a = Some va → eval cosf env b = Some vb → va == vb.

(** The comparison [==] of two symbolic expressions is the work of the
    computer-algebra library.  The converter relies on it being an
    equivalence that only identifies expressions that agree. *)
Class ExprMatcher : Type := {
  expr_match : expr → expr → bool;
  expr_match_refl : ∀ a, expr_match a a = true;
  expr_match_sym : ∀ a b, expr_match a b = expr_match b a;
  expr_match_trans : ∀ a b c,
    expr_match a b = true → expr_match b c = true → expr_match a c = true;
  expr_match_sound : ∀ a b, expr_match a b = true → agree a b
}.

(** The simplest matcher: identical syntax trees. *)
Definition expr_eqb (a b : expr) : bool := bool_decide (a = b).

(** The expressions named in the source. *)
Module Forms.

Definition sym_pow (s : string) (n : Z) : expr := Pow (Sym s) n.

(** ["4*epsilon*((sigma/r)**12 - (sigma/r)**6)"] *)
Definition lennard_jones : expr :=
  Mul (Mul (Num 4) (Sym "epsilon"))
      (Sub (Pow (Div (Sym "sigma") (Sym "r")) 12)
           (Pow (Div (Sym "sigma") (Sym "r")) 6)).

(** ["4*epsilon*(-sigma**6/r**6 + sigma**12/r**12)"] *)
Definition lennard_jones_expanded : expr :=
  Mul (Mul (Num 4) (Sym "epsilon"))
      (Add (Div (Neg (sym_pow "sigma" 6)) (sym_pow "r" 6))
           (Div (sym_pow "sigma" 12) (sym_pow "r" 12))).

(** ["0.5 * k * (r-r_eq)**2"] *)
Definition harmonic_bond : expr :=
  Mul (Mul (Num (1 # 2)) (Sym "k")) (Pow (Sub (Sym "r") (Sym "r_eq")) 2).

(** ["0.5 * k * (theta-theta_eq)**2"] *)
Definition harmonic_angle : expr :=
  Mul (Mul (Num (1 # 2)) (Sym "k"))
      (Pow (Sub (Sym "theta") (Sym "theta_eq")) 2).

(** ["k * (1 + cos(n * phi - phi_eq))"] *)
Definition periodic_torsion : expr :=
  Mul (Sym "k")
      (Add (Num 1) (Cos (Sub (Mul (Sym "n") (Sym "phi")) (Sym "phi_eq")))).

(** ["k * (1 + cos(n * phi - phi_eq))**2"] *)
Definition periodic_torsion_squared : expr :=
  Mul (Sym "k")
      (Pow (Add (Num 1)
                (Cos (Sub (Mul (Sym "n") (Sym "phi")) (Sym "phi_eq")))) 2).

Definition rb_term (i : Z) (c : string) : expr :=
  Mul (Sym c) (Pow (Cos (Sym "phi")) i).

(** ["c0 * cos(phi)**0 + c1 * cos(phi)**1 + c2 * cos(phi)**2 +
     c3 * cos(phi)**3 + c4 * cos(phi)**4 + c5 * cos(phi)**5"] *)
Definition ryckaert_bellemans : expr :=
  Add (Add (Add (Add (Add (rb_term 0 "c0") (rb_term 1 "c1"))
                          (rb_term 2 "c2"))
                     (rb_term 3 "c3"))
                (rb_term 4 "c4"))
      (rb_term 5 "c5").

(** ["0.5 * k * ((phi - phi_eq))**2"] *)
Definition harmonic_improper : expr :=
  Mul (Mul (Num (1 # 2)) (Sym "k"))
      (Pow (Sub (Sym "phi") (Sym "phi_eq")) 2).

End Forms.

(** ** ParmEd's object model, as the converter reads and builds it *)

Module pmd.

(** Parameter-type records.  The first field is the object's identity,
    the number [id(...)] returns for it. *)
Record AtomType : Type := {
  at_id : nat; at_name : string; at_mass : Q; at_atomic_number : Z;
  at_charge : Q; at_epsilon : Q; at_rmin : Q }.
Record BondType : Type := { bt_id : nat; bt_k : Q; bt_req : Q }.
Record AngleType : Type := { agt_id : nat; agt_k : Q; agt_theteq : Q }.
Record DihedralType : Type := {
  dt_id : nat; dt_phi_k : Q; dt_per : Q; dt_phase : Q }.
Record RBTorsionType : Type := {
  rb_id : nat; rb_c0 : Q; rb_c1 : Q; rb_c2 : Q; rb_c3 : Q; rb_c4 : Q;
  rb_c5 : Q }.
Record ImproperType : Type := { it_id : nat; it_psi_k : Q; it_psi_eq : Q }.

(** What an attribute such as [bond.type] or [atom.atom_type] may hold:
    [None], an instance of one of the parameter-type classes, or an
    object of another class (a list of dihedral types, the unassigned
    atom type, ...). *)
Inductive obj : Type :=
  | PyNone
  | OAtomType (t : AtomType)
  | OBondType (t : BondType)
  | OAngleType (t : AngleType)
  | ODihedralType (t : DihedralType)
  | ORBTorsionType (t : RBTorsionType)
  | OImproperType (t : ImproperType)
  | OOther (oid : nat).

(** [id(None)]. *)
Definition id_None : nat := 0.

Definition id (o : obj) : nat :=
  match o with
  | PyNone => id_None
  | OAtomType t => at_id t
  | OBondType t => bt_id t
  | OAngleType t => agt_id t
  | ODihedralType t => dt_id t
  | ORBTorsionType t => rb_id t
  | OImproperType t => it_id t
  | OOther oid => oid
  end.

(** Atoms; [atom_id] is the identity of the atom object, by which
    connections refer to their atoms. *)
Record Atom : Type := {
  atom_id : nat;
  atomic_number : Z;
  name : string;
  type : string;
  atom_type : obj;
  mass : option Q;
  charge_ : option Q;
  xx : Q; xy : Q; xz : Q }.

(** [atom.element] is the atomic number. *)
Definition element (a : Atom) : Z := atomic_number a.

(** [atom.charge]: the atom's own charge, else its atom type's, else 0. *)
Definition charge (a : Atom) : Q :=
  match charge_ a with
  | Some c => c
  | None => match atom_type a with
            | OAtomType t => at_charge t
            | _ => 0%Q
            end
  end.

Record Residue : Type := {
  res_name : string; res_number : Z; atoms : list Atom }.

Record Bond : Type := { b_atom1 : nat; b_atom2 : nat; b_type : obj }.
Record Angle : Type := {
  a_atom1 : nat; a_atom2 : nat; a_atom3 : nat; a_type : obj }.
(** Instances of [Dihedral] populate both [dihedrals] and
    [rb_torsions]. *)
Record Dihedral : Type := {
  d_atom1 : nat; d_atom2 : nat; d_atom3 : nat; d_atom4 : nat;
  improper : bool; d_type : obj }.
Record Improper : Type := {
  i_atom1 : nat; i_atom2 : nat; i_atom3 : nat; i_atom4 : nat;
  i_type : obj }.

Record Structure : Type := {
  title : string;
  box : option (list Q);
  residues : list Residue;
  bonds : list Bond;
  angles : list Angle;
  dihedrals : list Dihedral;
  rb_torsions : list Dihedral;
  impropers : list Improper;
  bond_types : list BondType;
  angle_types : list AngleType;
  dihedral_types : list DihedralType;
  rb_torsion_types : list RBTorsionType;
  improper_types : list ImproperType;
  combining_rule : string }.

(** [structure.atoms]: the atoms of all residues, in order. *)
Definition structure_atoms (s : Structure) : list Atom :=
  concat (atoms <$> residues s).

(** [atom.bond_partners]: the atoms bonded to the atom, read off the
    bonds of the structure; atoms are compared by identity. *)
Definition bond_partners (s : Structure) (a : Atom) : list nat :=
  concat ((λ b,
    (if decide (b_atom1 b = atom_id a) then [b_atom2 b] else []) ++
    (if decide (b_atom2 b = atom_id a) then [b_atom1 b] else []))
          <$> bonds s).

(** The atom object behind a reference. *)
Definition atom_by_id (s : Structure) (a : nat) : option Atom :=
  snd <$> list_find (λ x, atom_id x = a) (structure_atoms s).

(** An untitled, empty structure. *)
Definition empty : Structure :=
  {| title := ""; box := None; residues := []; bonds := []; angles := [];
     dihedrals := []; rb_torsions := []; impropers := [];
     bond_types := []; angle_types := []; dihedral_types := [];
     rb_torsion_types := []; improper_types := [];
     combining_rule := "lorentz" |}.

End pmd.

(** ** Python values stored in the member-types dictionaries *)

(** Keys: [None], an [id(...)], or a keyword name. *)
Inductive mkey : Type :=
  | KNone
  | KId (n : nat)
  | KStr (s : string).

Global Instance mkey_eq_dec : EqDecision mkey.
Proof. solve_decision. Defined.

Global Instance mkey_countable : Countable mkey.
Proof.
  refine (inj_countable'
    (λ k, match k with
          | KNone => inl tt
          | KId n => inr (inl n)
          | KStr s => inr (inr s)
          end)
    (λ x, match x with
          | inl _ => KNone
          | inr (inl n) => KId n
          | inr (inr s) => KStr s
          end) _).
  by intros [].
Defined.

(** The member types of an instance: a tuple of atom-type names (or
    [None]s) for a connection, a bare string for an atom. *)
Inductive member_types : Type :=
  | MTuple (items : list (option string))
  | MStr (s : string).

Global Instance member_types_eq_dec : EqDecision member_types.
Proof. solve_decision. Defined.

(** Values of the dictionaries: member types, or a boolean. *)
Inductive pyval : Type :=
  | VMembers (m : member_types)
  | VBool (b : bool).

Global Instance pyval_eq_dec : EqDecision pyval.
Proof. solve_decision. Defined.

(** Truthiness of a tuple item: [None] and the empty string are falsy. *)
Definition label_truthy (l : option string) : bool :=
  match l with
  | None => false
  | Some s => negb (bool_decide (s = ""))
  end.

(** [all(member_types)]: a tuple is iterated by item, a string by
    character, and no character is falsy. *)
Definition py_all (v : member_types) : bool :=
  match v with
  | MTuple items => forallb label_truthy items
  | MStr _ => true
  end.

(** ** GMSO's object model *)

Module gmso.

Record Element : Type := {
  symbol : string; el_atomic_number : Z; el_mass : quantity }.

Inductive potential_class : Type :=
  | AtomType | BondType | AngleType | DihedralType | ImproperType.

(** A parametrized potential: an atom type or a connection type. *)
Record Potential : Type := {
  p_class : potential_class;
  p_name : string;
  expression : expr;
  parameters : list (string * quantity);
  independent_variables : list string;
  member_types : option pyval;
  p_charge : option quantity;
  p_mass : option quantity;
  tags : list (string * string) }.

Definition set_member_types (m : option pyval) (p : Potential) : Potential :=
  {| p_class := p_class p; p_name := p_name p;
     expression := expression p; parameters := parameters p;
     independent_variables := independent_variables p;
     member_types := m; p_charge := p_charge p; p_mass := p_mass p;
     tags := tags p |}.

(** [parameters[key]]. *)
Definition parameter {S} (p : Potential) (key : string) : M S quantity :=
  match list_find (λ kv, kv.1 = key) (parameters p) with
  | Some (_, (_, q)) => ret q
  | None => raise KeyError
  end.

(** A site.  Types are referred to by their address in the store of
    potentials. *)
Record Atom : Type := {
  s_name : string;
  charge : option quantity;
  mass : option quantity;
  position : list Q * unit_;
  element : option Element;
  atom_type : option nat;
  molecule : option (string * Z);
  residue : option (string * Z) }.

Inductive connection_class : Type := Bond | Angle | Dihedral | Improper.

Global Instance connection_class_eq_dec : EqDecision connection_class.
Proof. solve_decision. Defined.

(** A connection: its members are addresses of sites of the topology,
    in order; its type is the address of a potential. *)
Record Connection : Type := {
  c_class : connection_class;
  connection_members : list nat;
  connection_type : option nat }.

Definition set_connection_type (t : nat) (c : Connection) : Connection :=
  {| c_class := c_class c; connection_members := connection_members c;
     connection_type := Some t |}.

Record Box : Type := { lengths : list Q * unit_; angles : list Q * unit_ }.

Record Topology : Type := {
  t_name : string;
  box : option Box;
  sites : list Atom;
  connections : list Connection;
  combining_rule : string }.

(** [gmso.Topology(name=...)]. *)
Definition new_topology (name : string) : Topology :=
  {| t_name := name; box := None; sites := []; connections := [];
     combining_rule := "lorentz" |}.

Definition set_box (b : option Box) (t : Topology) : Topology :=
  {| t_name := t_name t; box := b; sites := sites t;
     connections := connections t; combining_rule := combining_rule t |}.

Definition set_combining_rule (r : string) (t : Topology) : Topology :=
  {| t_name := t_name t; box := box t; sites := sites t;
     connections := connections t; combining_rule := r |}.

(** Modelled from the spec: the topology's own bookkeeping is a
    collaborator ([add_site], [add_connection], [update_topology] and
    the iteration properties); sites and connections are kept in the
    order they were added and a connection is a distinct object
    whatever its members. *)
Definition add_site (s : Atom) (t : Topology) : Topology :=
  {| t_name := t_name t; box := box t; sites := sites t ++ [s];
     connections := connections t; combining_rule := combining_rule t |}.

Definition add_connection (c : Connection) (t : Topology) : Topology :=
  {| t_name := t_name t; box := box t; sites := sites t;
     connections := connections t ++ [c];
     combining_rule := combining_rule t |}.

Definition update_topology (t : Topology) : Topology := t.

Definition of_class (k : connection_class) (t : Topology)
    : list Connection :=
  filter (λ c, c_class c = k) (connections t).

(** [top.atom_types]: the distinct atom types of the sites. *)
Definition atom_types (t : Topology) : list nat :=
  remove_dups (omap atom_type (sites t)).

(** [top.bond_types] and the like: the distinct types of the
    connections of one class. *)
Definition connection_types (k : connection_class) (t : Topology)
    : list nat :=
  remove_dups (omap connection_type (of_class k t)).

End gmso.

(** The element catalogue of [gmso.core.element] is a collaborator. *)
Class ElementLibrary : Type := {
  element_by_atomic_number : Z → exn + gmso.Element;
  element_by_atom_type : gmso.Potential → option gmso.Element
}.

(** ** Keys of the external-to-internal type dictionaries *)

(** A type dictionary is keyed either by the ParmEd object itself or by
    the integer [id(...)] of one; an object never equals an integer. *)
Inductive tkey : Type :=
  | ByObject (oid : nat)
  | ById (n : nat).

Global Instance tkey_eq_dec : EqDecision tkey.
Proof. solve_decision. Defined.

Global Instance tkey_countable : Countable tkey.
Proof.
  refine (inj_countable'
    (λ k, match k with ByObject n => inl n | ById n => inr n end)
    (λ x, match x with inl n => ByObject n | inr n => ById n end) _).
  by intros [].
Defined.

(** ** Forward conversion: ParmEd structure to GMSO topology *)

(** The advisory warnings of the forward converter, with the dihedral
    they are about. *)
Inductive warning : Type :=
  | PeriodicImproperWarning (d : pmd.Dihedral)
  | RBImproperWarning (d : pmd.Dihedral).

(** The state of a forward conversion: the store of the potentials
    created so far (a potential's address is its position), the topology
    being filled, the dictionary from atoms to sites and the warnings
    issued. *)
Record fstate : Type := {
  heap : list gmso.Potential;
  top : gmso.Topology;
  site_map : gmap nat nat;
  warnings : list warning }.

Definition F : Type → Type := M fstate.

Definition on_heap (f : list gmso.Potential → list gmso.Potential)
    (st : fstate) : fstate :=
  {| heap := f (heap st); top := top st; site_map := site_map st;
     warnings := warnings st |}.

Definition on_top (f : gmso.Topology → gmso.Topology) (st : fstate)
    : fstate :=
  {| heap := heap st; top := f (top st); site_map := site_map st;
     warnings := warnings st |}.

Definition on_site_map (f : gmap nat nat → gmap nat nat) (st : fstate)
    : fstate :=
  {| heap := heap st; top := top st; site_map := f (site_map st);
     warnings := warnings st |}.

Definition warn (w : warning) : F unit :=
  modify (λ st, {| heap := heap st; top := top st; site_map := site_map st;
                   warnings := warnings st ++ [w] |}).

(** Creating a potential puts it in the store and yields its address. *)
Definition alloc (p : gmso.Potential) : F nat :=
  λ st, inr (length (heap st), on_heap (λ h, h ++ [p]) st).

(** Assigning an attribute of a stored potential. *)
Definition update_potential (a : nat) (f : gmso.Potential → gmso.Potential)
    : F unit :=
  modify (on_heap (λ h, match h !! a with
                        | Some p => <[a := f p]> h
                        | None => h
                        end)).

Definition lift {S A} (r : exn + A) : M S A :=
  match r with
  | inl e => raise e
  | inr a => ret a
  end.

(** A loop that carries a local variable. *)
Fixpoint foldM {S A B} (body : B → A → M S B) (b : B) (xs : list A)
    : M S B :=
  match xs with
  | [] => ret b
  | x :: xs' => bind (body b x) (λ b', foldM body b' xs')
  end.

(** [enumerate(l)]. *)
Definition enumerate {A} (l : list A) : list (nat * A) :=
  zip (seq 0 (length l)) l.

Local Open Scope py_scope.

(** *** The member-types dictionaries *)

Inductive member : Type :=
  | MemAtom (a : pmd.Atom)
  | MemBond (b : pmd.Bond)
  | MemAngle (a : pmd.Angle)
  | MemDihedral (d : pmd.Dihedral)
  | MemImproper (i : pmd.Improper).

(** [member.atom1.type] and the like. *)
Definition atom_label (structure : pmd.Structure) (a : nat)
    : option string :=
  pmd.type <$> pmd.atom_by_id structure a.

Definition _get_member_types_map_for (structure : pmd.Structure)
    (member_ : member) (impropers : bool) : mkey * member_types :=
  let atom_label := atom_label structure in
  let default := (KNone, MTuple [None; None]) in
  match member_ with
  | MemAtom a => (KId (pmd.id (pmd.atom_type a)), MStr (pmd.type a))
  | MemBond b =>
      (KId (pmd.id (pmd.b_type b)),
       MTuple [atom_label (pmd.b_atom1 b); atom_label (pmd.b_atom2 b)])
  | MemAngle a =>
      (KId (pmd.id (pmd.a_type a)),
       MTuple [atom_label (pmd.a_atom1 a); atom_label (pmd.a_atom2 a);
               atom_label (pmd.a_atom3 a)])
  | MemDihedral d =>
      if negb impropers then
        if negb (pmd.improper d) then
          (KId (pmd.id (pmd.d_type d)),
           MTuple [atom_label (pmd.d_atom1 d); atom_label (pmd.d_atom2 d);
                   atom_label (pmd.d_atom3 d); atom_label (pmd.d_atom4 d)])
        else default
      else
        if pmd.improper d then
          (KId (pmd.id (pmd.d_type d)),
           MTuple [atom_label (pmd.d_atom1 d); atom_label (pmd.d_atom2 d);
                   atom_label (pmd.d_atom3 d); atom_label (pmd.d_atom4 d)])
        else default
  | MemImproper i =>
      if negb impropers then default
      else
        (KId (pmd.id (pmd.i_type i)),
         MTuple [atom_label (pmd.i_atom1 i); atom_label (pmd.i_atom2 i);
                 atom_label (pmd.i_atom3 i); atom_label (pmd.i_atom4 i)])
  end.

(** [getattr(structure, attr)] for the attributes [_get_types_map]
    accepts. *)
Definition members_of (structure : pmd.Structure) (attr : string)
    : option (list member) :=
  if decide (attr = "atoms") then
    Some (MemAtom <$> pmd.structure_atoms structure)
  else if decide (attr = "bonds") then Some (MemBond <$> pmd.bonds structure)
  else if decide (attr = "angles") then
    Some (MemAngle <$> pmd.angles structure)
  else if decide (attr = "dihedrals") then
    Some (MemDihedral <$> pmd.dihedrals structure)
  else if decide (attr = "rb_torsions") then
    Some (MemDihedral <$> pmd.rb_torsions structure)
  else if decide (attr = "impropers") then
    Some (MemImproper <$> pmd.impropers structure)
  else None.

(** One turn of the loop of [_get_types_map]. *)
Definition types_map_step (structure : pmd.Structure) (impropers : bool)
    (type_map : gmap mkey pyval) (member_ : member) : gmap mkey pyval :=
  let '(conn_type_id, member_types) :=
    _get_member_types_map_for structure member_ impropers in
  if bool_decide (type_map !! conn_type_id = None) && py_all member_types
  then <[conn_type_id := VMembers member_types]> type_map
  else type_map.

Definition _get_types_map {S} (structure : pmd.Structure) (attr : string)
    (impropers : bool) : M S (gmap mkey pyval) :=
  match members_of structure attr with
  | None => raise (AssertionError "")
  | Some members =>
      ret (foldl (types_map_step structure impropers) ∅ members)
  end.

(** [d.update(other, **kwargs)]: the entries of [other], then the
    keyword arguments, are written over those of [d]. *)
Definition dict_update (d other : gmap mkey pyval)
    (kwargs : list (string * pyval)) : gmap mkey pyval :=
  foldl (λ m kv, <[KStr kv.1 := kv.2]> m) (other ∪ d) kwargs.

(** [_assert_dict]: [None] stands for the empty dictionary.  The
    [TypeError] is for arguments that are not dictionaries, which the
    type of [input_dict] rules out. *)
Definition _assert_dict {S} (input_dict : option (gmap mkey pyval))
    (param : string) : M S (gmap mkey pyval) :=
  ret (default ∅ input_dict).

(** *** The external-to-internal type dictionaries *)

(** The double-precision values of [2 ** (-1 / 6)] and [2 ** (1 / 6)]. *)
Definition two_pow_minus_sixth : Q := 8024502270083369 # 9007199254740992.
Definition two_pow_sixth : Q := 78986244726619 # 70368744177664.

(** [atom_type.sigma], which ParmEd derives from the stored [rmin]. *)
Definition pmd_sigma (t : pmd.AtomType) : Q :=
  Qred (pmd.at_rmin t * two_pow_minus_sixth * 2).

(** The atom types of the atoms, once each and in order of first
    appearance. *)
Fixpoint unique_atom_types (seen : gset nat) (l : list pmd.Atom)
    : list pmd.AtomType :=
  match l with
  | [] => []
  | a :: l' =>
      match pmd.atom_type a with
      | pmd.OAtomType t =>
          if decide (pmd.at_id t ∈ seen) then unique_atom_types seen l'
          else t :: unique_atom_types ({[pmd.at_id t]} ∪ seen) l'
      | _ => unique_atom_types seen l'
      end
  end.

(** The potentials the converter creates from the type records. *)

Definition top_atomtype (element : string) (atom_type : pmd.AtomType)
    : gmso.Potential :=
  {| gmso.p_class := gmso.AtomType;
     gmso.p_name := pmd.at_name atom_type;
     gmso.p_charge :=
       Some (Quantity (pmd.at_charge atom_type) elementary_charge);
     gmso.tags := [("element", element)];
     gmso.expression := Forms.lennard_jones;
     gmso.parameters :=
       [("sigma", Quantity (pmd_sigma atom_type) angstrom);
        ("epsilon", Quantity (pmd.at_epsilon atom_type) kcal_mol)];
     gmso.independent_variables := ["r"];
     gmso.p_mass := Some (Quantity (pmd.at_mass atom_type) amu);
     gmso.member_types := None |}.

Definition top_bondtype (bond_types_members_map : gmap mkey pyval)
    (btype : pmd.BondType) : gmso.Potential :=
  let bond_params :=
    [("k", Quantity (2 * pmd.bt_k btype) kcal_angstrom2_mol);
     ("r_eq", Quantity (pmd.bt_req btype) angstrom)] in
  let member_types := bond_types_members_map !! KId (pmd.bt_id btype) in
  {| gmso.p_class := gmso.BondType; gmso.p_name := "BondType";
     gmso.expression := Forms.harmonic_bond;
     gmso.parameters := bond_params;
     gmso.independent_variables := ["r"];
     gmso.member_types := member_types;
     gmso.p_charge := None; gmso.p_mass := None; gmso.tags := [] |}.

Definition top_angletype (angle_types_member_map : gmap mkey pyval)
    (angletype : pmd.AngleType) : gmso.Potential :=
  let angle_params :=
    [("k", Quantity (2 * pmd.agt_k angletype) kcal_rad2_mol);
     ("theta_eq", Quantity (pmd.agt_theteq angletype) degree)] in
  let member_types :=
    angle_types_member_map !! KId (pmd.agt_id angletype) in
  {| gmso.p_class := gmso.AngleType; gmso.p_name := "AngleType";
     gmso.expression := Forms.harmonic_angle;
     gmso.parameters := angle_params;
     gmso.independent_variables := ["theta"];
     gmso.member_types := member_types;
     gmso.p_charge := None; gmso.p_mass := None; gmso.tags := [] |}.

(** From a periodic dihedral type. *)
Definition top_dihedraltype (dihedral_types_member_map : gmap mkey pyval)
    (dihedraltype : pmd.DihedralType) : gmso.Potential :=
  let dihedral_params :=
    [("k", Quantity (pmd.dt_phi_k dihedraltype) kcal_mol);
     ("phi_eq", Quantity (pmd.dt_phase dihedraltype) degree);
     ("n", Quantity (pmd.dt_per dihedraltype) dimensionless)] in
  let member_types :=
    dihedral_types_member_map !! KId (pmd.dt_id dihedraltype) in
  {| gmso.p_class := gmso.DihedralType; gmso.p_name := "DihedralType";
     gmso.expression := Forms.periodic_torsion;
     gmso.parameters := dihedral_params;
     gmso.independent_variables := ["phi"];
     gmso.member_types := member_types;
     gmso.p_charge := None; gmso.p_mass := None; gmso.tags := [] |}.

(** From a Ryckaert-Bellemans torsion type. *)
Definition top_rb_dihedraltype (dihedral_types_member_map : gmap mkey pyval)
    (dihedraltype : pmd.RBTorsionType) : gmso.Potential :=
  let dihedral_params :=
    [("c0", Quantity (pmd.rb_c0 dihedraltype) kcal_mol);
     ("c1", Quantity (pmd.rb_c1 dihedraltype) kcal_mol);
     ("c2", Quantity (pmd.rb_c2 dihedraltype) kcal_mol);
     ("c3", Quantity (pmd.rb_c3 dihedraltype) kcal_mol);
     ("c4", Quantity (pmd.rb_c4 dihedraltype) kcal_mol);
     ("c5", Quantity (pmd.rb_c5 dihedraltype) kcal_mol)] in
  let member_types :=
    dihedral_types_member_map !! KId (pmd.rb_id dihedraltype) in
  {| gmso.p_class := gmso.DihedralType; gmso.p_name := "DihedralType";
     gmso.expression := Forms.ryckaert_bellemans;
     gmso.parameters := dihedral_params;
     gmso.independent_variables := ["phi"];
     gmso.member_types := member_types;
     gmso.p_charge := None; gmso.p_mass := None; gmso.tags := [] |}.

(** From a periodic dihedral type, by the periodic improper template;
    the member types are assigned afterwards. *)
Definition top_periodic_impropertype (dihedraltype : pmd.DihedralType)
    : gmso.Potential :=
  let improper_params :=
    [("k", Quantity (pmd.dt_phi_k dihedraltype) kcal_mol);
     ("phi_eq", Quantity (pmd.dt_phase dihedraltype) degree);
     ("n", Quantity (pmd.dt_per dihedraltype) dimensionless)] in
  {| gmso.p_class := gmso.ImproperType;
     gmso.p_name := "PeriodicImproperPotential";
     gmso.expression := Forms.periodic_torsion;
     gmso.parameters := improper_params;
     gmso.independent_variables := ["phi"];
     gmso.member_types := None;
     gmso.p_charge := None; gmso.p_mass := None; gmso.tags := [] |}.

(** From an improper type, by the harmonic improper template. *)
Definition top_harmonic_impropertype (impropertype : pmd.ImproperType)
    : gmso.Potential :=
  let improper_params :=
    [("k", Quantity (pmd.it_psi_k impropertype) kcal_rad2_mol);
     ("phi_eq", Quantity (pmd.it_psi_eq impropertype) degree)] in
  {| gmso.p_class := gmso.ImproperType;
     gmso.p_name := "HarmonicImproperPotential";
     gmso.expression := Forms.harmonic_improper;
     gmso.parameters := improper_params;
     gmso.independent_variables := ["phi"];
     gmso.member_types := None;
     gmso.p_charge := None; gmso.p_mass := None; gmso.tags := [] |}.

Section Forward.

Context `{ElementLibrary}.

(** [tags["element"]] of an atom type: the symbol of the element with
    its atomic number, or else its name. *)
Definition element_tag (atom_type : pmd.AtomType) : exn + string :=
  if Qtruthy (inject_Z (pmd.at_atomic_number atom_type)) then
    match element_by_atomic_number (pmd.at_atomic_number atom_type) with
    | inr e => inr (gmso.symbol e)
    | inl e => inl e
    end
  else inr (pmd.at_name atom_type).

Definition _atom_types_from_pmd (structure : pmd.Structure)
    : F (gmap tkey nat) :=
  foldM (λ pmd_top_atomtypes atom_type,
    element <- lift (element_tag atom_type) ;;
    top_atomtype <- alloc (top_atomtype element atom_type) ;;
    ret (<[ByObject (pmd.at_id atom_type) := top_atomtype]>
           pmd_top_atomtypes))
    ∅ (unique_atom_types ∅ (pmd.structure_atoms structure)).

Definition _bond_types_from_pmd (structure : pmd.Structure)
    (bond_types_members_map : option (gmap mkey pyval))
    : F (gmap tkey nat) :=
  bond_types_members_map <-
    _assert_dict bond_types_members_map "bond_types_members_map" ;;
  foldM (λ pmd_top_bondtypes btype,
    top_bondtype <- alloc (top_bondtype bond_types_members_map btype) ;;
    ret (<[ByObject (pmd.bt_id btype) := top_bondtype]> pmd_top_bondtypes))
    ∅ (pmd.bond_types structure).

Definition _angle_types_from_pmd (structure : pmd.Structure)
    (angle_types_member_map : option (gmap mkey pyval))
    : F (gmap tkey nat) :=
  angle_types_member_map <-
    _assert_dict angle_types_member_map "angle_types_member_map" ;;
  foldM (λ pmd_top_angletypes angletype,
    top_angletype <-
      alloc (top_angletype angle_types_member_map angletype) ;;
    ret (<[ByObject (pmd.agt_id angletype) := top_angletype]>
           pmd_top_angletypes))
    ∅ (pmd.angle_types structure).

Definition _dihedral_types_from_pmd (structure : pmd.Structure)
    (dihedral_types_member_map : option (gmap mkey pyval))
    : F (gmap tkey nat) :=
  dihedral_types_member_map <-
    _assert_dict dihedral_types_member_map "dihedral_types_member_map" ;;
  pmd_top_dihedraltypes <-
    foldM (λ pmd_top_dihedraltypes dihedraltype,
      top_dihedraltype <-
        alloc (top_dihedraltype dihedral_types_member_map dihedraltype) ;;
      ret (<[ById (pmd.dt_id dihedraltype) := top_dihedraltype]>
             pmd_top_dihedraltypes))
      ∅ (pmd.dihedral_types structure) ;;
  foldM (λ pmd_top_dihedraltypes dihedraltype,
    top_dihedraltype <-
      alloc (top_rb_dihedraltype dihedral_types_member_map dihedraltype) ;;
    ret (<[ById (pmd.rb_id dihedraltype) := top_dihedraltype]>
           pmd_top_dihedraltypes))
    pmd_top_dihedraltypes (pmd.rb_torsion_types structure).

Definition _improper_types_from_pmd (structure : pmd.Structure)
    (improper_types_member_map : option (gmap mkey pyval))
    : F (gmap tkey nat) :=
  improper_types_member_map <-
    _assert_dict improper_types_member_map "improper_types_member_map" ;;
  pmd_top_impropertypes <-
    foldM (λ pmd_top_impropertypes dihedraltype,
      let member_types :=
        improper_types_member_map !! KId (pmd.dt_id dihedraltype) in
      top_impropertype <-
        alloc (top_periodic_impropertype dihedraltype) ;;
      let pmd_top_impropertypes :=
        <[ById (pmd.dt_id dihedraltype) := top_impropertype]>
          pmd_top_impropertypes in
      update_potential top_impropertype
        (gmso.set_member_types member_types) ;;;
      ret pmd_top_impropertypes)
      ∅ (pmd.dihedral_types structure) ;;
  foldM (λ pmd_top_impropertypes impropertype,
    let member_types :=
      improper_types_member_map !! KId (pmd.it_id impropertype) in
    top_impropertype <- alloc (top_harmonic_impropertype impropertype) ;;
    update_potential top_impropertype
      (gmso.set_member_types member_types) ;;;
    ret (<[ByObject (pmd.it_id impropertype) := top_impropertype]>
           pmd_top_impropertypes))
    pmd_top_impropertypes (pmd.improper_types structure).

End Forward.

(** *** Residues as molecules *)

Fixpoint check_residues (structure : pmd.Structure)
    (rs : list pmd.Residue) : bool :=
  match rs with
  | [] => true
  | res :: rs' =>
      let atoms_in_residue : gset nat :=
        list_to_set (pmd.atom_id <$> pmd.atoms res) in
      let bond_partners_in_residue :=
        concat (pmd.bond_partners structure <$> pmd.atoms res) in
      if decide (bond_partners_in_residue = []) then
        check_residues structure rs'
      else if decide (atoms_in_residue ≠ list_to_set bond_partners_in_residue)
      then false
      else check_residues structure rs'
  end.

Definition _check_independent_residues (structure : pmd.Structure) : bool :=
  check_residues structure (pmd.residues structure).

(** *** The converter *)

Section FromParmed.

Context `{ElementLibrary}.

Definition residue_label (ri : nat * pmd.Residue) : string * Z :=
  (pmd.res_name ri.2, Z.of_nat ri.1).

(** The body of the loop over the atoms of a residue. *)
Definition atom_body (refer_type ind_res : bool)
    (pmd_top_atomtypes : gmap tkey nat) (residue : nat * pmd.Residue)
    (atom : pmd.Atom) : F unit :=
  element <-
    (if Qtruthy (inject_Z (pmd.element atom)) then
       e <- lift (element_by_atomic_number (pmd.element atom)) ;;
       ret (Some e)
     else ret None) ;;
  atom_type <-
    (match pmd.atom_type atom with
     | pmd.OAtomType t =>
         if refer_type then
           a <- dict_get pmd_top_atomtypes (ByObject (pmd.at_id t)) ;;
           ret (Some a)
         else ret None
     | _ => ret None
     end) ;;
  let site :=
    {| gmso.s_name := pmd.name atom;
       gmso.charge := Some (Quantity (pmd.charge atom) elementary_charge);
       gmso.mass := None;
       gmso.position := ([pmd.xx atom; pmd.xy atom; pmd.xz atom], angstrom);
       gmso.atom_type := atom_type;
       gmso.residue := Some (residue_label residue);
       gmso.element := element;
       gmso.molecule :=
         if ind_res then Some (residue_label residue) else None |} in
  st <- get ;;
  modify (on_site_map <[pmd.atom_id atom := length (gmso.sites (top st))]>) ;;;
  modify (on_top (gmso.add_site site)).

(** [site_map[atom]]. *)
Definition site_of (atom : nat) : F nat :=
  st <- get ;; dict_get (site_map st) atom.

Definition new_connection (k : gmso.connection_class) (members : list nat)
    : gmso.Connection :=
  {| gmso.c_class := k; gmso.connection_members := members;
     gmso.connection_type := None |}.

Definition add_connection (c : gmso.Connection) : F unit :=
  modify (on_top (gmso.add_connection c)).

Definition bond_body (refer_type : bool) (pmd_top_bondtypes : gmap tkey nat)
    (bond : pmd.Bond) : F unit :=
  s1 <- site_of (pmd.b_atom1 bond) ;;
  s2 <- site_of (pmd.b_atom2 bond) ;;
  let top_connection := new_connection gmso.Bond [s1; s2] in
  top_connection <-
    (match pmd.b_type bond with
     | pmd.OBondType t =>
         if refer_type then
           ty <- dict_get pmd_top_bondtypes (ByObject (pmd.bt_id t)) ;;
           ret (gmso.set_connection_type ty top_connection)
         else ret top_connection
     | _ => ret top_connection
     end) ;;
  add_connection top_connection.

Definition angle_body (refer_type : bool)
    (pmd_top_angletypes : gmap tkey nat) (angle : pmd.Angle) : F unit :=
  s1 <- site_of (pmd.a_atom1 angle) ;;
  s2 <- site_of (pmd.a_atom2 angle) ;;
  s3 <- site_of (pmd.a_atom3 angle) ;;
  let top_connection := new_connection gmso.Angle [s1; s2; s3] in
  top_connection <-
    (match pmd.a_type angle with
     | pmd.OAngleType t =>
         if refer_type then
           ty <- dict_get pmd_top_angletypes (ByObject (pmd.agt_id t)) ;;
           ret (gmso.set_connection_type ty top_connection)
         else ret top_connection
     | _ => ret top_connection
     end) ;;
  add_connection top_connection.

Definition dihedral_body (refer_type : bool)
    (pmd_top_dihedraltypes pmd_top_impropertypes : gmap tkey nat)
    (dihedral : pmd.Dihedral) : F unit :=
  top_connection <-
    (if pmd.improper dihedral then
       warn (PeriodicImproperWarning dihedral) ;;;
       s1 <- site_of (pmd.d_atom1 dihedral) ;;
       s2 <- site_of (pmd.d_atom2 dihedral) ;;
       s3 <- site_of (pmd.d_atom3 dihedral) ;;
       s4 <- site_of (pmd.d_atom4 dihedral) ;;
       let top_connection :=
         new_connection gmso.Improper [s1; s2; s3; s4] in
       match pmd.d_type dihedral with
       | pmd.ODihedralType t =>
           if refer_type then
             ty <- dict_get pmd_top_impropertypes (ById (pmd.dt_id t)) ;;
             ret (gmso.set_connection_type ty top_connection)
           else ret top_connection
       | _ => ret top_connection
       end
     else
       s1 <- site_of (pmd.d_atom1 dihedral) ;;
       s2 <- site_of (pmd.d_atom2 dihedral) ;;
       s3 <- site_of (pmd.d_atom3 dihedral) ;;
       s4 <- site_of (pmd.d_atom4 dihedral) ;;
       let top_connection :=
         new_connection gmso.Dihedral [s1; s2; s3; s4] in
       match pmd.d_type dihedral with
       | pmd.ODihedralType t =>
           if refer_type then
             ty <- dict_get pmd_top_dihedraltypes (ById (pmd.dt_id t)) ;;
             ret (gmso.set_connection_type ty top_connection)
           else ret top_connection
       | _ => ret top_connection
       end) ;;
  add_connection top_connection.

Definition rb_torsion_body (refer_type : bool)
    (pmd_top_dihedraltypes : gmap tkey nat) (rb_torsion : pmd.Dihedral)
    : F unit :=
  (if pmd.improper rb_torsion then warn (RBImproperWarning rb_torsion)
   else ret tt) ;;;
  s1 <- site_of (pmd.d_atom1 rb_torsion) ;;
  s2 <- site_of (pmd.d_atom2 rb_torsion) ;;
  s3 <- site_of (pmd.d_atom3 rb_torsion) ;;
  s4 <- site_of (pmd.d_atom4 rb_torsion) ;;
  let top_connection := new_connection gmso.Dihedral [s1; s2; s3; s4] in
  top_connection <-
    (match pmd.d_type rb_torsion with
     | pmd.ORBTorsionType t =>
         if refer_type then
           ty <- dict_get pmd_top_dihedraltypes (ById (pmd.rb_id t)) ;;
           ret (gmso.set_connection_type ty top_connection)
         else ret top_connection
     | _ => ret top_connection
     end) ;;
  add_connection top_connection.

Definition improper_body (refer_type : bool)
    (pmd_top_impropertypes : gmap tkey nat) (improper : pmd.Improper)
    : F unit :=
  s1 <- site_of (pmd.i_atom1 improper) ;;
  s2 <- site_of (pmd.i_atom2 improper) ;;
  s3 <- site_of (pmd.i_atom3 improper) ;;
  s4 <- site_of (pmd.i_atom4 improper) ;;
  let top_connection := new_connection gmso.Improper [s1; s2; s3; s4] in
  top_connection <-
    (match pmd.i_type improper with
     | pmd.OImproperType t =>
         if refer_type then
           ty <- dict_get pmd_top_impropertypes (ByObject (pmd.it_id t)) ;;
           ret (gmso.set_connection_type ty top_connection)
         else ret top_connection
     | _ => ret top_connection
     end) ;;
  add_connection top_connection.

(** The type dictionaries of a structure, in the order the converter
    builds them: atom, bond, angle, dihedral and improper types. *)
Record type_maps : Type := {
  pmd_top_atomtypes : gmap tkey nat;
  pmd_top_bondtypes : gmap tkey nat;
  pmd_top_angletypes : gmap tkey nat;
  pmd_top_dihedraltypes : gmap tkey nat;
  pmd_top_impropertypes : gmap tkey nat }.

Definition no_type_maps : type_maps :=
  {| pmd_top_atomtypes := ∅; pmd_top_bondtypes := ∅;
     pmd_top_angletypes := ∅; pmd_top_dihedraltypes := ∅;
     pmd_top_impropertypes := ∅ |}.

Definition build_type_maps (structure : pmd.Structure) : F type_maps :=
  pmd_top_atomtypes <- _atom_types_from_pmd structure ;;
  bond_types_map <- _get_types_map structure "bonds" false ;;
  pmd_top_bondtypes <-
    _bond_types_from_pmd structure (Some bond_types_map) ;;
  angle_types_map <- _get_types_map structure "angles" false ;;
  pmd_top_angletypes <-
    _angle_types_from_pmd structure (Some angle_types_map) ;;
  dihedral_types_map <- _get_types_map structure "dihedrals" false ;;
  rb_types_map <- _get_types_map structure "rb_torsions" false ;;
  let dihedral_types_map :=
    dict_update dihedral_types_map rb_types_map [] in
  pmd_top_dihedraltypes <-
    _dihedral_types_from_pmd structure (Some dihedral_types_map) ;;
  improper_types_map <- _get_types_map structure "impropers" false ;;
  more <- _get_types_map structure "dihedrals" false ;;
  let improper_types_map :=
    dict_update improper_types_map more [("impropers", VBool true)] in
  pmd_top_impropertypes <-
    _improper_types_from_pmd structure (Some improper_types_map) ;;
  ret {| pmd_top_atomtypes := pmd_top_atomtypes;
         pmd_top_bondtypes := pmd_top_bondtypes;
         pmd_top_angletypes := pmd_top_angletypes;
         pmd_top_dihedraltypes := pmd_top_dihedraltypes;
         pmd_top_impropertypes := pmd_top_impropertypes |}.

(** The box of the topology: lengths in nanometres from the first three
    entries, angles in degrees from the next three. *)
Definition box_of (b : list Q) : F gmso.Box :=
  l <- to_unit_array (take 3 b, angstrom) nm ;;
  ret {| gmso.lengths := l; gmso.angles := (take 3 (drop 3 b), degree) |}.

(** The first step: the box, when every entry of the box array is
    non-zero. *)
Definition box_step (structure : pmd.Structure) : F unit :=
  match pmd.box structure with
  | Some b =>
      if np_all b then
        bx <- box_of b ;; modify (on_top (gmso.set_box (Some bx)))
      else ret tt
  | None => ret tt
  end.

(** The second step: the type dictionaries, when types are to be
    transferred. *)
Definition type_maps_for (structure : pmd.Structure) (refer_type : bool)
    : F type_maps :=
  if refer_type then build_type_maps structure else ret no_type_maps.

(** The remaining steps: sites, then connections kind by kind, then
    the final touches. *)
Definition fill_topology (structure : pmd.Structure) (refer_type : bool)
    (maps : type_maps) : F unit :=
  let ind_res := _check_independent_residues structure in
  forM_ (λ residue,
           forM_ (atom_body refer_type ind_res (pmd_top_atomtypes maps)
                    residue)
                 (pmd.atoms residue.2))
        (enumerate (pmd.residues structure)) ;;;
  forM_ (bond_body refer_type (pmd_top_bondtypes maps))
        (pmd.bonds structure) ;;;
  forM_ (angle_body refer_type (pmd_top_angletypes maps))
        (pmd.angles structure) ;;;
  forM_ (dihedral_body refer_type (pmd_top_dihedraltypes maps)
           (pmd_top_impropertypes maps))
        (pmd.dihedrals structure) ;;;
  forM_ (rb_torsion_body refer_type (pmd_top_dihedraltypes maps))
        (pmd.rb_torsions structure) ;;;
  forM_ (improper_body refer_type (pmd_top_impropertypes maps))
        (pmd.impropers structure) ;;;
  modify (on_top gmso.update_topology) ;;;
  modify (on_top (gmso.set_combining_rule (pmd.combining_rule structure))).

Definition from_parmed_steps (structure : pmd.Structure)
    (refer_type : bool) : F unit :=
  box_step structure ;;;
  maps <- type_maps_for structure refer_type ;;
  fill_topology structure refer_type maps.

(** What a forward conversion leaves behind: the topology, the store
    of the potentials it refers to, and the warnings issued. *)
Record converted : Type := {
  topology : gmso.Topology;
  potentials : list gmso.Potential;
  issued : list warning }.

(** No potential, a new topology named after the structure, no site
    and no warning. *)
Definition initial_state (structure : pmd.Structure) : fstate :=
  {| heap := []; top := gmso.new_topology (pmd.title structure);
     site_map := ∅; warnings := [] |}.

Definition from_parmed (structure : pmd.Structure) (refer_type : bool)
    : exn + converted :=
  match from_parmed_steps structure refer_type (initial_state structure)
  with
  | inl e => inl e
  | inr (_, st) =>
      inr {| topology := top st; potentials := heap st;
             issued := warnings st |}
  end.

End FromParmed.

(** ** Reverse conversion: GMSO topology to ParmEd structure *)

Module Build.
Import pmd.

(** Assignments to the attributes of a structure under construction. *)
Definition set_box (b : option (list Q)) (s : Structure) : Structure :=
  {| title := title s; box := b; residues := residues s; bonds := bonds s;
     angles := angles s; dihedrals := dihedrals s;
     rb_torsions := rb_torsions s; impropers := impropers s;
     bond_types := bond_types s; angle_types := angle_types s;
     dihedral_types := dihedral_types s;
     rb_torsion_types := rb_torsion_types s;
     improper_types := improper_types s;
     combining_rule := combining_rule s |}.

Definition set_title (t : string) (s : Structure) : Structure :=
  {| title := t; box := box s; residues := residues s; bonds := bonds s;
     angles := angles s; dihedrals := dihedrals s;
     rb_torsions := rb_torsions s; impropers := impropers s;
     bond_types := bond_types s; angle_types := angle_types s;
     dihedral_types := dihedral_types s;
     rb_torsion_types := rb_torsion_types s;
     improper_types := improper_types s;
     combining_rule := combining_rule s |}.

Definition on_residues (f : list Residue → list Residue) (s : Structure)
    : Structure :=
  {| title := title s; box := box s; residues := f (residues s);
     bonds := bonds s; angles := angles s; dihedrals := dihedrals s;
     rb_torsions := rb_torsions s; impropers := impropers s;
     bond_types := bond_types s; angle_types := angle_types s;
     dihedral_types := dihedral_types s;
     rb_torsion_types := rb_torsion_types s;
     improper_types := improper_types s;
     combining_rule := combining_rule s |}.

Definition on_bonds (f : list Bond → list Bond) (s : Structure)
    : Structure :=
  {| title := title s; box := box s; residues := residues s;
     bonds := f (bonds s); angles := angles s; dihedrals := dihedrals s;
     rb_torsions := rb_torsions s; impropers := impropers s;
     bond_types := bond_types s; angle_types := angle_types s;
     dihedral_types := dihedral_types s;
     rb_torsion_types := rb_torsion_types s;
     improper_types := improper_types s;
     combining_rule := combining_rule s |}.

Definition on_angles (f : list Angle → list Angle) (s : Structure)
    : Structure :=
  {| title := title s; box := box s; residues := residues s;
     bonds := bonds s; angles := f (angles s); dihedrals := dihedrals s;
     rb_torsions := rb_torsions s; impropers := impropers s;
     bond_types := bond_types s; angle_types := angle_types s;
     dihedral_types := dihedral_types s;
     rb_torsion_types := rb_torsion_types s;
     improper_types := improper_types s;
     combining_rule := combining_rule s |}.

Definition on_dihedrals (f : list Dihedral → list Dihedral)
    (s : Structure) : Structure :=
  {| title := title s; box := box s; residues := residues s;
     bonds := bonds s; angles := angles s; dihedrals := f (dihedrals s);
     rb_torsions := rb_torsions s; impropers := impropers s;
     bond_types := bond_types s; angle_types := angle_types s;
     dihedral_types := dihedral_types s;
     rb_torsion_types := rb_torsion_types s;
     improper_types := improper_types s;
     combining_rule := combining_rule s |}.

Definition on_rb_torsions (f : list Dihedral → list Dihedral)
    (s : Structure) : Structure :=
  {| title := title s; box := box s; residues := residues s;
     bonds := bonds s; angles := angles s; dihedrals := dihedrals s;
     rb_torsions := f (rb_torsions s); impropers := impropers s;
     bond_types := bond_types s; angle_types := angle_types s;
     dihedral_types := dihedral_types s;
     rb_torsion_types := rb_torsion_types s;
     improper_types := improper_types s;
     combining_rule := combining_rule s |}.

Definition on_bond_types (f : list BondType → list BondType)
    (s : Structure) : Structure :=
  {| title := title s; box := box s; residues := residues s;
     bonds := bonds s; angles := angles s; dihedrals := dihedrals s;
     rb_torsions := rb_torsions s; impropers := impropers s;
     bond_types := f (bond_types s); angle_types := angle_types s;
     dihedral_types := dihedral_types s;
     rb_torsion_types := rb_torsion_types s;
     improper_types := improper_types s;
     combining_rule := combining_rule s |}.

Definition on_angle_types (f : list AngleType → list AngleType)
    (s : Structure) : Structure :=
  {| title := title s; box := box s; residues := residues s;
     bonds := bonds s; angles := angles s; dihedrals := dihedrals s;
     rb_torsions := rb_torsions s; impropers := impropers s;
     bond_types := bond_types s; angle_types := f (angle_types s);
     dihedral_types := dihedral_types s;
     rb_torsion_types := rb_torsion_types s;
     improper_types := improper_types s;
     combining_rule := combining_rule s |}.

Definition on_dihedral_types (f : list DihedralType → list DihedralType)
    (s : Structure) : Structure :=
  {| title := title s; box := box s; residues := residues s;
     bonds := bonds s; angles := angles s; dihedrals := dihedrals s;
     rb_torsions := rb_torsions s; impropers := impropers s;
     bond_types := bond_types s; angle_types := angle_types s;
     dihedral_types := f (dihedral_types s);
     rb_torsion_types := rb_torsion_types s;
     improper_types := improper_types s;
     combining_rule := combining_rule s |}.

Definition on_rb_torsion_types
    (f : list RBTorsionType → list RBTorsionType) (s : Structure)
    : Structure :=
  {| title := title s; box := box s; residues := residues s;
     bonds := bonds s; angles := angles s; dihedrals := dihedrals s;
     rb_torsions := rb_torsions s; impropers := impropers s;
     bond_types := bond_types s; angle_types := angle_types s;
     dihedral_types := dihedral_types s;
     rb_torsion_types := f (rb_torsion_types s);
     improper_types := improper_types s;
     combining_rule := combining_rule s |}.

(** [structure.add_atom(atom, resname, resnum)]: the atom joins the
    last residue when name and number are those of that residue, and
    opens a new residue otherwise. *)
Fixpoint residues_add_atom (rs : list Residue) (atom : Atom)
    (resname : string) (resnum : Z) : list Residue :=
  let fresh :=
    {| res_name := resname; res_number := resnum; atoms := [atom] |} in
  match rs with
  | [] => [fresh]
  | [r] =>
      if decide (res_name r = resname ∧ res_number r = resnum) then
        [{| res_name := res_name r; res_number := res_number r;
            atoms := atoms r ++ [atom] |}]
      else [r; fresh]
  | r :: rs' => r :: residues_add_atom rs' atom resname resnum
  end.

Definition add_atom (atom : Atom) (resname : string) (resnum : Z)
    : Structure → Structure :=
  on_residues (λ rs, residues_add_atom rs atom resname resnum).

(** Assigning attributes of the atom object with a given identity. *)
Definition update_atom (a : nat) (f : Atom → Atom) : Structure → Structure :=
  on_residues (fmap (λ r,
    {| res_name := res_name r; res_number := res_number r;
       atoms := (λ x, if decide (atom_id x = a) then f x else x)
                  <$> atoms r |})).

Definition set_atom_type (t : AtomType) (x : Atom) : Atom :=
  {| atom_id := atom_id x; atomic_number := atomic_number x;
     name := name x; type := type x; atom_type := OAtomType t;
     mass := mass x; charge_ := charge_ x;
     xx := xx x; xy := xy x; xz := xz x |}.

Definition set_type_name (ty : string) (x : Atom) : Atom :=
  {| atom_id := atom_id x; atomic_number := atomic_number x;
     name := name x; type := ty; atom_type := atom_type x;
     mass := mass x; charge_ := charge_ x;
     xx := xx x; xy := xy x; xz := xz x |}.

Definition set_b_type (t : obj) (b : Bond) : Bond :=
  {| b_atom1 := b_atom1 b; b_atom2 := b_atom2 b; b_type := t |}.

Definition set_a_type (t : obj) (a : Angle) : Angle :=
  {| a_atom1 := a_atom1 a; a_atom2 := a_atom2 a; a_atom3 := a_atom3 a;
     a_type := t |}.

Definition set_d_type (t : obj) (d : Dihedral) : Dihedral :=
  {| d_atom1 := d_atom1 d; d_atom2 := d_atom2 d; d_atom3 := d_atom3 d;
     d_atom4 := d_atom4 d; improper := improper d; d_type := t |}.

End Build.

(** The state of a reverse conversion: the structure being filled and
    the next unused object identity. *)
Record rstate : Type := {
  structure_ : pmd.Structure;
  next_id : nat }.

Definition R : Type → Type := M rstate.

Definition on_structure (f : pmd.Structure → pmd.Structure) : R unit :=
  modify (λ st, {| structure_ := f (structure_ st); next_id := next_id st |}).

(** The identity of a newly created object. *)
Definition fresh_id : R nat :=
  λ st, inr (next_id st,
             {| structure_ := structure_ st; next_id := S (next_id st) |}).

(** [assert cond, msg]. *)
Definition assert_ {S} (cond : bool) (msg : string) : M S unit :=
  if cond then ret tt else raise (AssertionError msg).

(** The potential at an address of the store.  Python has no reference
    to nothing; the model rejects an address outside the store. *)
Definition deref {S} (potentials : list gmso.Potential) (a : nat)
    : M S gmso.Potential :=
  match potentials !! a with
  | Some p => ret p
  | None => raise DanglingReference
  end.

(** [q.to(u).value if q else None]. *)
Definition value_if_truthy {S} (q : option quantity) (u : unit_)
    : M S (option Q) :=
  match q with
  | Some q =>
      if quantity_truthy q then q' <- to_unit q u ;; ret (Some (value q'))
      else ret None
  | None => ret None
  end.

(** [float(p.parameters[key].to(u).value)]. *)
Definition parameter_in {S} (p : gmso.Potential) (key : string) (u : unit_)
    : M S Q :=
  q <- gmso.parameter p key ;; q' <- to_unit q u ;; ret (value q').

(** [1.6 * 10 ** (-19)]. *)
Definition charge_divisor : Q := 16 # 100000000000000000000.

Section ToParmed.

Context `{ExprMatcher} `{ElementLibrary}.

Variable potentials : list gmso.Potential.

(** [top.bonds] and the like, each connection with its address. *)
Definition connections_of (k : gmso.connection_class) (top : gmso.Topology)
    : list (nat * gmso.Connection) :=
  filter (λ ic, gmso.c_class ic.2 = k) (enumerate (gmso.connections top)).

Definition _atom_types_from_gmso (top : gmso.Topology)
    (atom_map : gmap nat nat) : R unit :=
  atype_map <-
    foldM (λ (atype_map : gmap string pmd.AtomType) a,
      atom_type <- deref potentials a ;;
      let msg :=
        "Atom type " +:+ gmso.p_name atom_type +:+
        " expression does not match Parmed AtomType default expression" in
      assert_ (expr_match (gmso.expression atom_type)
                 Forms.lennard_jones_expanded) msg ;;;
      let atype_name := gmso.p_name atom_type in
      c <- (match gmso.p_charge atom_type with
            | Some q => to_unit q Coulomb
            | None => raise AttributeError
            end) ;;
      let atype_charge := Qred (value c / charge_divisor) in
      atype_sigma <- parameter_in atom_type "sigma" angstrom ;;
      atype_epsilon <- parameter_in atom_type "epsilon" kcal_mol ;;
      let atype_element := element_by_atom_type atom_type in
      let atype_rmin := Qred (atype_sigma * two_pow_sixth / 2) in
      e <- (match atype_element with
            | Some e => ret e
            | None => raise AttributeError
            end) ;;
      i <- fresh_id ;;
      let atype :=
        {| pmd.at_id := i; pmd.at_name := atype_name;
           pmd.at_mass := value (gmso.el_mass e);
           pmd.at_atomic_number := gmso.el_atomic_number e;
           pmd.at_charge := atype_charge;
           pmd.at_epsilon := atype_epsilon; pmd.at_rmin := atype_rmin |} in
      ret (<[atype_name := atype]> atype_map))
      ∅ (gmso.atom_types top) ;;
  forM_ (λ site : nat * gmso.Atom,
    pmd_atom <- dict_get atom_map site.1 ;;
    site_type <- (match gmso.atom_type site.2 with
                  | Some a => deref potentials a
                  | None => raise AttributeError
                  end) ;;
    on_structure
      (Build.update_atom pmd_atom
         (Build.set_type_name (gmso.p_name site_type))) ;;;
    atype <- dict_get atype_map (gmso.p_name site_type) ;;
    on_structure (Build.update_atom pmd_atom (Build.set_atom_type atype)))
    (enumerate (gmso.sites top)).

(** [m[connection.connection_type]]: no type is the key [None], which
    no dictionary of types holds. *)
Definition type_of_connection {V} (m : gmap nat V) (c : gmso.Connection)
    : R V :=
  match gmso.connection_type c with
  | Some a => dict_get m a
  | None => raise KeyError
  end.

Definition _bond_types_from_gmso (top : gmso.Topology)
    (bond_map : gmap nat nat) : R unit :=
  btype_map <-
    foldM (λ (btype_map : gmap nat pmd.BondType) a,
      bond_type <- deref potentials a ;;
      let msg :=
        "Bond type " +:+ gmso.p_name bond_type +:+
        " expression does not match Parmed BondType default expression" in
      assert_ (expr_match (gmso.expression bond_type) Forms.harmonic_bond)
        msg ;;;
      k <- parameter_in bond_type "k" kcal_angstrom2_mol ;;
      let btype_k := Qred ((1 # 2) * k) in
      btype_r_eq <- parameter_in bond_type "r_eq" angstrom ;;
      i <- fresh_id ;;
      let btype :=
        {| pmd.bt_id := i; pmd.bt_k := btype_k;
           pmd.bt_req := btype_r_eq |} in
      on_structure (Build.on_bond_types (λ l, l ++ [btype])) ;;;
      ret (<[a := btype]> btype_map))
      ∅ (gmso.connection_types gmso.Bond top) ;;
  forM_ (λ bond : nat * gmso.Connection,
    pmd_bond <- dict_get bond_map bond.1 ;;
    btype <- type_of_connection btype_map bond.2 ;;
    on_structure (Build.on_bonds
      (alter (Build.set_b_type (pmd.OBondType btype)) pmd_bond)))
    (connections_of gmso.Bond top).

Definition _angle_types_from_gmso (top : gmso.Topology)
    (angle_map : gmap nat nat) : R unit :=
  agltype_map <-
    foldM (λ (agltype_map : gmap nat pmd.AngleType) a,
      angle_type <- deref potentials a ;;
      let msg :=
        "Angle type " +:+ gmso.p_name angle_type +:+
        " expression does not match Parmed AngleType default expression" in
      assert_ (expr_match (gmso.expression angle_type)
                 Forms.harmonic_angle) msg ;;;
      k <- parameter_in angle_type "k" kcal_rad2_mol ;;
      let agltype_k := Qred ((1 # 2) * k) in
      agltype_theta_eq <- parameter_in angle_type "theta_eq" degree ;;
      i <- fresh_id ;;
      let agltype :=
        {| pmd.agt_id := i; pmd.agt_k := agltype_k;
           pmd.agt_theteq := agltype_theta_eq |} in
      on_structure (Build.on_angle_types (λ l, l ++ [agltype])) ;;;
      ret (<[a := agltype]> agltype_map))
      ∅ (gmso.connection_types gmso.Angle top) ;;
  forM_ (λ angle : nat * gmso.Connection,
    pmd_angle <- dict_get angle_map angle.1 ;;
    agltype <- type_of_connection agltype_map angle.2 ;;
    on_structure (Build.on_angles
      (alter (Build.set_a_type (pmd.OAngleType agltype)) pmd_angle)))
    (connections_of gmso.Angle top).

(** The external type record of one internal dihedral type. *)
Definition dihedral_type_record (dihedral_type : gmso.Potential)
    : R pmd.obj :=
  let msg :=
    "Dihedral type " +:+ gmso.p_name dihedral_type +:+
    " expression does not match Parmed DihedralType default expressions (Periodics, RBTorsions)" in
  if expr_match (gmso.expression dihedral_type)
       Forms.periodic_torsion_squared then
    dtype_k <- parameter_in dihedral_type "k" kcal_mol ;;
    dtype_phi_eq <- parameter_in dihedral_type "phi_eq" degree ;;
    n <- gmso.parameter dihedral_type "n" ;;
    let dtype_n := value n in
    i <- fresh_id ;;
    let dtype :=
      {| pmd.dt_id := i; pmd.dt_phi_k := dtype_k; pmd.dt_per := dtype_n;
         pmd.dt_phase := dtype_phi_eq |} in
    on_structure (Build.on_dihedral_types (λ l, l ++ [dtype])) ;;;
    ret (pmd.ODihedralType dtype)
  else if expr_match (gmso.expression dihedral_type)
            Forms.ryckaert_bellemans then
    dtype_c0 <- parameter_in dihedral_type "c0" kcal_mol ;;
    dtype_c1 <- parameter_in dihedral_type "c1" kcal_mol ;;
    dtype_c2 <- parameter_in dihedral_type "c2" kcal_mol ;;
    dtype_c3 <- parameter_in dihedral_type "c3" kcal_mol ;;
    dtype_c4 <- parameter_in dihedral_type "c4" kcal_mol ;;
    dtype_c5 <- parameter_in dihedral_type "c5" kcal_mol ;;
    i <- fresh_id ;;
    let dtype :=
      {| pmd.rb_id := i; pmd.rb_c0 := dtype_c0; pmd.rb_c1 := dtype_c1;
         pmd.rb_c2 := dtype_c2; pmd.rb_c3 := dtype_c3;
         pmd.rb_c4 := dtype_c4; pmd.rb_c5 := dtype_c5 |} in
    on_structure (Build.on_rb_torsion_types (λ l, l ++ [dtype])) ;;;
    ret (pmd.ORBTorsionType dtype)
  else raise (GMSOError "msg").

(** A dihedral of the structure: in [rb_torsions] or in [dihedrals],
    at a position. *)
Definition set_dihedral_type (where_ : bool * nat) (t : pmd.obj)
    : pmd.Structure → pmd.Structure :=
  if where_.1 then Build.on_rb_torsions (alter (Build.set_d_type t) where_.2)
  else Build.on_dihedrals (alter (Build.set_d_type t) where_.2).

Definition _dihedral_types_from_gmso (top : gmso.Topology)
    (dihedral_map : gmap nat (bool * nat)) : R unit :=
  dtype_map <-
    foldM (λ (dtype_map : gmap nat pmd.obj) a,
      dihedral_type <- deref potentials a ;;
      dtype <- dihedral_type_record dihedral_type ;;
      ret (<[a := dtype]> dtype_map))
      ∅ (gmso.connection_types gmso.Dihedral top) ;;
  forM_ (λ dihedral : nat * gmso.Connection,
    pmd_dihedral <- dict_get dihedral_map dihedral.1 ;;
    dtype <- type_of_connection dtype_map dihedral.2 ;;
    on_structure (set_dihedral_type pmd_dihedral dtype))
    (connections_of gmso.Dihedral top).

End ToParmed.

Section ToParmedMain.

Context `{ExprMatcher} `{ElementLibrary}.

(** The body of the loop over the sites; [site.1] is the address of
    the site. *)
Definition site_body (atom_map : gmap nat nat) (site : nat * gmso.Atom)
    : R (gmap nat nat) :=
  let atomic_number :=
    match gmso.element site.2 with
    | Some e => gmso.el_atomic_number e
    | None => 0%Z
    end in
  m <- value_if_truthy (gmso.mass site.2) amu ;;
  c <- value_if_truthy (gmso.charge site.2) elementary_charge ;;
  p <- to_unit_array (gmso.position site.2) angstrom ;;
  i <- fresh_id ;;
  match p.1 with
  | [x; y; z] =>
      let pmd_atom :=
        {| pmd.atom_id := i; pmd.atomic_number := atomic_number;
           pmd.name := gmso.s_name site.2; pmd.type := "";
           pmd.atom_type := pmd.PyNone; pmd.mass := m; pmd.charge_ := c;
           pmd.xx := x; pmd.xy := y; pmd.xz := z |} in
      (match gmso.residue site.2 with
       | Some (resname, resnum) =>
           on_structure (Build.add_atom pmd_atom resname resnum)
       | None => on_structure (Build.add_atom pmd_atom "RES" (-1))
       end) ;;;
      ret (<[site.1 := i]> atom_map)
  | _ => raise ValueError
  end.

Definition bond_out (atom_map : gmap nat nat) (bond_map : gmap nat nat)
    (bond : nat * gmso.Connection) : R (gmap nat nat) :=
  match gmso.connection_members bond.2 with
  | [site1; site2] =>
      a1 <- dict_get atom_map site1 ;;
      a2 <- dict_get atom_map site2 ;;
      let pmd_bond :=
        {| pmd.b_atom1 := a1; pmd.b_atom2 := a2;
           pmd.b_type := pmd.PyNone |} in
      st <- get ;;
      on_structure (Build.on_bonds (λ l, l ++ [pmd_bond])) ;;;
      ret (<[bond.1 := length (pmd.bonds (structure_ st))]> bond_map)
  | _ => raise ValueError
  end.

Definition angle_out (atom_map : gmap nat nat) (angle_map : gmap nat nat)
    (angle : nat * gmso.Connection) : R (gmap nat nat) :=
  match gmso.connection_members angle.2 with
  | [site1; site2; site3] =>
      a1 <- dict_get atom_map site1 ;;
      a2 <- dict_get atom_map site2 ;;
      a3 <- dict_get atom_map site3 ;;
      let pmd_angle :=
        {| pmd.a_atom1 := a1; pmd.a_atom2 := a2; pmd.a_atom3 := a3;
           pmd.a_type := pmd.PyNone |} in
      st <- get ;;
      on_structure (Build.on_angles (λ l, l ++ [pmd_angle])) ;;;
      ret (<[angle.1 := length (pmd.angles (structure_ st))]> angle_map)
  | _ => raise ValueError
  end.

Definition dihedral_out (potentials : list gmso.Potential)
    (atom_map : gmap nat nat) (dihedral_map : gmap nat (bool * nat))
    (dihedral : nat * gmso.Connection) : R (gmap nat (bool * nat)) :=
  match gmso.connection_members dihedral.2 with
  | [site1; site2; site3; site4] =>
      a1 <- dict_get atom_map site1 ;;
      a2 <- dict_get atom_map site2 ;;
      a3 <- dict_get atom_map site3 ;;
      a4 <- dict_get atom_map site4 ;;
      let pmd_dihedral :=
        {| pmd.d_atom1 := a1; pmd.d_atom2 := a2; pmd.d_atom3 := a3;
           pmd.d_atom4 := a4; pmd.improper := false;
           pmd.d_type := pmd.PyNone |} in
      is_rb <-
        (match gmso.connection_type dihedral.2 with
         | Some a =>
             t <- deref potentials a ;;
             ret (expr_match (gmso.expression t) Forms.ryckaert_bellemans)
         | None => ret false
         end) ;;
      st <- get ;;
      if (is_rb : bool) then
        on_structure (Build.on_rb_torsions (λ l, l ++ [pmd_dihedral])) ;;;
        ret (<[dihedral.1 :=
                 (true, length (pmd.rb_torsions (structure_ st)))]>
               dihedral_map)
      else
        on_structure (Build.on_dihedrals (λ l, l ++ [pmd_dihedral])) ;;;
        ret (<[dihedral.1 :=
                 (false, length (pmd.dihedrals (structure_ st)))]>
               dihedral_map)
  | _ => raise ValueError
  end.

(** The box array: lengths in angstrom, then angles in degrees. *)
Definition box_array (b : gmso.Box) : R (list Q) :=
  l <- to_unit_array (gmso.lengths b) angstrom ;;
  a <- to_unit_array (gmso.angles b) degree ;;
  ret (l.1 ++ a.1).

Definition is_empty {A} (l : list A) : bool :=
  match l with [] => true | _ => false end.

Definition to_parmed_steps (top : gmso.Topology)
    (potentials : list gmso.Potential) (refer_type : bool) : R unit :=
  on_structure (Build.set_title (gmso.t_name top)) ;;;
  (match gmso.box top with
   | Some b => a <- box_array b ;; on_structure (Build.set_box (Some a))
   | None => on_structure (Build.set_box None)
   end) ;;;
  atom_map <- foldM site_body ∅ (enumerate (gmso.sites top)) ;;
  bond_map <- foldM (bond_out atom_map) ∅ (connections_of gmso.Bond top) ;;
  angle_map <-
    foldM (angle_out atom_map) ∅ (connections_of gmso.Angle top) ;;
  dihedral_map <-
    foldM (dihedral_out potentials atom_map) ∅
      (connections_of gmso.Dihedral top) ;;
  if refer_type then
    (if negb (is_empty (gmso.atom_types top)) then
       _atom_types_from_gmso potentials top atom_map
     else ret tt) ;;;
    (if negb (is_empty (gmso.connection_types gmso.Bond top)) then
       _bond_types_from_gmso potentials top bond_map
     else ret tt) ;;;
    (if negb (is_empty (gmso.connection_types gmso.Angle top)) then
       _angle_types_from_gmso potentials top angle_map
     else ret tt) ;;;
    (if negb (is_empty (gmso.connection_types gmso.Dihedral top)) then
       _dihedral_types_from_gmso potentials top dihedral_map
     else ret tt)
  else ret tt.

Definition to_parmed (top : gmso.Topology)
    (potentials : list gmso.Potential) (refer_type : bool)
    : exn + pmd.Structure :=
  match to_parmed_steps top potentials refer_type
          {| structure_ := pmd.empty; next_id := 1 |} with
  | inl e => inl e
  | inr (_, st) => inr (structure_ st)
  end.

End ToParmedMain.

(** ** Concrete collaborators, to run the converters *)

(** Matching by identical syntax trees. *)
Program Definition structural_matcher : ExprMatcher :=
  {| expr_match := expr_eqb |}.
Next Obligation. intros a. by apply bool_decide_eq_true. Qed.
Next Obligation.
  intros a b. unfold expr_eqb.
  destruct (decide (a = b)) as [->|Hne].
  - by rewrite bool_decide_eq_true_2.
  - rewrite !bool_decide_eq_false_2; [done|congruence|done].
Qed.
Next Obligation.
  intros a b c ->%bool_decide_eq_true ->%bool_decide_eq_true.
  by apply bool_decide_eq_true.
Qed.
Next Obligation.
  intros a b ->%bool_decide_eq_true cosf env va vb _ Ha Hb.
  rewrite Ha in Hb. by injection Hb as ->.
Qed.

(** A catalogue of three elements. *)
Definition sample_elements : list gmso.Element :=
  [ {| gmso.symbol := "H"; gmso.el_atomic_number := 1;
       gmso.el_mass := Quantity (1008 # 1000) amu |};
    {| gmso.symbol := "C"; gmso.el_atomic_number := 6;
       gmso.el_mass := Quantity (12011 # 1000) amu |};
    {| gmso.symbol := "O"; gmso.el_atomic_number := 8;
       gmso.el_mass := Quantity (15999 # 1000) amu |} ].

Definition sample_library : ElementLibrary :=
  {| element_by_atomic_number := λ n,
       match list_find (λ e, gmso.el_atomic_number e = n) sample_elements with
       | Some (_, e) => inr e
       | None => inl (GMSOError "Failed to find an element")
       end;
     element_by_atom_type := λ p,
       match list_find (λ kv, kv.1 = "element") (gmso.tags p) with
       | Some (_, (_, sym)) =>
           snd <$> list_find (λ e, gmso.symbol e = sym) sample_elements
       | None => None
       end |}.

(** ** What the forward converter computes, connection by connection *)

(** The connection instances of a structure, in the order in which the
    converter walks them. *)
Inductive ext_conn : Type :=
  | EBond (b : pmd.Bond)
  | EAngle (a : pmd.Angle)
  | EDihedral (d : pmd.Dihedral)
  | ERBTorsion (d : pmd.Dihedral)
  | EImproper (i : pmd.Improper).

Definition ext_connections (s : pmd.Structure) : list ext_conn :=
  (EBond <$> pmd.bonds s) ++ (EAngle <$> pmd.angles s) ++
  (EDihedral <$> pmd.dihedrals s) ++ (ERBTorsion <$> pmd.rb_torsions s) ++
  (EImproper <$> pmd.impropers s).

(** Member atoms, in the order listed. *)
Definition ext_atoms (c : ext_conn) : list nat :=
  match c with
  | EBond b => [pmd.b_atom1 b; pmd.b_atom2 b]
  | EAngle a => [pmd.a_atom1 a; pmd.a_atom2 a; pmd.a_atom3 a]
  | EDihedral d | ERBTorsion d =>
      [pmd.d_atom1 d; pmd.d_atom2 d; pmd.d_atom3 d; pmd.d_atom4 d]
  | EImproper i =>
      [pmd.i_atom1 i; pmd.i_atom2 i; pmd.i_atom3 i; pmd.i_atom4 i]
  end.

(** The type reference of an instance. *)
Definition ext_type (c : ext_conn) : pmd.obj :=
  match c with
  | EBond b => pmd.b_type b
  | EAngle a => pmd.a_type a
  | EDihedral d | ERBTorsion d => pmd.d_type d
  | EImproper i => pmd.i_type i
  end.

(** The class of the internal connection an instance becomes. *)
Definition ext_class (c : ext_conn) : gmso.connection_class :=
  match c with
  | EBond _ => gmso.Bond
  | EAngle _ => gmso.Angle
  | EDihedral d => if pmd.improper d then gmso.Improper else gmso.Dihedral
  | ERBTorsion _ => gmso.Dihedral
  | EImproper _ => gmso.Improper
  end.

(** The key under which the type of an instance is looked up; [None]
    when the type reference is absent or of another class than the one
    expected. *)
Definition ext_type_key (c : ext_conn) : option tkey :=
  match c with
  | EBond b =>
      match pmd.b_type b with
      | pmd.OBondType t => Some (ByObject (pmd.bt_id t))
      | _ => None
      end
  | EAngle a =>
      match pmd.a_type a with
      | pmd.OAngleType t => Some (ByObject (pmd.agt_id t))
      | _ => None
      end
  | EDihedral d =>
      match pmd.d_type d with
      | pmd.ODihedralType t => Some (ById (pmd.dt_id t))
      | _ => None
      end
  | ERBTorsion d =>
      match pmd.d_type d with
      | pmd.ORBTorsionType t => Some (ById (pmd.rb_id t))
      | _ => None
      end
  | EImproper i =>
      match pmd.i_type i with
      | pmd.OImproperType t => Some (ByObject (pmd.it_id t))
      | _ => None
      end
  end.

(** The four dictionaries of connection types, and the one in which the
    type of an instance is looked up. *)
Inductive dictionary : Type :=
  | BondTypes | AngleTypes | DihedralTypes | ImproperTypes.

Global Instance dictionary_eq_dec : EqDecision dictionary.
Proof. solve_decision. Defined.

Definition ext_dictionary (c : ext_conn) : dictionary :=
  match c with
  | EBond _ => BondTypes
  | EAngle _ => AngleTypes
  | EDihedral d => if pmd.improper d then ImproperTypes else DihedralTypes
  | ERBTorsion _ => DihedralTypes
  | EImproper _ => ImproperTypes
  end.

Definition dictionary_of (maps : type_maps) (d : dictionary)
    : gmap tkey nat :=
  match d with
  | BondTypes => pmd_top_bondtypes maps
  | AngleTypes => pmd_top_angletypes maps
  | DihedralTypes => pmd_top_dihedraltypes maps
  | ImproperTypes => pmd_top_impropertypes maps
  end.

Definition ext_type_map (maps : type_maps) (c : ext_conn) : gmap tkey nat :=
  dictionary_of maps (ext_dictionary c).

(** The warning an instance triggers, if any. *)
Definition ext_warning (c : ext_conn) : list warning :=
  match c with
  | EDihedral d =>
      if pmd.improper d then [PeriodicImproperWarning d] else []
  | ERBTorsion d => if pmd.improper d then [RBImproperWarning d] else []
  | _ => []
  end.

(** The type assigned to the connection made from an instance: the
    outer [None] is a failed lookup. *)
Definition convert_type (refer_type : bool) (maps : type_maps)
    (c : ext_conn) : option (option nat) :=
  match ext_type_key c with
  | Some key =>
      if refer_type then
        match ext_type_map maps c !! key with
        | Some ty => Some (Some ty)
        | None => None
        end
      else Some None
  | None => Some None
  end.

(** The connection made from an instance, given the dictionary from
    atoms to sites; [None] when a lookup fails. *)
Definition convert (refer_type : bool) (maps : type_maps)
    (sm : gmap nat nat) (c : ext_conn) : option gmso.Connection :=
  match mapM (λ a, sm !! a) (ext_atoms c),
        convert_type refer_type maps c with
  | Some members, Some ty =>
      Some {| gmso.c_class := ext_class c;
              gmso.connection_members := members;
              gmso.connection_type := ty |}
  | _, _ => None
  end.

(** The atoms of a structure, each with its residue and the position of
    that residue. *)
Definition labelled_atoms (s : pmd.Structure)
    : list ((nat * pmd.Residue) * pmd.Atom) :=
  r ← enumerate (pmd.residues s); (λ a, (r, a)) <$> pmd.atoms r.2.

(** The dictionary after the items [l] were entered, each under its key
    and with the addresses [base], [base + 1], ...; a later item
    overwrites an earlier one with the same key. *)
Fixpoint index_by {K A} `{Countable K} (key : A → K) (base : nat)
    (l : list A) (m : gmap K nat) : gmap K nat :=
  match l with
  | [] => m
  | a :: l' => index_by key (S base) l' (<[key a := base]> m)
  end.

(** The dictionary from atoms to sites after the atoms [l] were turned
    into sites at the addresses [base], [base + 1], ... *)
Definition index_atoms : nat → list pmd.Atom → gmap nat nat → gmap nat nat :=
  index_by pmd.atom_id.

Definition final_site_map (s : pmd.Structure) : gmap nat nat :=
  index_atoms 0 (pmd.structure_atoms s) ∅.

Section SiteSpec.

Context `{ElementLibrary}.

(** The site made from an atom; [None] when a lookup fails. *)
Definition site_for (refer_type ind_res : bool) (maps : type_maps)
    (ra : (nat * pmd.Residue) * pmd.Atom) : option gmso.Atom :=
  let '(residue, atom) := ra in
  let element :=
    if Qtruthy (inject_Z (pmd.element atom)) then
      match element_by_atomic_number (pmd.element atom) with
      | inr e => Some (Some e)
      | inl _ => None
      end
    else Some None in
  let atom_type :=
    match pmd.atom_type atom with
    | pmd.OAtomType t =>
        if refer_type then
          match pmd_top_atomtypes maps !! ByObject (pmd.at_id t) with
          | Some a => Some (Some a)
          | None => None
          end
        else Some None
    | _ => Some None
    end in
  match element, atom_type with
  | Some element, Some atom_type =>
      Some {| gmso.s_name := pmd.name atom;
              gmso.charge :=
                Some (Quantity (pmd.charge atom) elementary_charge);
              gmso.mass := None;
              gmso.position :=
                ([pmd.xx atom; pmd.xy atom; pmd.xz atom], angstrom);
              gmso.atom_type := atom_type;
              gmso.residue := Some (residue_label residue);
              gmso.element := element;
              gmso.molecule :=
                if ind_res then Some (residue_label residue) else None |}
  | _, _ => None
  end.

(** The state in which the type dictionaries are built: a new
    topology with its box set. *)
Definition box_for (s : pmd.Structure) : option gmso.Box :=
  match pmd.box s with
  | Some b =>
      if np_all b then
        Some {| gmso.lengths := ((λ x, Qred (x * (1 # 10))) <$> take 3 b, nm);
                gmso.angles := (take 3 (drop 3 b), degree) |}
      else None
  | None => None
  end.

Definition boxed_state (s : pmd.Structure) : fstate :=
  {| heap := [];
     top := gmso.set_box (box_for s) (gmso.new_topology (pmd.title s));
     site_map := ∅; warnings := [] |}.

End SiteSpec.

(** The state after the connections [ks] were added and the warnings
    [ws] issued. *)
Definition record (ks : list gmso.Connection) (ws : list warning)
    (st : fstate) : fstate :=
  {| heap := heap st;
     top :=
       {| gmso.t_name := gmso.t_name (top st); gmso.box := gmso.box (top st);
          gmso.sites := gmso.sites (top st);
          gmso.connections := gmso.connections (top st) ++ ks;
          gmso.combining_rule := gmso.combining_rule (top st) |};
     site_map := site_map st;
     warnings := warnings st ++ ws |}.

(** The state after the atoms [l] were turned into the sites [ss]. *)
Definition place (ss : list gmso.Atom) (l : list pmd.Atom) (st : fstate)
    : fstate :=
  {| heap := heap st;
     top :=
       {| gmso.t_name := gmso.t_name (top st); gmso.box := gmso.box (top st);
          gmso.sites := gmso.sites (top st) ++ ss;
          gmso.connections := gmso.connections (top st);
          gmso.combining_rule := gmso.combining_rule (top st) |};
     site_map := index_atoms (length (gmso.sites (top st))) l (site_map st);
     warnings := warnings st |}.

(** ** What the type dictionaries hold *)

(** The state after the potentials [ps] were created. *)
Definition grown (ps : list gmso.Potential) (st : fstate) : fstate :=
  on_heap (λ h, h ++ ps) st.

(** The member-types dictionaries the converter hands to the builders of
    the type dictionaries. *)
Definition members_map (s : pmd.Structure) (ms : list member)
    : gmap mkey pyval :=
  foldl (types_map_step s false) ∅ ms.

Definition bond_members_map (s : pmd.Structure) : gmap mkey pyval :=
  members_map s (MemBond <$> pmd.bonds s).

Definition angle_members_map (s : pmd.Structure) : gmap mkey pyval :=
  members_map s (MemAngle <$> pmd.angles s).

Definition dihedral_members_map (s : pmd.Structure) : gmap mkey pyval :=
  dict_update (members_map s (MemDihedral <$> pmd.dihedrals s))
    (members_map s (MemDihedral <$> pmd.rb_torsions s)) [].

Definition improper_members_map (s : pmd.Structure) : gmap mkey pyval :=
  dict_update (members_map s (MemImproper <$> pmd.impropers s))
    (members_map s (MemDihedral <$> pmd.dihedrals s))
    [("impropers", VBool true)].

Section TypeMapsSpec.

Context `{ElementLibrary}.

Definition atom_potential (t : pmd.AtomType) : option gmso.Potential :=
  match element_tag t with
  | inr el => Some (top_atomtype el t)
  | inl _ => None
  end.

(** The potentials created for the connection types of a structure,
    in order of creation. *)
Definition connection_potentials (s : pmd.Structure)
    : list gmso.Potential :=
  (top_bondtype (bond_members_map s) <$> pmd.bond_types s) ++
  (top_angletype (angle_members_map s) <$> pmd.angle_types s) ++
  (top_dihedraltype (dihedral_members_map s) <$> pmd.dihedral_types s) ++
  (top_rb_dihedraltype (dihedral_members_map s)
     <$> pmd.rb_torsion_types s) ++
  ((λ t, gmso.set_member_types
           (improper_members_map s !! KId (pmd.dt_id t))
           (top_periodic_impropertype t)) <$> pmd.dihedral_types s) ++
  ((λ t, gmso.set_member_types
           (improper_members_map s !! KId (pmd.it_id t))
           (top_harmonic_impropertype t)) <$> pmd.improper_types s).

(** The type dictionaries of a structure when the store holds [base]
    potentials beforehand. *)
Definition forward_maps (s : pmd.Structure) (base : nat) : type_maps :=
  let atom_types := unique_atom_types ∅ (pmd.structure_atoms s) in
  let b1 := base + length atom_types in
  let b2 := b1 + length (pmd.bond_types s) in
  let b3 := b2 + length (pmd.angle_types s) in
  let b4 := b3 + length (pmd.dihedral_types s) in
  let b5 := b4 + length (pmd.rb_torsion_types s) in
  let b6 := b5 + length (pmd.dihedral_types s) in
  {| pmd_top_atomtypes :=
       index_by (λ t, ByObject (pmd.at_id t)) base atom_types ∅;
     pmd_top_bondtypes :=
       index_by (λ t, ByObject (pmd.bt_id t)) b1 (pmd.bond_types s) ∅;
     pmd_top_angletypes :=
       index_by (λ t, ByObject (pmd.agt_id t)) b2 (pmd.angle_types s) ∅;
     pmd_top_dihedraltypes :=
       index_by (λ t, ById (pmd.rb_id t)) b4 (pmd.rb_torsion_types s)
         (index_by (λ t, ById (pmd.dt_id t)) b3 (pmd.dihedral_types s) ∅);
     pmd_top_impropertypes :=
       index_by (λ t, ByObject (pmd.it_id t)) b6 (pmd.improper_types s)
         (index_by (λ t, ById (pmd.dt_id t)) b5 (pmd.dihedral_types s) ∅)
  |}.

End TypeMapsSpec.

(** ** The forward conversion as a function of the structure *)

Section ForwardSpec.

Context `{ElementLibrary}.

(** The type dictionaries and the store of a conversion. *)
Definition forward_types (s : pmd.Structure) (refer_type : bool)
    : option (type_maps * list gmso.Potential) :=
  if refer_type then
    ps ← mapM atom_potential (unique_atom_types ∅ (pmd.structure_atoms s));
    Some (forward_maps s 0, ps ++ connection_potentials s)
  else Some (no_type_maps, []).

(** The outcome of a conversion that raises no exception. *)
Definition forward (s : pmd.Structure) (refer_type : bool)
    : option converted :=
  '(maps, pots) ← forward_types s refer_type;
  ss ← mapM (site_for refer_type (_check_independent_residues s) maps)
          (labelled_atoms s);
  ks ← mapM (convert refer_type maps (final_site_map s))
          (ext_connections s);
  Some {| topology :=
            {| gmso.t_name := pmd.title s; gmso.box := box_for s;
               gmso.sites := ss; gmso.connections := ks;
               gmso.combining_rule := pmd.combining_rule s |};
          potentials := pots;
          issued := ext_connections s ≫= ext_warning |}.

End ForwardSpec.

(** ** The residue check, residue by residue *)

(** A residue passes the check when none of its atoms is bonded, or when
    the atoms of the residue are exactly the bond partners of its
    atoms. *)
Definition residue_passes (s : pmd.Structure) (r : pmd.Residue) : Prop :=
  concat (pmd.bond_partners s <$> pmd.atoms r) = [] ∨
  list_to_set (pmd.atom_id <$> pmd.atoms r) =@{gset nat}
    list_to_set (concat (pmd.bond_partners s <$> pmd.atoms r)).

(** The wording of the specification: every residue is an independent,
    connected subgraph of the bond graph. *)
Module Wording.

Definition residue_ids (r : pmd.Residue) : list nat :=
  pmd.atom_id <$> pmd.atoms r.

(** No bond has one end inside a residue and the other outside. *)
Definition no_bond_crosses (s : pmd.Structure) : bool :=
  forallb (λ b,
    forallb (λ r,
      bool_decide (pmd.b_atom1 b ∈ residue_ids r ↔
                   pmd.b_atom2 b ∈ residue_ids r))
      (pmd.residues s))
    (pmd.bonds s).

Definition bonded (s : pmd.Structure) (a b : nat) : bool :=
  existsb (λ bd,
    bool_decide ((pmd.b_atom1 bd = a ∧ pmd.b_atom2 bd = b) ∨
                 (pmd.b_atom1 bd = b ∧ pmd.b_atom2 bd = a)))
    (pmd.bonds s).

(** The atoms among [ids] reached from [seen] along bonds, in at most
    [fuel] rounds. *)
Fixpoint reachable (s : pmd.Structure) (ids : list nat) (fuel : nat)
    (seen : list nat) : list nat :=
  match fuel with
  | 0 => seen
  | S n =>
      reachable s ids n
        (seen ++
         filter (λ b, (b ∉ seen) ∧ (existsb (λ a, bonded s a b) seen = true))
           ids)
  end.

Definition residue_connected (s : pmd.Structure) (r : pmd.Residue)
    : bool :=
  match residue_ids r with
  | [] => true
  | a :: _ =>
      forallb (λ b,
        bool_decide (b ∈ reachable s (residue_ids r)
                           (length (residue_ids r)) [a]))
        (residue_ids r)
  end.

Definition independent_connected (s : pmd.Structure) : bool :=
  no_bond_crosses s && forallb (residue_connected s) (pmd.residues s).

End Wording.

(** ** Well-formed structures *)

Section WellFormed.

Context `{ElementLibrary}.

(** The atoms of the connections are atoms of the structure. *)
Definition atoms_present (s : pmd.Structure) : Prop :=
  ∀ x a, x ∈ ext_connections s → a ∈ ext_atoms x →
    ∃ atom, atom ∈ pmd.structure_atoms s ∧ pmd.atom_id atom = a.

(** The type of a connection, when it is of the expected class, is in
    the table of the structure for that class. *)
Definition registered (s : pmd.Structure) (x : ext_conn) : Prop :=
  match x with
  | EBond b =>
      match pmd.b_type b with
      | pmd.OBondType t =>
          ∃ t', t' ∈ pmd.bond_types s ∧ pmd.bt_id t' = pmd.bt_id t
      | _ => True
      end
  | EAngle a =>
      match pmd.a_type a with
      | pmd.OAngleType t =>
          ∃ t', t' ∈ pmd.angle_types s ∧ pmd.agt_id t' = pmd.agt_id t
      | _ => True
      end
  | EDihedral d =>
      match pmd.d_type d with
      | pmd.ODihedralType t =>
          ∃ t', t' ∈ pmd.dihedral_types s ∧ pmd.dt_id t' = pmd.dt_id t
      | _ => True
      end
  | ERBTorsion d =>
      match pmd.d_type d with
      | pmd.ORBTorsionType t =>
          ∃ t', t' ∈ pmd.rb_torsion_types s ∧ pmd.rb_id t' = pmd.rb_id t
      | _ => True
      end
  | EImproper i =>
      match pmd.i_type i with
      | pmd.OImproperType t =>
          ∃ t', t' ∈ pmd.improper_types s ∧ pmd.it_id t' = pmd.it_id t
      | _ => True
      end
  end.

Definition types_registered (s : pmd.Structure) : Prop :=
  ∀ x, x ∈ ext_connections s → registered s x.

(** The element catalogue knows the atomic numbers of the atoms and,
    when types are transferred, of their atom types. *)
Definition elements_known (s : pmd.Structure) (refer_type : bool) : Prop :=
  (∀ a, a ∈ pmd.structure_atoms s → pmd.element a ≠ 0%Z →
     ∃ e, element_by_atomic_number (pmd.element a) = inr e) ∧
  (refer_type = true →
   ∀ a t, a ∈ pmd.structure_atoms s → pmd.atom_type a = pmd.OAtomType t →
     pmd.at_atomic_number t ≠ 0%Z →
     ∃ e, element_by_atomic_number (pmd.at_atomic_number t) = inr e).

End WellFormed.

(** ** The box, both ways *)

(** The box array of a box whose units are lengths and angles. *)
Definition box_array_of (b : gmso.Box) : option (list Q) :=
  fl ← unit_factor (gmso.lengths b).2 angstrom;
  fa ← unit_factor (gmso.angles b).2 degree;
  Some (((λ x, Qred (x * fl)) <$> (gmso.lengths b).1) ++
        ((λ x, Qred (x * fa)) <$> (gmso.angles b).1)).

(** [a] equals [b] up to the relative tolerance [rtol], entry by
    entry. *)
Definition allclose (rtol : Q) (a b : list Q) : Prop :=
  Forall2 (λ x y, (Qabs (x - y) <= rtol * Qabs y)%Q) a b.

(** The box of the round-trip example: a cube of 2 nm. *)
Definition cube_2nm : gmso.Box :=
  {| gmso.lengths := ([2; 2; 2]%Q, nm);
     gmso.angles := ([90; 90; 90]%Q, degree) |}.

Definition cube_20_angstrom : list Q := [20; 20; 20; 90; 90; 90]%Q.

(** A step of the reverse conversion that does not touch the box of the
    structure. *)
Definition keeps_box {A} (m : R A) : Prop :=
  ∀ st a st', m st = inr (a, st') →
    pmd.box (structure_ st') = pmd.box (structure_ st).

(** A message lists a name when the name occurs in it. *)
Definition lists_name (msg name : string) : bool :=
  match String.index 0 name msg with
  | Some _ => true
  | None => false
  end.

(** ** Decidable well-formedness, to check it on examples *)

Section WellFormedCheck.

Context `{ElementLibrary}.

Definition atoms_presentb (s : pmd.Structure) : bool :=
  forallb (λ x,
    forallb (λ a,
      existsb (λ atom, bool_decide (pmd.atom_id atom = a))
        (pmd.structure_atoms s))
      (ext_atoms x))
    (ext_connections s).

Definition registeredb (s : pmd.Structure) (x : ext_conn) : bool :=
  match x with
  | EBond b =>
      match pmd.b_type b with
      | pmd.OBondType t =>
          existsb (λ t', bool_decide (pmd.bt_id t' = pmd.bt_id t))
            (pmd.bond_types s)
      | _ => true
      end
  | EAngle a =>
      match pmd.a_type a with
      | pmd.OAngleType t =>
          existsb (λ t', bool_decide (pmd.agt_id t' = pmd.agt_id t))
            (pmd.angle_types s)
      | _ => true
      end
  | EDihedral d =>
      match pmd.d_type d with
      | pmd.ODihedralType t =>
          existsb (λ t', bool_decide (pmd.dt_id t' = pmd.dt_id t))
            (pmd.dihedral_types s)
      | _ => true
      end
  | ERBTorsion d =>
      match pmd.d_type d with
      | pmd.ORBTorsionType t =>
          existsb (λ t', bool_decide (pmd.rb_id t' = pmd.rb_id t))
            (pmd.rb_torsion_types s)
      | _ => true
      end
  | EImproper i =>
      match pmd.i_type i with
      | pmd.OImproperType t =>
          existsb (λ t', bool_decide (pmd.it_id t' = pmd.it_id t))
            (pmd.improper_types s)
      | _ => true
      end
  end.

Definition types_registeredb (s : pmd.Structure) : bool :=
  forallb (registeredb s) (ext_connections s).

Definition knownb (n : Z) : bool :=
  bool_decide (n = 0%Z) ||
  match element_by_atomic_number n with inr _ => true | inl _ => false end.

Definition elements_knownb (s : pmd.Structure) : bool :=
  forallb (λ a,
    knownb (pmd.element a) &&
    match pmd.atom_type a with
    | pmd.OAtomType t => knownb (pmd.at_atomic_number t)
    | _ => true
    end)
    (pmd.structure_atoms s).

End WellFormedCheck.

(** ** Examples *)

Module Example.

Definition carbon (i : nat) (name type : string) : pmd.Atom :=
  {| pmd.atom_id := i; pmd.atomic_number := 6; pmd.name := name;
     pmd.type := type; pmd.atom_type := pmd.PyNone; pmd.mass := None;
     pmd.charge_ := None; pmd.xx := 0; pmd.xy := 0; pmd.xz := 0 |}.

Definition periodic : pmd.DihedralType :=
  {| pmd.dt_id := 50; pmd.dt_phi_k := 1; pmd.dt_per := 2;
     pmd.dt_phase := 0 |}.

Definition rb : pmd.RBTorsionType :=
  {| pmd.rb_id := 60; pmd.rb_c0 := 1; pmd.rb_c1 := 1; pmd.rb_c2 := 1;
     pmd.rb_c3 := 1; pmd.rb_c4 := 1; pmd.rb_c5 := 1 |}.

Definition dihedral (a b c d : nat) (improper : bool) (t : pmd.obj)
    : pmd.Dihedral :=
  {| pmd.d_atom1 := a; pmd.d_atom2 := b; pmd.d_atom3 := c;
     pmd.d_atom4 := d; pmd.improper := improper; pmd.d_type := t |}.

Definition bond (a b : nat) (t : pmd.obj) : pmd.Bond :=
  {| pmd.b_atom1 := a; pmd.b_atom2 := b; pmd.b_type := t |}.

(** Two residues of two bonded carbons each; the bonds carry no usable
    type; one periodic dihedral flagged improper and two proper ones
    share a periodic type; one Ryckaert-Bellemans torsion is flagged
    improper. *)
Definition butane : pmd.Structure :=
  {| pmd.title := "butane";
     pmd.box := Some [20; 20; 20; 90; 90; 90]%Q;
     pmd.residues :=
       [ {| pmd.res_name := "A"; pmd.res_number := 1;
            pmd.atoms := [carbon 1 "C1" "CT"; carbon 2 "C2" "CT"] |};
         {| pmd.res_name := "B"; pmd.res_number := 2;
            pmd.atoms := [carbon 3 "C3" "CT"; carbon 4 "C4" "CT"] |} ];
     pmd.bonds := [bond 1 2 pmd.PyNone; bond 3 4 (pmd.OOther 70)];
     pmd.angles := [];
     pmd.dihedrals :=
       [ dihedral 1 2 3 4 true (pmd.ODihedralType periodic);
         dihedral 4 2 3 1 false (pmd.ODihedralType periodic);
         dihedral 1 3 2 4 false (pmd.ODihedralType periodic) ];
     pmd.rb_torsions := [dihedral 1 2 3 4 true (pmd.ORBTorsionType rb)];
     pmd.impropers := [];
     pmd.bond_types := []; pmd.angle_types := [];
     pmd.dihedral_types := [periodic];
     pmd.rb_torsion_types := [rb]; pmd.improper_types := [];
     pmd.combining_rule := "lorentz" |}.

Definition butane_converted : converted :=
  Eval vm_compute in
    match from_parmed (H := sample_library) butane true with
    | inr c => c
    | inl _ =>
        {| topology := gmso.new_topology ""; potentials := [];
           issued := [] |}
    end.

(** The same without a box: one length is zero. *)
Definition flat : pmd.Structure :=
  Build.set_box (Some [20; 20; 0; 90; 90; 90]%Q) butane.

Definition flat_converted : converted :=
  Eval vm_compute in
    match from_parmed (H := sample_library) flat true with
    | inr c => c
    | inl _ =>
        {| topology := gmso.new_topology ""; potentials := [];
           issued := [] |}
    end.

(** One residue of three carbons, two of them bonded: no bond leaves
    the residue, but one atom has no bond partner. *)
Definition loose_atom : pmd.Structure :=
  {| pmd.title := "loose"; pmd.box := None;
     pmd.residues :=
       [ {| pmd.res_name := "A"; pmd.res_number := 1;
            pmd.atoms := [carbon 1 "C1" "CT"; carbon 2 "C2" "CT";
                          carbon 3 "C3" "CT"] |} ];
     pmd.bonds := [bond 1 2 pmd.PyNone];
     pmd.angles := []; pmd.dihedrals := []; pmd.rb_torsions := [];
     pmd.impropers := []; pmd.bond_types := []; pmd.angle_types := [];
     pmd.dihedral_types := []; pmd.rb_torsion_types := [];
     pmd.improper_types := []; pmd.combining_rule := "lorentz" |}.

(** One residue of four carbons bonded in two separate pairs: the
    residue is not connected. *)
Definition two_pairs : pmd.Structure :=
  {| pmd.title := "pairs"; pmd.box := None;
     pmd.residues :=
       [ {| pmd.res_name := "A"; pmd.res_number := 1;
            pmd.atoms := [carbon 1 "C1" "CT"; carbon 2 "C2" "CT";
                          carbon 3 "C3" "CT"; carbon 4 "C4" "CT"] |} ];
     pmd.bonds := [bond 1 2 pmd.PyNone; bond 3 4 pmd.PyNone];
     pmd.angles := []; pmd.dihedrals := []; pmd.rb_torsions := [];
     pmd.impropers := []; pmd.bond_types := []; pmd.angle_types := [];
     pmd.dihedral_types := []; pmd.rb_torsion_types := [];
     pmd.improper_types := []; pmd.combining_rule := "lorentz" |}.

Definition no_conversion : converted :=
  {| topology := gmso.new_topology ""; potentials := []; issued := [] |}.

Definition loose_atom_converted : converted :=
  Eval vm_compute in
    match from_parmed (H := sample_library) loose_atom true with
    | inr c => c
    | inl _ => no_conversion
    end.

Definition two_pairs_converted : converted :=
  Eval vm_compute in
    match from_parmed (H := sample_library) two_pairs true with
    | inr c => c
    | inl _ => no_conversion
    end.

(** A topology that is only a box, and what it converts to. *)
Definition boxed : gmso.Topology :=
  gmso.set_box (Some cube_2nm) (gmso.new_topology "box").

Definition boxed_structure : pmd.Structure :=
  Eval vm_compute in
    match to_parmed (H := structural_matcher) (H0 := sample_library)
            boxed [] true with
    | inr s => s
    | inl _ => pmd.empty
    end.

Definition boxed_converted : converted :=
  Eval vm_compute in
    match from_parmed (H := sample_library) boxed_structure true with
    | inr c => c
    | inl _ =>
        {| topology := gmso.new_topology ""; potentials := [];
           issued := [] |}
    end.

(** A dihedral type with an expression outside the catalogue. *)
Definition odd_dihedral_type : gmso.Potential :=
  {| gmso.p_class := gmso.DihedralType; gmso.p_name := "HC-CT-CT-HC";
     gmso.expression := Mul (Sym "k") (Sym "phi");
     gmso.parameters := [("k", Quantity 1 kcal_mol)];
     gmso.independent_variables := ["phi"];
     gmso.member_types := None;
     gmso.p_charge := None; gmso.p_mass := None; gmso.tags := [] |}.

Definition site (name : string) : gmso.Atom :=
  {| gmso.s_name := name; gmso.charge := None; gmso.mass := None;
     gmso.position := ([0; 0; 0]%Q, nm); gmso.element := None;
     gmso.atom_type := None; gmso.molecule := None;
     gmso.residue := None |}.

(** Four sites and one dihedral, of the odd type (at address 0 of the
    store). *)
Definition odd_topology : gmso.Topology :=
  {| gmso.t_name := "odd"; gmso.box := None;
     gmso.sites := [site "H1"; site "C1"; site "C2"; site "H2"];
     gmso.connections :=
       [ {| gmso.c_class := gmso.Dihedral;
            gmso.connection_members := [0; 1; 2; 3]%nat;
            gmso.connection_type := Some 0%nat |} ];
     gmso.combining_rule := "lorentz" |}.

End Example.

(** ** What the steps of the reverse conversion leave alone *)

(** A step of the reverse conversion each of whose runs relates the
    structure before and the structure after by [rel]. *)
Definition respects {A} (rel : relation pmd.Structure) (m : R A) : Prop :=
  ∀ st a st', m st = inr (a, st') → rel (structure_ st) (structure_ st').

Definition proper (d : pmd.Dihedral) : Prop := pmd.improper d = false.

(** The impropers and their types are left alone and no dihedral
    flagged improper is added. *)
Definition adds_no_improper (s s' : pmd.Structure) : Prop :=
  pmd.impropers s' = pmd.impropers s ∧
  pmd.improper_types s' = pmd.improper_types s ∧
  (Forall proper (pmd.dihedrals s) → Forall proper (pmd.dihedrals s')) ∧
  (Forall proper (pmd.rb_torsions s) → Forall proper (pmd.rb_torsions s')).

Definition untyped_atom (a : pmd.Atom) : Prop :=
  pmd.type a = "" ∧ pmd.atom_type a = pmd.PyNone.

(** The tables of types are left alone and nothing typed is added. *)
Definition adds_no_type (s s' : pmd.Structure) : Prop :=
  pmd.bond_types s' = pmd.bond_types s ∧
  pmd.angle_types s' = pmd.angle_types s ∧
  pmd.dihedral_types s' = pmd.dihedral_types s ∧
  pmd.rb_torsion_types s' = pmd.rb_torsion_types s ∧
  (Forall untyped_atom (pmd.structure_atoms s) →
   Forall untyped_atom (pmd.structure_atoms s')) ∧
  (Forall (λ b, pmd.b_type b = pmd.PyNone) (pmd.bonds s) →
   Forall (λ b, pmd.b_type b = pmd.PyNone) (pmd.bonds s')) ∧
  (Forall (λ a, pmd.a_type a = pmd.PyNone) (pmd.angles s) →
   Forall (λ a, pmd.a_type a = pmd.PyNone) (pmd.angles s')) ∧
  (Forall (λ d, pmd.d_type d = pmd.PyNone) (pmd.dihedrals s) →
   Forall (λ d, pmd.d_type d = pmd.PyNone) (pmd.dihedrals s')) ∧
  (Forall (λ d, pmd.d_type d = pmd.PyNone) (pmd.rb_torsions s) →
   Forall (λ d, pmd.d_type d = pmd.PyNone) (pmd.rb_torsions s')).

(** An atom without its type. *)
Definition atom_core (a : pmd.Atom)
    : nat * Z * string * option Q * option Q * list Q :=
  (pmd.atom_id a, pmd.atomic_number a, pmd.name a, pmd.mass a,
   pmd.charge_ a, [pmd.xx a; pmd.xy a; pmd.xz a]).

Definition bond_ends (b : pmd.Bond) : list nat :=
  [pmd.b_atom1 b; pmd.b_atom2 b].

Definition angle_ends (a : pmd.Angle) : list nat :=
  [pmd.a_atom1 a; pmd.a_atom2 a; pmd.a_atom3 a].

Definition dihedral_ends (d : pmd.Dihedral) : list nat :=
  [pmd.d_atom1 d; pmd.d_atom2 d; pmd.d_atom3 d; pmd.d_atom4 d].

(** The atoms are the same up to their types. *)
Definition same_atoms (s s' : pmd.Structure) : Prop :=
  atom_core <$> pmd.structure_atoms s' = atom_core <$> pmd.structure_atoms s.

(** The connection instances join the same atoms. *)
Definition same_bonds (s s' : pmd.Structure) : Prop :=
  bond_ends <$> pmd.bonds s' = bond_ends <$> pmd.bonds s.

Definition same_angles (s s' : pmd.Structure) : Prop :=
  angle_ends <$> pmd.angles s' = angle_ends <$> pmd.angles s.

Definition same_dihedrals (s s' : pmd.Structure) : Prop :=
  dihedral_ends <$> pmd.dihedrals s' = dihedral_ends <$> pmd.dihedrals s ∧
  dihedral_ends <$> pmd.rb_torsions s'
    = dihedral_ends <$> pmd.rb_torsions s.

(** Title and combining rule are left alone. *)
Definition same_header (s s' : pmd.Structure) : Prop :=
  pmd.title s' = pmd.title s ∧
  pmd.combining_rule s' = pmd.combining_rule s.

(** The tables of types are left alone. *)
Definition same_tables (s s' : pmd.Structure) : Prop :=
  pmd.bond_types s' = pmd.bond_types s ∧
  pmd.angle_types s' = pmd.angle_types s ∧
  pmd.dihedral_types s' = pmd.dihedral_types s ∧
  pmd.rb_torsion_types s' = pmd.rb_torsion_types s.

(** [value if truthy else None] of a quantity as a field of an atom. *)
Definition field_of (q : option quantity) (u : unit_) (field : option Q)
    : Prop :=
  match q with
  | Some q =>
      if quantity_truthy q then
        ∃ f, unit_factor (unit_of q) u = Some f ∧
             field = Some (Qred (value q * f))
      else field = None
  | None => field = None
  end.

(** The atom the reverse conversion makes from a site. *)
Definition atom_made_from (site : gmso.Atom) (atom : pmd.Atom) : Prop :=
  pmd.name atom = gmso.s_name site ∧
  pmd.atomic_number atom =
    match gmso.element site with
    | Some e => gmso.el_atomic_number e
    | None => 0%Z
    end ∧
  field_of (gmso.mass site) amu (pmd.mass atom) ∧
  field_of (gmso.charge site) elementary_charge (pmd.charge_ atom) ∧
  ∃ f, unit_factor (gmso.position site).2 angstrom = Some f ∧
       [pmd.xx atom; pmd.xy atom; pmd.xz atom]
         = (λ x, Qred (x * f)) <$> (gmso.position site).1.

(** The atoms a connection instance joins are, in order, the atoms at
    the positions of the member sites of a connection. *)
Definition joins (s : pmd.Structure) (c : gmso.Connection)
    (ends : list nat) : Prop :=
  Forall2 (λ m e, ∃ a, pmd.structure_atoms s !! m = Some a ∧
                       pmd.atom_id a = e)
    (gmso.connection_members c) ends.

(** Whether a dihedral is filed under the Ryckaert-Bellemans
    torsions. *)
Definition files_as_rb `{ExprMatcher} (potentials : list gmso.Potential)
    (c : nat * gmso.Connection) : bool :=
  match gmso.connection_type c.2 with
  | Some a =>
      match potentials !! a with
      | Some t => expr_match (gmso.expression t) Forms.ryckaert_bellemans
      | None => false
      end
  | None => false
  end.

(** ** More structures and topologies to run the converters on *)

Module Cases.

Definition opls_135 : pmd.AtomType :=
  {| pmd.at_id := 90; pmd.at_name := "opls_135"; pmd.at_mass := 12011 # 1000;
     pmd.at_atomic_number := 6; pmd.at_charge := -18 # 100;
     pmd.at_epsilon := 66 # 1000; pmd.at_rmin := 2 |}.

Definition opls_140 : pmd.AtomType :=
  {| pmd.at_id := 91; pmd.at_name := "opls_140"; pmd.at_mass := 1008 # 1000;
     pmd.at_atomic_number := 1; pmd.at_charge := 6 # 100;
     pmd.at_epsilon := 30 # 1000; pmd.at_rmin := 1 |}.

Definition typed (i : nat) (z : Z) (name : string) (t : pmd.AtomType)
    : pmd.Atom :=
  {| pmd.atom_id := i; pmd.atomic_number := z; pmd.name := name;
     pmd.type := pmd.at_name t; pmd.atom_type := pmd.OAtomType t;
     pmd.mass := None; pmd.charge_ := None;
     pmd.xx := inject_Z (Z.of_nat i); pmd.xy := 0; pmd.xz := 0 |}.

Definition stiff : pmd.BondType :=
  {| pmd.bt_id := 80; pmd.bt_k := 340; pmd.bt_req := 109 # 100 |}.

(** Two carbons of one atom type and a hydrogen of another; the bond
    between the carbons has a type that is in the table of bond types,
    the other bond a type that is not. *)
Definition ethyl : pmd.Structure :=
  {| pmd.title := "ethyl"; pmd.box := None;
     pmd.residues :=
       [ {| pmd.res_name := "ETH"; pmd.res_number := 1;
            pmd.atoms := [typed 1 6 "C1" opls_135; typed 2 6 "C2" opls_135;
                          typed 3 1 "H1" opls_140] |} ];
     pmd.bonds := [Example.bond 1 2 (pmd.OBondType stiff);
                   Example.bond 2 3 pmd.PyNone];
     pmd.angles := []; pmd.dihedrals := []; pmd.rb_torsions := [];
     pmd.impropers := []; pmd.bond_types := [stiff]; pmd.angle_types := [];
     pmd.dihedral_types := []; pmd.rb_torsion_types := [];
     pmd.improper_types := []; pmd.combining_rule := "lorentz" |}.

Definition ethyl_converted : converted :=
  Eval vm_compute in
    match from_parmed (H := sample_library) ethyl true with
    | inr c => c
    | inl _ => Example.no_conversion
    end.

Definition ethyl_untyped : converted :=
  Eval vm_compute in
    match from_parmed (H := sample_library) ethyl false with
    | inr c => c
    | inl _ => Example.no_conversion
    end.

(** The same with an empty table of bond types. *)
Definition unregistered : pmd.Structure :=
  Build.on_bond_types (λ _, []) ethyl.

(** The same with a bond to an atom that is in no residue. *)
Definition dangling : pmd.Structure :=
  Build.on_bonds (λ l, l ++ [Example.bond 3 9 pmd.PyNone]) ethyl.

(** The same without bonds. *)
Definition unbonded : pmd.Structure := Build.on_bonds (λ _, []) ethyl.

(** The structures the topologies made from [butane] and [ethyl]
    convert back to, without type transfer. *)
Definition butane_back : pmd.Structure :=
  Eval vm_compute in
    match to_parmed (H := structural_matcher) (H0 := sample_library)
            (topology Example.butane_converted)
            (potentials Example.butane_converted) false with
    | inr s => s
    | inl _ => pmd.empty
    end.

Definition ethyl_back : pmd.Structure :=
  Eval vm_compute in
    match to_parmed (H := structural_matcher) (H0 := sample_library)
            (topology ethyl_converted) (potentials ethyl_converted)
            false with
    | inr s => s
    | inl _ => pmd.empty
    end.

Definition wide : pmd.AngleType :=
  {| pmd.agt_id := 81; pmd.agt_k := 50; pmd.agt_theteq := 109 |}.

(** Three carbons without atom types in a chain: two bonds of one bond
    type and one angle with an angle type. *)
Definition bent : pmd.Structure :=
  {| pmd.title := "bent"; pmd.box := None;
     pmd.residues :=
       [ {| pmd.res_name := "BNT"; pmd.res_number := 1;
            pmd.atoms := [Example.carbon 1 "C1" "CT";
                          Example.carbon 2 "C2" "CT";
                          Example.carbon 3 "C3" "CT"] |} ];
     pmd.bonds := [Example.bond 1 2 (pmd.OBondType stiff);
                   Example.bond 2 3 (pmd.OBondType stiff)];
     pmd.angles :=
       [ {| pmd.a_atom1 := 1; pmd.a_atom2 := 2; pmd.a_atom3 := 3;
            pmd.a_type := pmd.OAngleType wide |} ];
     pmd.dihedrals := []; pmd.rb_torsions := []; pmd.impropers := [];
     pmd.bond_types := [stiff]; pmd.angle_types := [wide];
     pmd.dihedral_types := []; pmd.rb_torsion_types := [];
     pmd.improper_types := []; pmd.combining_rule := "geometric" |}.

Definition bent_converted : converted :=
  Eval vm_compute in
    match from_parmed (H := sample_library) bent true with
    | inr c => c
    | inl _ => Example.no_conversion
    end.

(** The state of the reverse conversion of [bent_converted] before the
    types are emitted, and after the bond types and after the angle
    types were. *)
Definition bent_untyped : rstate :=
  Eval vm_compute in
    match to_parmed_steps (H := structural_matcher) (H0 := sample_library)
            (topology bent_converted) (potentials bent_converted) false
            {| structure_ := pmd.empty; next_id := 1 |} with
    | inr (_, st) => st
    | inl _ => {| structure_ := pmd.empty; next_id := 1 |}
    end.

Definition bent_bond_map : gmap nat nat := {[ 0%nat := 0%nat; 1%nat := 1%nat ]}.

Definition bent_angle_map : gmap nat nat := {[ 2%nat := 0%nat ]}.

Definition bent_bonds_typed : rstate :=
  Eval vm_compute in
    match _bond_types_from_gmso (H := structural_matcher)
            (potentials bent_converted) (topology bent_converted)
            bent_bond_map bent_untyped with
    | inr (_, st) => st
    | inl _ => bent_untyped
    end.

Definition bent_angles_typed : rstate :=
  Eval vm_compute in
    match _angle_types_from_gmso (H := structural_matcher)
            (potentials bent_converted) (topology bent_converted)
            bent_angle_map bent_untyped with
    | inr (_, st) => st
    | inl _ => bent_untyped
    end.

(** A topology of three sites whose atoms, bonds and angle all refer to
    the potential at address 0 of the store: a potential with an
    expression outside the catalogue. *)
Definition odd_site (name : string) : gmso.Atom :=
  {| gmso.s_name := name; gmso.charge := None; gmso.mass := None;
     gmso.position := ([0; 0; 0]%Q, nm); gmso.element := None;
     gmso.atom_type := Some 0%nat; gmso.molecule := None;
     gmso.residue := None |}.

Definition odd_types : gmso.Topology :=
  {| gmso.t_name := "odd"; gmso.box := None;
     gmso.sites := [odd_site "C1"; odd_site "C2"; odd_site "C3"];
     gmso.connections :=
       [ {| gmso.c_class := gmso.Bond;
            gmso.connection_members := [0; 1]%nat;
            gmso.connection_type := Some 0%nat |};
         {| gmso.c_class := gmso.Angle;
            gmso.connection_members := [0; 1; 2]%nat;
            gmso.connection_type := Some 0%nat |} ];
     gmso.combining_rule := "lorentz" |}.

Definition start : rstate := {| structure_ := pmd.empty; next_id := 1 |}.

End Cases.

(** * Positions in the Gromos87 writer

    A shallow embedding of [_validate_positions] of
    [gmso/formats/gro.py].  The array of positions is the list of its
    rows; the state of the computation is the list of the warnings
    issued.  The function updates the array it is given and returns it;
    the model returns the updated array. *)

Module gro.

Local Open Scope Q_scope.

(** [x < y] on numbers. *)
Definition Qltb (x y : Q) : bool := negb (Qle_bool y x).

Definition minimum (x y : Q) : Q := if Qle_bool x y then x else y.

(** [np.min(a)] on the entries of an array: an array without entries
    has no minimum. *)
Definition np_min {S} (a : list Q) : M S Q :=
  match a with
  | [] => raise ValueError
  | x :: l => ret (foldl minimum x l)
  end.

(** The entries of a column, from top to bottom. *)
Definition column (i : nat) (a : list (list Q)) : list Q :=
  omap (λ row, row !! i) a.

(** [np.min(a, axis=0)]: the minimum of every column. *)
Definition np_min_axis0 {S} (a : list (list Q)) : M S (list Q) :=
  match a with
  | [] => raise ValueError
  | row :: rest => ret (imap (λ i x, foldl minimum x (column i rest)) row)
  end.

(** The entry [x] of column [i] after the columns with a negative
    minimum were translated. *)
Definition shifted (min_xyz : list Q) (i : nat) (x : Q) : Q :=
  match min_xyz !! i with
  | Some m => if Qltb m 0 then x - m else x
  | None => x
  end.

Definition negative_positions : string :=
  "Topology contains some negative positions. Translating in order to ensure all coordinates are non-negative.".

Definition _validate_positions (pos_array : list (list Q))
    : M (list string) (list (list Q)) :=
  m <- np_min (concat pos_array) ;;
  (if Qltb m 0 then modify (λ issued, issued ++ [negative_positions])
   else ret tt) ;;;
  min_xyz <- np_min_axis0 pos_array ;;
  foldM (λ (pos_array : list (list Q)) (im : nat * Q),
    if Qltb im.2 0 then
      ret ((λ loc, alter (λ x, x - im.2) im.1 loc) <$> pos_array)
    else ret pos_array)
    pos_array (enumerate min_xyz).

(** Three positions, two of them with a negative coordinate. *)
Definition sample : list (list Q) :=
  [[1; -2; 3]; [-1; 0; 5]; [4; 1; 2]].

End gro.

(** * Properties *)

(** ** Running computations *)

Section MonadFacts.

Context {S : Type}.

Lemma bind_inr {A B} (m : M S A) (k : A → M S B) st r :
  bind m k st = inr r ↔ ∃ a st', m st = inr (a, st') ∧ k a st' = inr r.
Proof.
  unfold bind. destruct (m st) as [e|[a st']]; split.
  - done.
  - by intros (? & ? & ? & ?).
  - eauto.
  - by intros (? & ? & [= <- <-] & ?).
Qed.

Lemma bind_run {A B} (m : M S A) (k : A → M S B) st a st' :
  m st = inr (a, st') → bind m k st = k a st'.
Proof. unfold bind. by intros ->. Qed.

Lemma bind_fail {A B} (m : M S A) (k : A → M S B) st e :
  m st = inl e → bind m k st = inl e.
Proof. unfold bind. by intros ->. Qed.

(** A loop invariant for [foldM]: it holds of the prefix walked so
    far, the carried value and the state. *)
Lemma foldM_invariant {A B} (body : B → A → M S B)
    (I : list A → B → S → Prop) xs b st b' st' :
  foldM body b xs st = inr (b', st') →
  I [] b st →
  (∀ pre x b1 st1 b2 st2,
     I pre b1 st1 → body b1 x st1 = inr (b2, st2) → I (pre ++ [x]) b2 st2) →
  I xs b' st'.
Proof.
  intros Hrun Hinit Hstep.
  assert (∀ pre, I pre b st → I (pre ++ xs) b' st') as Hgen.
  { clear Hinit. revert b st Hrun.
    induction xs as [|x xs IH]; intros b st Hrun pre Hpre; simpl in Hrun.
    - injection Hrun as <- <-. by rewrite app_nil_r.
    - apply bind_inr in Hrun as (b2 & st2 & Hx & Hrest).
      rewrite cons_middle, app_assoc.
      eapply IH; eauto. }
  by apply (Hgen []).
Qed.

(** The same for a loop whose turns cannot fail: the loop completes. *)
Lemma foldM_total {A B} (body : B → A → M S B)
    (I : list A → B → S → Prop) xs b st :
  I [] b st →
  (∀ pre x b1 st1, I pre b1 st1 →
     ∃ b2 st2, body b1 x st1 = inr (b2, st2) ∧ I (pre ++ [x]) b2 st2) →
  ∃ b' st', foldM body b xs st = inr (b', st') ∧ I xs b' st'.
Proof.
  intros Hinit Hstep.
  assert (∀ pre b st, I pre b st →
            ∃ b' st', foldM body b xs st = inr (b', st') ∧
                      I (pre ++ xs) b' st') as Hgen.
  { clear Hinit b st.
    induction xs as [|x xs IH]; intros pre b st Hpre; simpl.
    - exists b, st. by rewrite app_nil_r.
    - destruct (Hstep _ x _ _ Hpre) as (b2 & st2 & Hx & Hpre2).
      destruct (IH _ _ _ Hpre2) as (b' & st' & Hrun & Hfin).
      exists b', st'. rewrite (bind_run _ _ _ _ _ Hx). split; [done|].
      by rewrite cons_middle, app_assoc. }
  by apply (Hgen []).
Qed.

Lemma forM_invariant {A} (body : A → M S unit) (I : list A → S → Prop)
    xs st st' :
  forM_ body xs st = inr (tt, st') →
  I [] st →
  (∀ pre x st1 st2,
     I pre st1 → body x st1 = inr (tt, st2) → I (pre ++ [x]) st2) →
  I xs st'.
Proof.
  intros Hrun Hinit Hstep.
  assert (∀ pre, I pre st → I (pre ++ xs) st') as Hgen.
  { clear Hinit. revert st Hrun.
    induction xs as [|x xs IH]; intros st Hrun pre Hpre; simpl in Hrun.
    - injection Hrun as <-. by rewrite app_nil_r.
    - apply bind_inr in Hrun as ([] & st2 & Hx & Hrest).
      rewrite cons_middle, app_assoc.
      eapply IH; eauto. }
  by apply (Hgen []).
Qed.

End MonadFacts.

(** ** The member-types dictionary *)

Section TypesMap.

Variables (structure : pmd.Structure) (impropers : bool).

Local Abbreviation step := (types_map_step structure impropers).
Local Abbreviation key_of m :=
  (_get_member_types_map_for structure m impropers).1.
Local Abbreviation members_of_ m :=
  (_get_member_types_map_for structure m impropers).2.

Lemma types_map_step_recorded (m : gmap mkey pyval) member_ :
  m !! key_of member_ = None → py_all (members_of_ member_) = true →
  step m member_ = <[key_of member_ := VMembers (members_of_ member_)]> m.
Proof.
  intros Hfree Hall. unfold types_map_step.
  destruct (_get_member_types_map_for structure member_ impropers)
    as [k mt]; simpl in *.
  by rewrite bool_decide_eq_true_2, Hall.
Qed.

Lemma types_map_step_dropped (m : gmap mkey pyval) member_ :
  ¬ (m !! key_of member_ = None ∧ py_all (members_of_ member_) = true) →
  step m member_ = m.
Proof.
  intros Hno. unfold types_map_step.
  destruct (_get_member_types_map_for structure member_ impropers)
    as [k mt]; simpl in *.
  destruct (bool_decide (m !! k = None)) eqn:Hk; [|done].
  apply bool_decide_eq_true in Hk.
  destruct (py_all mt) eqn:Hall; [|done]. by destruct Hno.
Qed.

(** An entry, once in the dictionary, is never written again. *)
Lemma types_map_step_keeps (m : gmap mkey pyval) member_ k v :
  m !! k = Some v → step m member_ !! k = Some v.
Proof.
  intros Hk.
  destruct (decide (m !! key_of member_ = None ∧
                    py_all (members_of_ member_) = true)) as [[Hfree Hall]|Hno].
  - rewrite types_map_step_recorded by done.
    rewrite lookup_insert_ne; [done|]. intros <-. congruence.
  - by rewrite types_map_step_dropped.
Qed.

Lemma types_map_keeps ms (m : gmap mkey pyval) k v :
  m !! k = Some v → foldl step m ms !! k = Some v.
Proof.
  revert m. induction ms as [|x ms IH]; intros m Hk; simpl; [done|].
  apply IH. by apply types_map_step_keeps.
Qed.

End TypesMap.

Lemma label_truthy_spec l : label_truthy l = true ↔ ∃ s, l = Some s ∧ s ≠ "".
Proof.
  destruct l as [s|]; simpl.
  - rewrite negb_true_iff, bool_decide_eq_false. split.
    + intros Hs. by exists s.
    + by intros (? & [= <-] & ?).
  - split; [done|]. by intros (? & ? & ?).
Qed.

Lemma py_all_tuple items :
  py_all (MTuple items) = true ↔
  Forall (λ l, ∃ s, l = Some s ∧ s ≠ "") items.
Proof.
  simpl. induction items as [|l items IH]; simpl.
  - split; [by constructor|done].
  - rewrite andb_true_iff, Forall_cons, IH, label_truthy_spec. done.
Qed.

(** C7.  The member-types map builder turns over the instances in order.
    The instance at position [i] is recorded exactly when its identity
    key is not yet in the dictionary and [all(member_types)] holds: then
    the dictionary gains the entry, otherwise it is left as it was (an
    instance with an unresolved slot is dropped without a trace).  An
    entry present after any turn is still there, unchanged, in the
    dictionary returned, so a later instance with the same key never
    replaces it.  On a tuple, [all] says that every slot holds a
    non-empty label. *)
Theorem get_types_map_first_wins structure attr impropers members i member_ :
  members_of structure attr = Some members →
  members !! i = Some member_ →
  let key := (_get_member_types_map_for structure member_ impropers).1 in
  let member_types :=
    (_get_member_types_map_for structure member_ impropers).2 in
  let before :=
    foldl (types_map_step structure impropers) ∅ (take i members) in
  let after :=
    foldl (types_map_step structure impropers) ∅ (take (S i) members) in
  ∃ final,
    _get_types_map structure attr impropers tt = inr (final, tt) ∧
    (before !! key = None ∧ py_all member_types = true →
       after = <[key := VMembers member_types]> before ∧ after ≠ before) ∧
    (¬ (before !! key = None ∧ py_all member_types = true) →
       after = before) ∧
    (∀ k v, after !! k = Some v → final !! k = Some v) ∧
    (∀ items, member_types = MTuple items →
       (py_all member_types = true ↔
        Forall (λ l, ∃ s, l = Some s ∧ s ≠ "") items)).
Proof.
  intros Hmembers Hi key member_types before after.
  exists (foldl (types_map_step structure impropers) ∅ members).
  assert (after = types_map_step structure impropers before member_) as Hafter.
  { unfold after, before. rewrite (take_S_r _ _ _ Hi). by rewrite foldl_app. }
  split; [|split; [|split; [|split]]].
  - unfold _get_types_map. by rewrite Hmembers.
  - intros [Hfree Hall]. rewrite Hafter.
    rewrite types_map_step_recorded by done. split; [done|].
    intros Heq. apply (f_equal (λ m : gmap mkey pyval, m !! key)) in Heq.
    simpl in Heq. unfold key in Heq at 1. rewrite lookup_insert_eq in Heq.
    congruence.
  - intros Hno. rewrite Hafter. by apply types_map_step_dropped.
  - intros k v Hk.
    rewrite <- (take_drop (S i) members) at 1. rewrite foldl_app.
    by apply types_map_keeps.
  - intros items ->. apply py_all_tuple.
Qed.

(** ** Lists *)

Lemma mapM_app {A B} (f : A → option B) l1 l2 :
  mapM f (l1 ++ l2) = k1 ← mapM f l1; k2 ← mapM f l2; mret (k1 ++ k2).
Proof.
  induction l1 as [|x l1 IH]; simpl.
  - by destruct (mapM f l2).
  - destruct (f x); simpl; [|done]. rewrite IH.
    destruct (mapM f l1); simpl; [|done]. by destruct (mapM f l2).
Qed.

Lemma mapM_fmap {A B C} (f : B → option C) (g : A → B) l :
  mapM f (g <$> l) = mapM (λ x, f (g x)) l.
Proof.
  induction l as [|x l IH]; [done|].
  rewrite fmap_cons. cbn [mapM]. by rewrite IH.
Qed.

Section IndexBy.

Context {K A : Type} `{Countable K} (key : A → K).

Lemma index_by_app base l1 l2 (m : gmap K nat) :
  index_by key base (l1 ++ l2) m =
  index_by key (base + length l1) l2 (index_by key base l1 m).
Proof.
  revert base m. induction l1 as [|a l1 IH]; intros base m; simpl.
  - by rewrite Nat.add_0_r.
  - rewrite IH. by rewrite Nat.add_succ_r.
Qed.

(** An entry of the dictionary is either an old one whose key no item
    has, or the address of an item with that key. *)
Lemma index_by_lookup base l (m : gmap K nat) k i :
  index_by key base l m !! k = Some i →
  (m !! k = Some i ∧ ∀ x, x ∈ l → key x ≠ k) ∨
  (∃ x, l !! (i - base) = Some x ∧ key x = k ∧ (base ≤ i)%nat).
Proof.
  revert base m. induction l as [|a l IH]; intros base m Hi; simpl in Hi.
  - left. split; [done|]. by intros x ?%elem_of_nil.
  - destruct (IH _ _ Hi) as [[Hm Hno]|(x & Hx & Hk & Hle)].
    + destruct (decide (key a = k)) as [<-|Hne].
      * rewrite lookup_insert_eq in Hm. injection Hm as <-.
        right. exists a. by rewrite Nat.sub_diag.
      * rewrite lookup_insert_ne in Hm by done. left. split; [done|].
        intros x [->|Hx]%elem_of_cons; [done|]. by apply Hno.
    + right. exists x. split; [|split; [done|lia]].
      by replace (i - base) with (S (i - S base)) by lia.
Qed.

Lemma index_by_is_Some base l (m : gmap K nat) k :
  is_Some (index_by key base l m !! k) ↔
  is_Some (m !! k) ∨ ∃ x, x ∈ l ∧ key x = k.
Proof.
  revert base m. induction l as [|a l IH]; intros base m; simpl.
  - split; [by left|]. intros [?|(x & ?%elem_of_nil & _)]; done.
  - rewrite IH. destruct (decide (key a = k)) as [<-|Hne].
    + rewrite lookup_insert_eq. split.
      * intros _. right. exists a. split; [by left|done].
      * intros _. left. by eexists.
    + rewrite lookup_insert_ne by done. split.
      * intros [?|(x & Hx & Hk)]; [by left|].
        right. exists x. split; [by right|done].
      * intros [?|(x & [->|Hx]%elem_of_cons & Hk)]; [by left|done|].
        right. by exists x.
Qed.

(** Addresses stay below the end of the store. *)
Lemma index_by_bound base l (m : gmap K nat) :
  (∀ k i, m !! k = Some i → (i < base)%nat) →
  ∀ k i, index_by key base l m !! k = Some i → (i < base + length l)%nat.
Proof.
  intros Hm k i Hi.
  destruct (index_by_lookup _ _ _ _ _ Hi) as [[Hk _]|(x & Hx & _ & _)].
  - apply Hm in Hk. lia.
  - apply lookup_lt_Some in Hx. lia.
Qed.

(** No two keys share an address. *)
Lemma index_by_inj base l (m : gmap K nat) :
  (∀ k i, m !! k = Some i → (i < base)%nat) →
  (∀ k1 k2 i, m !! k1 = Some i → m !! k2 = Some i → k1 = k2) →
  ∀ k1 k2 i,
    index_by key base l m !! k1 = Some i →
    index_by key base l m !! k2 = Some i → k1 = k2.
Proof.
  intros Hm Hinj k1 k2 i H1 H2.
  destruct (index_by_lookup _ _ _ _ _ H1) as [[Hk1 _]|(x1 & Hx1 & <- & ?)];
    destruct (index_by_lookup _ _ _ _ _ H2)
      as [[Hk2 _]|(x2 & Hx2 & <- & ?)].
  - by eapply Hinj.
  - apply Hm in Hk1. lia.
  - apply Hm in Hk2. lia.
  - congruence.
Qed.

(** The key of an item of the list is in the dictionary, with the
    address of an item that has this key. *)
Lemma index_by_elem base l (m : gmap K nat) x :
  x ∈ l →
  ∃ i x', index_by key base l m !! key x = Some i ∧ (base ≤ i)%nat ∧
          l !! (i - base) = Some x' ∧ key x' = key x.
Proof.
  intros Hx.
  destruct (proj2 (index_by_is_Some base l m (key x))) as [i Hi].
  { right. by exists x. }
  destruct (index_by_lookup _ _ _ _ _ Hi) as [[_ Hno]|(x' & Hx' & Hk & ?)].
  - by destruct (Hno x Hx).
  - by exists i, x'.
Qed.

End IndexBy.

Lemma index_atoms_app base l1 l2 m :
  index_atoms base (l1 ++ l2) m =
  index_atoms (base + length l1) l2 (index_atoms base l1 m).
Proof. apply index_by_app. Qed.

(** ** The forward converter, loop by loop *)

Section ForwardLoops.

Context `{ElementLibrary}.

Lemma record_nil st : record [] [] st = st.
Proof.
  destruct st as [h [] sm ws]. unfold record; simpl.
  by rewrite !app_nil_r.
Qed.

Lemma record_record ks1 ws1 ks2 ws2 st :
  record ks2 ws2 (record ks1 ws1 st) = record (ks1 ++ ks2) (ws1 ++ ws2) st.
Proof. unfold record; simpl. by rewrite !app_assoc. Qed.

Ltac run :=
  repeat first
    [ progress simpl
    | progress unfold bind, ret, raise, get, modify, dict_get, site_of,
        add_connection, warn, lift, ext_type_map in * ].

Variables (refer_type : bool) (maps : type_maps).

(** What one turn of a connection loop does to the state. *)
Definition turn_spec (body : F unit) (c : ext_conn) : Prop :=
  ∀ st,
    match convert refer_type maps (site_map st) c with
    | Some k => body st = inr (tt, record [k] (ext_warning c) st)
    | None => ∃ e, body st = inl e
    end.

Ltac same_state :=
  unfold record, on_top, gmso.add_connection, new_connection,
    gmso.set_connection_type; simpl; rewrite ?app_nil_r; reflexivity.

Ltac lookup_site st a :=
  destruct (site_map st !! a); simpl; [|by eauto].

Ltac lookup_type :=
  match goal with
  | |- context [match ?o with pmd.PyNone => _ | _ => _ end] =>
      destruct o; simpl; try same_state
  end;
  destruct refer_type; simpl; [|same_state];
  match goal with
  | |- context [?m !! ?k] =>
      destruct (m !! k); simpl; [same_state|by eauto]
  end.

Lemma bond_body_spec bond :
  turn_spec (bond_body refer_type (pmd_top_bondtypes maps) bond)
    (EBond bond).
Proof.
  intros st. unfold convert, convert_type, bond_body. run.
  lookup_site st (pmd.b_atom1 bond). lookup_site st (pmd.b_atom2 bond).
  lookup_type.
Qed.

Lemma angle_body_spec angle :
  turn_spec (angle_body refer_type (pmd_top_angletypes maps) angle)
    (EAngle angle).
Proof.
  intros st. unfold convert, convert_type, angle_body. run.
  lookup_site st (pmd.a_atom1 angle). lookup_site st (pmd.a_atom2 angle).
  lookup_site st (pmd.a_atom3 angle).
  lookup_type.
Qed.

Lemma dihedral_body_spec dihedral :
  turn_spec
    (dihedral_body refer_type (pmd_top_dihedraltypes maps)
       (pmd_top_impropertypes maps) dihedral)
    (EDihedral dihedral).
Proof.
  intros st. unfold convert, convert_type, dihedral_body. run.
  destruct (pmd.improper dihedral); simpl.
  - lookup_site st (pmd.d_atom1 dihedral).
    lookup_site st (pmd.d_atom2 dihedral).
    lookup_site st (pmd.d_atom3 dihedral).
    lookup_site st (pmd.d_atom4 dihedral).
    lookup_type.
  - lookup_site st (pmd.d_atom1 dihedral).
    lookup_site st (pmd.d_atom2 dihedral).
    lookup_site st (pmd.d_atom3 dihedral).
    lookup_site st (pmd.d_atom4 dihedral).
    lookup_type.
Qed.

Lemma rb_torsion_body_spec rb_torsion :
  turn_spec
    (rb_torsion_body refer_type (pmd_top_dihedraltypes maps) rb_torsion)
    (ERBTorsion rb_torsion).
Proof.
  intros st. unfold convert, convert_type, rb_torsion_body. run.
  destruct (pmd.improper rb_torsion); simpl.
  - lookup_site st (pmd.d_atom1 rb_torsion).
    lookup_site st (pmd.d_atom2 rb_torsion).
    lookup_site st (pmd.d_atom3 rb_torsion).
    lookup_site st (pmd.d_atom4 rb_torsion).
    lookup_type.
  - lookup_site st (pmd.d_atom1 rb_torsion).
    lookup_site st (pmd.d_atom2 rb_torsion).
    lookup_site st (pmd.d_atom3 rb_torsion).
    lookup_site st (pmd.d_atom4 rb_torsion).
    lookup_type.
Qed.

Lemma improper_body_spec improper :
  turn_spec
    (improper_body refer_type (pmd_top_impropertypes maps) improper)
    (EImproper improper).
Proof.
  intros st. unfold convert, convert_type, improper_body. run.
  lookup_site st (pmd.i_atom1 improper).
  lookup_site st (pmd.i_atom2 improper).
  lookup_site st (pmd.i_atom3 improper).
  lookup_site st (pmd.i_atom4 improper).
  lookup_type.
Qed.

(** A connection loop adds the connections of its instances in order,
    or fails. *)
Lemma forM_turns {A} (body : A → F unit) (embed : A → ext_conn) :
  (∀ x, turn_spec (body x) (embed x)) →
  ∀ xs st,
    match mapM (λ x, convert refer_type maps (site_map st) (embed x)) xs
    with
    | Some ks =>
        forM_ body xs st =
        inr (tt, record ks (xs ≫= λ x, ext_warning (embed x)) st)
    | None => ∃ e, forM_ body xs st = inl e
    end.
Proof.
  intros Hbody xs. induction xs as [|x xs IH]; intros st.
  - simpl. by rewrite record_nil.
  - specialize (Hbody x st). cbn [mapM forM_].
    destruct (convert refer_type maps (site_map st) (embed x)) as [k|].
    + rewrite (bind_run _ _ _ _ _ Hbody).
      specialize (IH (record [k] (ext_warning (embed x)) st)).
      change (site_map (record [k] (ext_warning (embed x)) st))
        with (site_map st) in IH.
      destruct (mapM _ xs) as [ks|]; simpl.
      * by rewrite IH, record_record.
      * done.
    + destruct Hbody as [e He]. exists e. by apply bind_fail.
Qed.

(** *** The loop over residues and atoms *)

Variable ind_res : bool.

Lemma place_nil st : place [] [] st = st.
Proof.
  destruct st as [h [] sm ws]. unfold place; simpl. by rewrite app_nil_r.
Qed.

Lemma place_place ss1 l1 ss2 l2 st :
  length ss1 = length l1 →
  place ss2 l2 (place ss1 l1 st) = place (ss1 ++ ss2) (l1 ++ l2) st.
Proof.
  intros Hlen. unfold place; simpl.
  by rewrite app_assoc, index_atoms_app, length_app, Hlen.
Qed.

Lemma atom_body_spec residue atom st :
  match site_for refer_type ind_res maps (residue, atom) with
  | Some site =>
      atom_body refer_type ind_res (pmd_top_atomtypes maps) residue atom st
      = inr (tt, place [site] [atom] st)
  | None =>
      ∃ e, atom_body refer_type ind_res (pmd_top_atomtypes maps) residue
             atom st = inl e
  end.
Proof.
  unfold site_for, atom_body. run.
  destruct (Qtruthy (inject_Z (pmd.element atom))); simpl.
  - destruct (element_by_atomic_number (pmd.element atom)); simpl;
      [by eauto|].
    destruct (pmd.atom_type atom); simpl; try done.
    destruct refer_type; simpl; [|done].
    destruct (pmd_top_atomtypes maps !! _); simpl; [done|by eauto].
  - destruct (pmd.atom_type atom); simpl; try done.
    destruct refer_type; simpl; [|done].
    destruct (pmd_top_atomtypes maps !! _); simpl; [done|by eauto].
Qed.

Lemma atoms_loop_spec residue atoms st :
  match mapM (λ a, site_for refer_type ind_res maps (residue, a)) atoms with
  | Some ss =>
      forM_ (atom_body refer_type ind_res (pmd_top_atomtypes maps) residue)
        atoms st = inr (tt, place ss atoms st)
  | None =>
      ∃ e, forM_ (atom_body refer_type ind_res (pmd_top_atomtypes maps)
                    residue) atoms st = inl e
  end.
Proof.
  revert st. induction atoms as [|a atoms IH]; intros st.
  - simpl. by rewrite place_nil.
  - cbn [mapM forM_]. pose proof (atom_body_spec residue a st) as Ha.
    destruct (site_for refer_type ind_res maps (residue, a)) as [site|].
    + rewrite (bind_run _ _ _ _ _ Ha).
      specialize (IH (place [site] [a] st)).
      destruct (mapM _ atoms) as [ss|]; simpl.
      * by rewrite IH, place_place.
      * done.
    + destruct Ha as [e He]. exists e. by apply bind_fail.
Qed.

Lemma residues_loop_spec (rs : list (nat * pmd.Residue)) st :
  match mapM (site_for refer_type ind_res maps)
          (r ← rs; (λ a, (r, a)) <$> pmd.atoms r.2) with
  | Some ss =>
      forM_ (λ residue,
               forM_ (atom_body refer_type ind_res (pmd_top_atomtypes maps)
                        residue) (pmd.atoms residue.2)) rs st
      = inr (tt, place ss (r ← rs; pmd.atoms r.2) st)
  | None =>
      ∃ e, forM_ (λ residue,
               forM_ (atom_body refer_type ind_res (pmd_top_atomtypes maps)
                        residue) (pmd.atoms residue.2)) rs st = inl e
  end.
Proof.
  revert st. induction rs as [|r rs IH]; intros st.
  - simpl. by rewrite place_nil.
  - cbn [forM_ mbind list_bind]. rewrite mapM_app, mapM_fmap.
    pose proof (atoms_loop_spec r (pmd.atoms r.2) st) as Hr.
    destruct (mapM _ (pmd.atoms r.2)) as [ss1|] eqn:Hss1; simpl.
    + rewrite (bind_run _ _ _ _ _ Hr).
      specialize (IH (place ss1 (pmd.atoms r.2) st)).
      destruct (mapM _ _) as [ss2|]; simpl.
      * rewrite IH, place_place; [done|].
        symmetry. eapply Forall2_length, mapM_Some_1, Hss1.
      * done.
    + destruct Hr as [e He]. exists e. by apply bind_fail.
Qed.

End ForwardLoops.

(** ** The type dictionaries *)

Lemma mapM_total {A B} (f : A → B) l : mapM (λ x, Some (f x)) l = Some (f <$> l).
Proof. induction l as [|x l IH]; [done|]. cbn [mapM]. by rewrite IH. Qed.

Section TypeMaps.

Context `{ElementLibrary}.

Lemma grown_nil st : grown [] st = st.
Proof. destruct st. unfold grown, on_heap; simpl. by rewrite app_nil_r. Qed.

Lemma grown_grown ps1 ps2 st :
  grown ps2 (grown ps1 st) = grown (ps1 ++ ps2) st.
Proof. unfold grown, on_heap; simpl. by rewrite app_assoc. Qed.

Lemma heap_grown ps st : heap (grown ps st) = heap st ++ ps.
Proof. done. Qed.

(** A loop that creates one potential per item and enters its address
    under the key of the item. *)
Lemma alloc_loop {A} (body : gmap tkey nat → A → F (gmap tkey nat))
    (key : A → tkey) (mk : A → option gmso.Potential) :
  (∀ m x st,
     match mk x with
     | Some p =>
         body m x st = inr (<[key x := length (heap st)]> m, grown [p] st)
     | None => ∃ e, body m x st = inl e
     end) →
  ∀ xs m st,
    match mapM mk xs with
    | Some ps =>
        foldM body m xs st =
        inr (index_by key (length (heap st)) xs m, grown ps st)
    | None => ∃ e, foldM body m xs st = inl e
    end.
Proof.
  intros Hbody xs. induction xs as [|x xs IH]; intros m st.
  - simpl. by rewrite grown_nil.
  - cbn [mapM foldM index_by]. specialize (Hbody m x st).
    destruct (mk x) as [p|].
    + rewrite (bind_run _ _ _ _ _ Hbody).
      specialize (IH (<[key x := length (heap st)]> m) (grown [p] st)).
      rewrite heap_grown, length_app, Nat.add_1_r in IH.
      destruct (mapM mk xs) as [ps|]; simpl.
      * by rewrite IH, grown_grown.
      * done.
    + destruct Hbody as [e He]. exists e. by apply bind_fail.
Qed.

Lemma alloc_loop_total {A} (body : gmap tkey nat → A → F (gmap tkey nat))
    (key : A → tkey) (mk : A → gmso.Potential) :
  (∀ m x st,
     body m x st = inr (<[key x := length (heap st)]> m, grown [mk x] st)) →
  ∀ xs m st,
    foldM body m xs st =
    inr (index_by key (length (heap st)) xs m, grown (mk <$> xs) st).
Proof.
  intros Hbody xs m st.
  pose proof (alloc_loop body key (λ x, Some (mk x)) Hbody xs m st) as Hl.
  by rewrite mapM_total in Hl.
Qed.

Lemma alloc_then_update p f st :
  bind (alloc p) (λ a, bind (update_potential a f) (λ _, ret a)) st =
  inr (length (heap st), grown [f p] st).
Proof.
  unfold bind, alloc, update_potential, modify, ret, grown, on_heap; simpl.
  rewrite lookup_app_r, Nat.sub_diag by done. simpl.
  do 3 f_equal.
  rewrite insert_app_r_alt, Nat.sub_diag by done. done.
Qed.

Lemma atom_types_spec s st :
  match mapM atom_potential
          (unique_atom_types ∅ (pmd.structure_atoms s)) with
  | Some ps =>
      _atom_types_from_pmd s st =
      inr (index_by (λ t, ByObject (pmd.at_id t)) (length (heap st))
             (unique_atom_types ∅ (pmd.structure_atoms s)) ∅,
           grown ps st)
  | None => ∃ e, _atom_types_from_pmd s st = inl e
  end.
Proof.
  unfold _atom_types_from_pmd. apply alloc_loop.
  intros m x st'. unfold atom_potential, bind, lift, alloc, ret, raise.
  destruct (element_tag x); simpl; [by eauto|done].
Qed.

Lemma bond_types_spec s mm st :
  _bond_types_from_pmd s (Some mm) st =
  inr (index_by (λ t, ByObject (pmd.bt_id t)) (length (heap st))
         (pmd.bond_types s) ∅,
       grown (top_bondtype mm <$> pmd.bond_types s) st).
Proof.
  unfold _bond_types_from_pmd, _assert_dict.
  rewrite (bind_run _ _ st mm st) by done.
  by apply alloc_loop_total.
Qed.

Lemma angle_types_spec s mm st :
  _angle_types_from_pmd s (Some mm) st =
  inr (index_by (λ t, ByObject (pmd.agt_id t)) (length (heap st))
         (pmd.angle_types s) ∅,
       grown (top_angletype mm <$> pmd.angle_types s) st).
Proof.
  unfold _angle_types_from_pmd, _assert_dict.
  rewrite (bind_run _ _ st mm st) by done.
  by apply alloc_loop_total.
Qed.

Lemma dihedral_types_spec s mm st :
  _dihedral_types_from_pmd s (Some mm) st =
  inr (index_by (λ t, ById (pmd.rb_id t))
         (length (heap st) + length (pmd.dihedral_types s))
         (pmd.rb_torsion_types s)
         (index_by (λ t, ById (pmd.dt_id t)) (length (heap st))
            (pmd.dihedral_types s) ∅),
       grown ((top_dihedraltype mm <$> pmd.dihedral_types s) ++
              (top_rb_dihedraltype mm <$> pmd.rb_torsion_types s)) st).
Proof.
  unfold _dihedral_types_from_pmd, _assert_dict.
  rewrite (bind_run _ _ st mm st) by done.
  erewrite bind_run; [|by apply alloc_loop_total].
  rewrite (alloc_loop_total _ (λ t, ById (pmd.rb_id t))
             (top_rb_dihedraltype mm)) by done.
  by rewrite heap_grown, length_app, length_fmap, grown_grown.
Qed.

Lemma improper_types_spec s mm st :
  _improper_types_from_pmd s (Some mm) st =
  inr (index_by (λ t, ByObject (pmd.it_id t))
         (length (heap st) + length (pmd.dihedral_types s))
         (pmd.improper_types s)
         (index_by (λ t, ById (pmd.dt_id t)) (length (heap st))
            (pmd.dihedral_types s) ∅),
       grown (((λ t, gmso.set_member_types (mm !! KId (pmd.dt_id t))
                       (top_periodic_impropertype t))
                 <$> pmd.dihedral_types s) ++
              ((λ t, gmso.set_member_types (mm !! KId (pmd.it_id t))
                       (top_harmonic_impropertype t))
                 <$> pmd.improper_types s)) st).
Proof.
  assert (∀ p f k (m : gmap tkey nat) st',
    bind (alloc p) (λ a, bind (update_potential a f)
                           (λ _, ret (<[k := a]> m))) st' =
    inr (<[k := length (heap st')]> m, grown [f p] st')) as Hturn.
  { intros p f k m st'.
    unfold bind, alloc, update_potential, modify, ret, grown, on_heap; simpl.
    rewrite lookup_app_r, Nat.sub_diag by done. simpl.
    do 3 f_equal.
    by rewrite insert_app_r_alt, Nat.sub_diag by done. }
  unfold _improper_types_from_pmd, _assert_dict.
  rewrite (bind_run _ _ st mm st) by done.
  erewrite bind_run;
    [|apply (alloc_loop_total _ (λ t, ById (pmd.dt_id t))
               (λ t, gmso.set_member_types (mm !! KId (pmd.dt_id t))
                       (top_periodic_impropertype t)));
      intros; apply Hturn].
  rewrite (alloc_loop_total _ (λ t, ByObject (pmd.it_id t))
             (λ t, gmso.set_member_types (mm !! KId (pmd.it_id t))
                     (top_harmonic_impropertype t)))
    by (intros; apply Hturn).
  by rewrite heap_grown, length_app, length_fmap, grown_grown.
Qed.

Lemma get_types_map_bonds {S} s (st : S) :
  _get_types_map s "bonds" false st = inr (bond_members_map s, st).
Proof. done. Qed.

Lemma get_types_map_angles {S} s (st : S) :
  _get_types_map s "angles" false st = inr (angle_members_map s, st).
Proof. done. Qed.

Lemma get_types_map_dihedrals {S} s (st : S) :
  _get_types_map s "dihedrals" false st =
  inr (members_map s (MemDihedral <$> pmd.dihedrals s), st).
Proof. done. Qed.

Lemma get_types_map_rb_torsions {S} s (st : S) :
  _get_types_map s "rb_torsions" false st =
  inr (members_map s (MemDihedral <$> pmd.rb_torsions s), st).
Proof. done. Qed.

Lemma get_types_map_impropers {S} s (st : S) :
  _get_types_map s "impropers" false st =
  inr (members_map s (MemImproper <$> pmd.impropers s), st).
Proof. done. Qed.

(** The type dictionaries are those of [forward_maps], and the store
    grows by the potentials created; nothing else changes. *)
Lemma build_type_maps_spec s st :
  match mapM atom_potential
          (unique_atom_types ∅ (pmd.structure_atoms s)) with
  | Some ps =>
      build_type_maps s st =
      inr (forward_maps s (length (heap st)),
           grown (ps ++ connection_potentials s) st)
  | None => ∃ e, build_type_maps s st = inl e
  end.
Proof.
  unfold build_type_maps. pose proof (atom_types_spec s st) as Hat.
  destruct (mapM atom_potential _) as [ps|] eqn:Hps.
  - rewrite (bind_run _ _ _ _ _ Hat).
    rewrite (bind_run _ _ _ _ _ (get_types_map_bonds s _)).
    rewrite (bind_run _ _ _ _ _ (bond_types_spec s _ _)).
    rewrite (bind_run _ _ _ _ _ (get_types_map_angles s _)).
    rewrite (bind_run _ _ _ _ _ (angle_types_spec s _ _)).
    rewrite (bind_run _ _ _ _ _ (get_types_map_dihedrals s _)).
    rewrite (bind_run _ _ _ _ _ (get_types_map_rb_torsions s _)).
    rewrite (bind_run _ _ _ _ _ (dihedral_types_spec s _ _)).
    rewrite (bind_run _ _ _ _ _ (get_types_map_impropers s _)).
    rewrite (bind_run _ _ _ _ _ (get_types_map_dihedrals s _)).
    rewrite (bind_run _ _ _ _ _ (improper_types_spec s _ _)).
    unfold ret, forward_maps, connection_potentials.
    rewrite !grown_grown, !heap_grown, !length_app, !length_fmap.
    apply mapM_Some_1, Forall2_length in Hps. rewrite <- Hps.
    rewrite <- !app_assoc, !Nat.add_assoc. done.
  - destruct Hat as [e He]. exists e. by apply bind_fail.
Qed.

End TypeMaps.

(** ** The forward converter as a whole *)

Section ForwardWhole.

Context `{ElementLibrary}.

Lemma box_step_spec s :
  box_step s (initial_state s) = inr (tt, boxed_state s).
Proof.
  unfold box_step, boxed_state, box_for, initial_state.
  destruct (pmd.box s) as [b|]; [|done].
  destruct (np_all b); done.
Qed.

Lemma type_maps_for_spec s refer_type :
  match forward_types s refer_type with
  | Some (maps, pots) =>
      type_maps_for s refer_type (boxed_state s) =
      inr (maps, grown pots (boxed_state s))
  | None => ∃ e, type_maps_for s refer_type (boxed_state s) = inl e
  end.
Proof.
  unfold forward_types, type_maps_for. destruct refer_type.
  - pose proof (build_type_maps_spec s (boxed_state s)) as Hb.
    destruct (mapM atom_potential _); simpl; done.
  - simpl. by rewrite grown_nil.
Qed.

Lemma enumerate_atoms (rs : list (nat * pmd.Residue)) :
  (r ← rs; pmd.atoms r.2) = concat (pmd.atoms <$> rs.*2).
Proof.
  induction rs as [|r rs IH]; [done|]. csimpl. by rewrite IH.
Qed.

Lemma snd_enumerate {A} (l : list A) : (enumerate l).*2 = l.
Proof. unfold enumerate. apply snd_zip. by rewrite length_seq. Qed.

Lemma site_map_record ks ws st : site_map (record ks ws st) = site_map st.
Proof. done. Qed.

Lemma fill_topology_spec s refer_type maps st :
  gmso.sites (top st) = [] → gmso.connections (top st) = [] →
  site_map st = ∅ → warnings st = [] →
  match mapM (site_for refer_type (_check_independent_residues s) maps)
          (labelled_atoms s),
        mapM (convert refer_type maps (final_site_map s))
          (ext_connections s) with
  | Some ss, Some ks =>
      fill_topology s refer_type maps st =
      inr (tt,
           {| heap := heap st;
              top := {| gmso.t_name := gmso.t_name (top st);
                        gmso.box := gmso.box (top st);
                        gmso.sites := ss; gmso.connections := ks;
                        gmso.combining_rule := pmd.combining_rule s |};
              site_map := final_site_map s;
              warnings := ext_connections s ≫= ext_warning |})
  | _, _ => ∃ e, fill_topology s refer_type maps st = inl e
  end.
Proof.
  intros Hsites Hconns Hsm Hws. unfold fill_topology, labelled_atoms.
  pose proof (residues_loop_spec refer_type maps
                (_check_independent_residues s)
                (enumerate (pmd.residues s)) st) as Hres.
  destruct (mapM (site_for _ _ _) _) as [ss|];
    [|destruct Hres as [e He]; exists e; by apply bind_fail].
  rewrite (bind_run _ _ _ _ _ Hres). clear Hres.
  set (st1 := place ss _ st).
  assert (site_map st1 = final_site_map s) as Hsm1.
  { unfold st1, place, final_site_map, pmd.structure_atoms; simpl.
    by rewrite Hsites, Hsm, enumerate_atoms, snd_enumerate. }
  unfold ext_connections. rewrite !mapM_app, !mapM_fmap.
  (* bonds *)
  pose proof (forM_turns refer_type maps _ EBond
                (bond_body_spec refer_type maps) (pmd.bonds s) st1) as Hl.
  rewrite Hsm1 in Hl.
  destruct (mapM _ (pmd.bonds s)) as [k1|]; csimpl;
    [|destruct Hl as [e He]; exists e; by apply bind_fail].
  rewrite (bind_run _ _ _ _ _ Hl). clear Hl.
  (* angles *)
  pose proof (forM_turns refer_type maps _ EAngle
                (angle_body_spec refer_type maps) (pmd.angles s)
                (record k1 (pmd.bonds s ≫= λ x, ext_warning (EBond x)) st1))
    as Hl.
  rewrite site_map_record, Hsm1 in Hl.
  destruct (mapM _ (pmd.angles s)) as [k2|]; csimpl;
    [|destruct Hl as [e He]; exists e; by apply bind_fail].
  rewrite (bind_run _ _ _ _ _ Hl). clear Hl. rewrite record_record.
  (* dihedrals *)
  cbv beta.
  match goal with |- context [bind (forM_ _ (pmd.dihedrals s)) _ ?st2] =>
    pose proof (forM_turns refer_type maps _ EDihedral
                  (dihedral_body_spec refer_type maps) (pmd.dihedrals s)
                  st2) as Hl
  end.
  rewrite site_map_record, Hsm1 in Hl.
  destruct (mapM _ (pmd.dihedrals s)) as [k3|]; csimpl;
    [|destruct Hl as [e He]; exists e; by apply bind_fail].
  rewrite (bind_run _ _ _ _ _ Hl). clear Hl. rewrite record_record.
  (* rb torsions *)
  cbv beta.
  match goal with |- context [bind (forM_ _ (pmd.rb_torsions s)) _ ?st2] =>
    pose proof (forM_turns refer_type maps _ ERBTorsion
                  (rb_torsion_body_spec refer_type maps)
                  (pmd.rb_torsions s) st2) as Hl
  end.
  rewrite site_map_record, Hsm1 in Hl.
  destruct (mapM _ (pmd.rb_torsions s)) as [k4|]; csimpl;
    [|destruct Hl as [e He]; exists e; by apply bind_fail].
  rewrite (bind_run _ _ _ _ _ Hl). clear Hl. rewrite record_record.
  (* impropers *)
  cbv beta.
  match goal with |- context [bind (forM_ _ (pmd.impropers s)) _ ?st2] =>
    pose proof (forM_turns refer_type maps _ EImproper
                  (improper_body_spec refer_type maps)
                  (pmd.impropers s) st2) as Hl
  end.
  rewrite site_map_record, Hsm1 in Hl.
  destruct (mapM _ (pmd.impropers s)) as [k5|]; csimpl;
    [|destruct Hl as [e He]; exists e; by apply bind_fail].
  rewrite (bind_run _ _ _ _ _ Hl). clear Hl. rewrite record_record.
  unfold bind, modify, record, on_top, st1, place; simpl.
  rewrite Hsites, Hconns, Hws, Hsm. simpl.
  rewrite !bind_app, !list_fmap_bind, <- !app_assoc.
  unfold final_site_map, pmd.structure_atoms.
  by rewrite enumerate_atoms, snd_enumerate.
Qed.

(** The converter computes [forward], and raises exactly when
    [forward] is undefined. *)
Theorem from_parmed_forward s refer_type :
  match forward s refer_type with
  | Some c => from_parmed s refer_type = inr c
  | None => ∃ e, from_parmed s refer_type = inl e
  end.
Proof.
  unfold forward, from_parmed, from_parmed_steps.
  rewrite (bind_run _ _ _ _ _ (box_step_spec s)).
  pose proof (type_maps_for_spec s refer_type) as Hmaps.
  destruct (forward_types s refer_type) as [[maps pots]|]; csimpl.
  - rewrite (bind_run _ _ _ _ _ Hmaps).
    pose proof (fill_topology_spec s refer_type maps
                  (grown pots (boxed_state s))) as Hfill.
    destruct (mapM (site_for _ _ _) _) as [ss|]; csimpl.
    + destruct (mapM (convert _ _ _) _) as [ks|]; csimpl.
      * by rewrite Hfill.
      * destruct Hfill as [e He]; [done..|]. by rewrite He; eauto.
    + destruct Hfill as [e He]; [done..|]. by rewrite He; eauto.
  - destruct Hmaps as [e He]. rewrite (bind_fail _ _ _ _ He). eauto.
Qed.

End ForwardWhole.

(** ** Consequences for the outcome of a forward conversion *)

Section ForwardOutcome.

Context `{ElementLibrary}.

Lemma from_parmed_inr s refer_type c :
  from_parmed s refer_type = inr c ↔ forward s refer_type = Some c.
Proof.
  pose proof (from_parmed_forward s refer_type) as Hf.
  destruct (forward s refer_type) as [c'|].
  - rewrite Hf. split; intros Heq; by simplify_eq.
  - destruct Hf as [e ->]. split; intros Heq; by simplify_eq.
Qed.

(** The parts of a successful conversion. *)
Lemma forward_parts s refer_type c :
  forward s refer_type = Some c →
  ∃ maps ss ks,
    forward_types s refer_type = Some (maps, potentials c) ∧
    mapM (site_for refer_type (_check_independent_residues s) maps)
      (labelled_atoms s) = Some ss ∧
    mapM (convert refer_type maps (final_site_map s)) (ext_connections s)
      = Some ks ∧
    topology c =
      {| gmso.t_name := pmd.title s; gmso.box := box_for s;
         gmso.sites := ss; gmso.connections := ks;
         gmso.combining_rule := pmd.combining_rule s |} ∧
    issued c = ext_connections s ≫= ext_warning.
Proof.
  unfold forward. intros Hf.
  destruct (forward_types s refer_type) as [[maps pots]|]; [|done].
  csimpl in Hf.
  destruct (mapM (site_for _ _ _) _) as [ss|] eqn:Hss; [|done].
  csimpl in Hf.
  destruct (mapM (convert _ _ _) _) as [ks|] eqn:Hks; [|done].
  csimpl in Hf.
  injection Hf as <-. exists maps, ss, ks. simpl. auto.
Qed.

Lemma from_parmed_parts s refer_type c :
  from_parmed s refer_type = inr c →
  ∃ maps ss ks,
    forward_types s refer_type = Some (maps, potentials c) ∧
    mapM (site_for refer_type (_check_independent_residues s) maps)
      (labelled_atoms s) = Some ss ∧
    mapM (convert refer_type maps (final_site_map s)) (ext_connections s)
      = Some ks ∧
    topology c =
      {| gmso.t_name := pmd.title s; gmso.box := box_for s;
         gmso.sites := ss; gmso.connections := ks;
         gmso.combining_rule := pmd.combining_rule s |} ∧
    issued c = ext_connections s ≫= ext_warning.
Proof. intros Hc. by apply forward_parts, from_parmed_inr. Qed.

Lemma from_parmed_box s refer_type c :
  from_parmed s refer_type = inr c → gmso.box (topology c) = box_for s.
Proof.
  intros (maps & ss & ks & _ & _ & _ & -> & _)%from_parmed_parts. done.
Qed.

(** The connection made from the instance at position [i]. *)
Lemma from_parmed_connection s refer_type c i x :
  from_parmed s refer_type = inr c →
  ext_connections s !! i = Some x →
  ∃ maps k,
    forward_types s refer_type = Some (maps, potentials c) ∧
    gmso.connections (topology c) !! i = Some k ∧
    convert refer_type maps (final_site_map s) x = Some k.
Proof.
  intros (maps & ss & ks & Hmaps & _ & Hks & -> & _)%from_parmed_parts Hx.
  apply mapM_Some_1 in Hks.
  destruct (Forall2_lookup_l _ _ _ _ _ Hks Hx) as (k & Hk & Hconv).
  by exists maps, k.
Qed.

End ForwardOutcome.

Lemma Qtruthy_false x : Qtruthy x = false ↔ x == 0.
Proof.
  unfold Qtruthy, Qeq. rewrite negb_false_iff, Z.eqb_eq. simpl. lia.
Qed.

Lemma np_all_spec b : np_all b = true ↔ Forall (λ x, ¬ x == 0) b.
Proof.
  unfold np_all. induction b as [|x b IH]; simpl.
  - split; [by constructor|done].
  - rewrite andb_true_iff, Forall_cons, IH, <- Qtruthy_false.
    destruct (Qtruthy x); intuition congruence.
Qed.

(** C9.  When the box array of the structure has a zero entry, a
    successful forward conversion leaves the topology without a box.  The
    topology has a box only when the structure has a box array none of
    whose entries is zero; the box then has the first three entries as
    lengths, converted from angstrom to nanometres, and the next three as
    angles in degrees. *)
Theorem from_parmed_box_needs_nonzero `{ElementLibrary} s refer_type c :
  from_parmed s refer_type = inr c →
  (∀ b x, pmd.box s = Some b → x ∈ b → x == 0 →
     gmso.box (topology c) = None) ∧
  (∀ bx, gmso.box (topology c) = Some bx →
     ∃ b, pmd.box s = Some b ∧ Forall (λ x, ¬ x == 0) b ∧
          bx = {| gmso.lengths :=
                    ((λ x, Qred (x * (1 # 10))) <$> take 3 b, nm);
                  gmso.angles := (take 3 (drop 3 b), degree) |}).
Proof.
  intros Hc. rewrite (from_parmed_box _ _ _ Hc). unfold box_for. split.
  - intros b x -> Hx Hzero.
    destruct (np_all b) eqn:Hall; [|done].
    apply np_all_spec in Hall. rewrite Forall_forall in Hall.
    by destruct (Hall x Hx).
  - intros bx Hbx. destruct (pmd.box s) as [b|]; [|done].
    destruct (np_all b) eqn:Hall; [|done].
    injection Hbx as <-. exists b. by rewrite <- np_all_spec.
Qed.

(** ** Residues and molecule labels *)

Lemma enumerate_lookup {A} (l : list A) i x :
  l !! i = Some x → enumerate l !! i = Some (i, x).
Proof.
  intros Hx. unfold enumerate. apply lookup_zip_with_Some.
  exists i, x. split; [done|]. split; [|done].
  apply lookup_seq. split; [done|]. by eapply lookup_lt_Some.
Qed.

Section Residues.

Variable s : pmd.Structure.

Lemma check_residues_true rs :
  check_residues s rs = true ↔ Forall (residue_passes s) rs.
Proof.
  induction rs as [|r rs IH]; simpl.
  - split; [by constructor|done].
  - rewrite Forall_cons, <- IH. unfold residue_passes.
    destruct (decide (concat _ = [])) as [Hnil|Hnil]; [tauto|].
    destruct (decide (_ ≠ _)) as [Hne|Heq].
    + split; [done|]. intros [[?|?] _]; done.
    + apply dec_stable in Heq. tauto.
Qed.

Lemma check_residues_false rs :
  check_residues s rs = false →
  ∃ r, r ∈ rs ∧ concat (pmd.bond_partners s <$> pmd.atoms r) ≠ [].
Proof.
  induction rs as [|r rs IH]; simpl; [done|].
  destruct (decide (concat _ = [])) as [Hnil|Hnil].
  - intros (r' & Hr' & Hp)%IH. exists r'. split; [by right|done].
  - intros _. exists r. split; [by left|done].
Qed.

End Residues.

Lemma labelled_atoms_elem s r a i :
  pmd.residues s !! i = Some r → a ∈ pmd.atoms r →
  ((i, r), a) ∈ labelled_atoms s.
Proof.
  intros Hr Ha. unfold labelled_atoms. apply list_elem_of_bind.
  exists (i, r). split.
  - apply list_elem_of_fmap. by exists a.
  - apply list_elem_of_lookup. exists i. by apply enumerate_lookup.
Qed.

(** The site made from an atom carries the label of the residue of the
    atom, and the same label as molecule when the check passed. *)
Lemma site_for_labels `{ElementLibrary} refer_type ind_res maps ra site :
  site_for refer_type ind_res maps ra = Some site →
  gmso.residue site = Some (residue_label ra.1) ∧
  gmso.molecule site =
    (if ind_res then Some (residue_label ra.1) else None) ∧
  gmso.s_name site = pmd.name ra.2.
Proof.
  destruct ra as [r a]. unfold site_for.
  destruct (if Qtruthy _ then _ else _); [|done].
  destruct (match pmd.atom_type a with pmd.PyNone => _ | _ => _ end);
    [|done].
  by intros [= <-].
Qed.

(** C6, as amended.  After a successful forward conversion every site
    carries the label of its residue.  Every site carries a molecule
    label, the one of its residue, exactly when the single check over the
    whole structure passes, and when the check fails no site carries a
    molecule label.  The check passes exactly when every residue either
    has no bonded atom or has as atoms exactly the bond partners of its
    atoms. *)
Theorem molecule_label_iff_check `{ElementLibrary} s refer_type c :
  from_parmed s refer_type = inr c →
  (∀ j site, gmso.sites (topology c) !! j = Some site →
     ∃ ra, labelled_atoms s !! j = Some ra ∧
           gmso.residue site = Some (residue_label ra.1) ∧
           gmso.molecule site =
             (if _check_independent_residues s
              then Some (residue_label ra.1) else None)) ∧
  ((∀ site, site ∈ gmso.sites (topology c) → is_Some (gmso.molecule site)) ↔
   _check_independent_residues s = true) ∧
  (_check_independent_residues s = false →
   ∀ site, site ∈ gmso.sites (topology c) → gmso.molecule site = None) ∧
  (_check_independent_residues s = true ↔
   ∀ r, r ∈ pmd.residues s → residue_passes s r).
Proof.
  intros (maps & ss & ks & _ & Hss & _ & Htop & _)%from_parmed_parts.
  rewrite Htop. simpl. clear Htop. apply mapM_Some_1 in Hss.
  assert (∀ j site, ss !! j = Some site →
            ∃ ra, labelled_atoms s !! j = Some ra ∧
                  gmso.residue site = Some (residue_label ra.1) ∧
                  gmso.molecule site =
                    (if _check_independent_residues s
                     then Some (residue_label ra.1) else None)) as Hsite.
  { intros j site Hj.
    destruct (Forall2_lookup_r _ _ _ _ _ Hss Hj) as (ra & Hra & Hfor).
    exists ra. split; [done|]. apply site_for_labels in Hfor. tauto. }
  split; [done|]. split; [|split].
  - split.
    + intros Hall. destruct (_check_independent_residues s) eqn:Hcheck;
        [done|]. exfalso.
      destruct (check_residues_false _ _ Hcheck) as (r & Hr & Hp).
      apply list_elem_of_lookup in Hr as [i Hi].
      destruct (pmd.atoms r) as [|a l] eqn:Hat; [done|].
      assert (((i, r), a) ∈ labelled_atoms s) as Hin.
      { apply labelled_atoms_elem; [done|]. rewrite Hat. by left. }
      apply list_elem_of_lookup in Hin as [j Hj].
      destruct (Forall2_lookup_l _ _ _ _ _ Hss Hj) as (site & Hsj & _).
      destruct (Hsite _ _ Hsj) as (ra & _ & _ & Hmol).
      destruct (Hall site) as [l' Hl']; [by eapply list_elem_of_lookup_2|].
      congruence.
    + intros Hcheck site [j Hj]%list_elem_of_lookup.
      destruct (Hsite _ _ Hj) as (ra & _ & _ & ->). by rewrite Hcheck.
  - intros Hcheck site [j Hj]%list_elem_of_lookup.
    destruct (Hsite _ _ Hj) as (ra & _ & _ & ->). by rewrite Hcheck.
  - unfold _check_independent_residues.
    by rewrite check_residues_true, Forall_forall.
Qed.

(** ** Connections: position, members and class *)

Section Positions.

Variable s : pmd.Structure.

Lemma ext_bond i b :
  pmd.bonds s !! i = Some b → ext_connections s !! i = Some (EBond b).
Proof.
  intros Hb. unfold ext_connections.
  rewrite lookup_app_l by (rewrite length_fmap; by eapply lookup_lt_Some).
  by rewrite list_lookup_fmap, Hb.
Qed.

Lemma ext_angle i a :
  pmd.angles s !! i = Some a →
  ext_connections s !! (length (pmd.bonds s) + i)%nat = Some (EAngle a).
Proof.
  intros Ha. unfold ext_connections.
  rewrite lookup_app_r by (rewrite length_fmap; lia).
  rewrite length_fmap.
  replace (length (pmd.bonds s) + i - length (pmd.bonds s))%nat with i
    by lia.
  rewrite lookup_app_l by (rewrite length_fmap; by eapply lookup_lt_Some).
  by rewrite list_lookup_fmap, Ha.
Qed.

Lemma ext_dihedral i d :
  pmd.dihedrals s !! i = Some d →
  ext_connections s
    !! (length (pmd.bonds s) + length (pmd.angles s) + i)%nat
  = Some (EDihedral d).
Proof.
  intros Hd. unfold ext_connections.
  rewrite lookup_app_r by (rewrite length_fmap; lia).
  rewrite lookup_app_r by (rewrite !length_fmap; lia).
  rewrite !length_fmap.
  replace (length (pmd.bonds s) + length (pmd.angles s) + i -
           length (pmd.bonds s) - length (pmd.angles s))%nat with i by lia.
  rewrite lookup_app_l by (rewrite length_fmap; by eapply lookup_lt_Some).
  by rewrite list_lookup_fmap, Hd.
Qed.

Lemma ext_rb_torsion i d :
  pmd.rb_torsions s !! i = Some d →
  ext_connections s
    !! (length (pmd.bonds s) + length (pmd.angles s) +
        length (pmd.dihedrals s) + i)%nat
  = Some (ERBTorsion d).
Proof.
  intros Hd. unfold ext_connections.
  rewrite lookup_app_r by (rewrite length_fmap; lia).
  rewrite lookup_app_r by (rewrite !length_fmap; lia).
  rewrite lookup_app_r by (rewrite !length_fmap; lia).
  rewrite !length_fmap.
  replace (length (pmd.bonds s) + length (pmd.angles s) +
           length (pmd.dihedrals s) + i - length (pmd.bonds s) -
           length (pmd.angles s) - length (pmd.dihedrals s))%nat
    with i by lia.
  rewrite lookup_app_l by (rewrite length_fmap; by eapply lookup_lt_Some).
  by rewrite list_lookup_fmap, Hd.
Qed.

Lemma ext_improper i x :
  pmd.impropers s !! i = Some x →
  ext_connections s
    !! (length (pmd.bonds s) + length (pmd.angles s) +
        length (pmd.dihedrals s) + length (pmd.rb_torsions s) + i)%nat
  = Some (EImproper x).
Proof.
  intros Hx. unfold ext_connections.
  rewrite lookup_app_r by (rewrite length_fmap; lia).
  rewrite lookup_app_r by (rewrite !length_fmap; lia).
  rewrite lookup_app_r by (rewrite !length_fmap; lia).
  rewrite lookup_app_r by (rewrite !length_fmap; lia).
  rewrite !length_fmap.
  replace (length (pmd.bonds s) + length (pmd.angles s) +
           length (pmd.dihedrals s) + length (pmd.rb_torsions s) + i -
           length (pmd.bonds s) - length (pmd.angles s) -
           length (pmd.dihedrals s) - length (pmd.rb_torsions s))%nat
    with i by lia.
  by rewrite list_lookup_fmap, Hx.
Qed.

Lemma labelled_atoms_snd : (labelled_atoms s).*2 = pmd.structure_atoms s.
Proof.
  unfold labelled_atoms, pmd.structure_atoms.
  rewrite <- (snd_enumerate (pmd.residues s)) at 2.
  induction (enumerate (pmd.residues s)) as [|r rs IH]; [done|].
  csimpl. rewrite fmap_app, IH. f_equal.
  rewrite <- list_fmap_compose. by rewrite list_fmap_id.
Qed.

End Positions.

Lemma convert_parts refer_type maps sm x k :
  convert refer_type maps sm x = Some k →
  gmso.c_class k = ext_class x ∧
  mapM (λ a, sm !! a) (ext_atoms x) = Some (gmso.connection_members k) ∧
  convert_type refer_type maps x = Some (gmso.connection_type k).
Proof.
  unfold convert. destruct (mapM _ _) as [ms|]; [|done].
  destruct (convert_type _ _ _) as [ty|]; [|done]. by intros [= <-].
Qed.

Lemma mapM_four {A B} (f : A → option B) a1 a2 a3 a4 l :
  mapM f [a1; a2; a3; a4] = Some l →
  ∃ b1 b2 b3 b4,
    l = [b1; b2; b3; b4] ∧ f a1 = Some b1 ∧ f a2 = Some b2 ∧
    f a3 = Some b3 ∧ f a4 = Some b4.
Proof.
  intros Hl%mapM_Some_1.
  repeat match goal with
         | H : Forall2 _ (_ :: _) _ |- _ =>
             apply Forall2_cons_inv_l in H as (? & ? & ? & H & ->)
         | H : Forall2 _ [] _ |- _ => apply Forall2_nil_inv_l in H as ->
         end.
  naive_solver.
Qed.

(** The site behind an entry of the dictionary from atoms to sites was
    made from an atom with that identity. *)
Lemma site_of_atom `{ElementLibrary} s refer_type c a m :
  from_parmed s refer_type = inr c →
  final_site_map s !! a = Some m →
  ∃ x site,
    pmd.structure_atoms s !! m = Some x ∧ pmd.atom_id x = a ∧
    gmso.sites (topology c) !! m = Some site ∧
    gmso.s_name site = pmd.name x.
Proof.
  intros (maps & ss & ks & _ & Hss & _ & -> & _)%from_parmed_parts Hm.
  simpl. unfold final_site_map in Hm.
  apply index_by_lookup in Hm as [[Hm _]|(x & Hx & Hid & _)];
    [by rewrite lookup_empty in Hm|].
  rewrite Nat.sub_0_r in Hx. apply mapM_Some_1 in Hss.
  rewrite <- labelled_atoms_snd, list_lookup_fmap in Hx.
  destruct (labelled_atoms s !! m) as [ra|] eqn:Hra; [|done].
  injection Hx as <-.
  destruct (Forall2_lookup_l _ _ _ _ _ Hss Hra) as (site & Hsite & Hfor).
  exists ra.2, site. rewrite <- labelled_atoms_snd, list_lookup_fmap, Hra.
  apply site_for_labels in Hfor. tauto.
Qed.

(** C4.  A dihedral of the structure flagged improper, with the atoms
    [a, b, c, d] in this order, becomes an Improper of the topology (at
    the position of the dihedral after the bonds and angles) whose
    members are the sites of [a, b, c, d] in the same order: the first
    member, the central atom, is the site made from [a]. *)
Theorem periodic_improper_keeps_order `{ElementLibrary} s refer_type c i d :
  from_parmed s refer_type = inr c →
  pmd.dihedrals s !! i = Some d →
  pmd.improper d = true →
  ∃ k m1 m2 m3 m4 a site,
    gmso.connections (topology c)
      !! (length (pmd.bonds s) + length (pmd.angles s) + i)%nat = Some k ∧
    gmso.c_class k = gmso.Improper ∧
    gmso.connection_members k = [m1; m2; m3; m4] ∧
    final_site_map s !! pmd.d_atom1 d = Some m1 ∧
    final_site_map s !! pmd.d_atom2 d = Some m2 ∧
    final_site_map s !! pmd.d_atom3 d = Some m3 ∧
    final_site_map s !! pmd.d_atom4 d = Some m4 ∧
    pmd.structure_atoms s !! m1 = Some a ∧
    pmd.atom_id a = pmd.d_atom1 d ∧
    gmso.sites (topology c) !! m1 = Some site ∧
    gmso.s_name site = pmd.name a.
Proof.
  intros Hc Hd Himp.
  destruct (from_parmed_connection _ _ _ _ _ Hc (ext_dihedral s i d Hd))
    as (maps & k & _ & Hk & Hconv).
  apply convert_parts in Hconv as (Hclass & Hmem & _).
  cbn [ext_class ext_atoms] in Hclass, Hmem. rewrite Himp in Hclass.
  apply mapM_four in Hmem as (m1 & m2 & m3 & m4 & Hms & H1 & H2 & H3 & H4).
  destruct (site_of_atom _ _ _ _ _ Hc H1) as (a & site & ? & ? & ? & ?).
  exists k, m1, m2, m3, m4, a, site. naive_solver.
Qed.

(** ** The potentials behind the dictionary of dihedral types *)

Section DihedralTypes.

Context `{ElementLibrary}.

(** The potential made from the Ryckaert-Bellemans type at position
    [j] of the table. *)
Lemma connection_potentials_rb s j t :
  pmd.rb_torsion_types s !! j = Some t →
  connection_potentials s
    !! (length (pmd.bond_types s) + length (pmd.angle_types s) +
        length (pmd.dihedral_types s) + j)%nat
  = Some (top_rb_dihedraltype (dihedral_members_map s) t).
Proof.
  intros Ht. unfold connection_potentials.
  rewrite lookup_app_r by (rewrite length_fmap; lia).
  rewrite lookup_app_r by (rewrite !length_fmap; lia).
  rewrite lookup_app_r by (rewrite !length_fmap; lia).
  rewrite !length_fmap.
  replace (length (pmd.bond_types s) + length (pmd.angle_types s) +
           length (pmd.dihedral_types s) + j - length (pmd.bond_types s) -
           length (pmd.angle_types s) - length (pmd.dihedral_types s))%nat
    with j by lia.
  rewrite lookup_app_l by (rewrite length_fmap; by eapply lookup_lt_Some).
  by rewrite list_lookup_fmap, Ht.
Qed.

(** A Ryckaert-Bellemans type of the table is in the dictionary of
    dihedral types, and its entry is the address of a potential made
    from a Ryckaert-Bellemans type with the same identity. *)
Lemma rb_type_registered s maps pots t :
  forward_types s true = Some (maps, pots) →
  t ∈ pmd.rb_torsion_types s →
  ∃ a t',
    pmd_top_dihedraltypes maps !! ById (pmd.rb_id t) = Some a ∧
    t' ∈ pmd.rb_torsion_types s ∧ pmd.rb_id t' = pmd.rb_id t ∧
    pots !! a = Some (top_rb_dihedraltype (dihedral_members_map s) t').
Proof.
  unfold forward_types. intros Hf Ht.
  destruct (mapM atom_potential _) as [ps|] eqn:Hps; [|done].
  injection Hf as <- <-. simpl.
  apply mapM_Some_1, Forall2_length in Hps.
  set (m0 := index_by _ _ (pmd.dihedral_types s) ∅).
  destruct (index_by_elem (λ t, ById (pmd.rb_id t))
              (0 + length (unique_atom_types ∅ (pmd.structure_atoms s)) +
               length (pmd.bond_types s) + length (pmd.angle_types s) +
               length (pmd.dihedral_types s)) _ m0 t Ht)
    as (a & t' & Ha & Hle & Ht' & Hid).
  exists a, t'. split; [done|]. split; [by eapply list_elem_of_lookup_2|].
  split; [congruence|].
  rewrite lookup_app_r by lia.
  rewrite <- (connection_potentials_rb _ _ _ Ht'). f_equal. lia.
Qed.

End DihedralTypes.

(** C5.  A Ryckaert-Bellemans torsion of the structure flagged improper
    becomes a Dihedral of the topology (at the position of the torsion
    after the bonds, angles and dihedrals), with the sites of its atoms
    in order as members, and the advisory warning about it is among the
    warnings of the conversion, which returns its topology.  When types
    are transferred and the type of the torsion is a Ryckaert-Bellemans
    type of the structure, the Dihedral carries a dihedral type with the
    Ryckaert-Bellemans expression, made from the parameters of a type
    record with that identity. *)
Theorem rb_improper_becomes_dihedral `{ElementLibrary} s refer_type c i d :
  from_parmed s refer_type = inr c →
  pmd.rb_torsions s !! i = Some d →
  pmd.improper d = true →
  ∃ k,
    gmso.connections (topology c)
      !! (length (pmd.bonds s) + length (pmd.angles s) +
          length (pmd.dihedrals s) + i)%nat = Some k ∧
    gmso.c_class k = gmso.Dihedral ∧
    mapM (λ a, final_site_map s !! a)
      [pmd.d_atom1 d; pmd.d_atom2 d; pmd.d_atom3 d; pmd.d_atom4 d]
    = Some (gmso.connection_members k) ∧
    RBImproperWarning d ∈ issued c ∧
    (∀ t, refer_type = true → pmd.d_type d = pmd.ORBTorsionType t →
          t ∈ pmd.rb_torsion_types s →
       ∃ a p t',
         gmso.connection_type k = Some a ∧ potentials c !! a = Some p ∧
         t' ∈ pmd.rb_torsion_types s ∧ pmd.rb_id t' = pmd.rb_id t ∧
         p = top_rb_dihedraltype (dihedral_members_map s) t' ∧
         gmso.p_class p = gmso.DihedralType ∧
         gmso.expression p = Forms.ryckaert_bellemans).
Proof.
  intros Hc Hd Himp.
  pose proof (ext_rb_torsion s i d Hd) as Hx.
  destruct (from_parmed_connection _ _ _ _ _ Hc Hx)
    as (maps & k & Hmaps & Hk & Hconv).
  apply convert_parts in Hconv as (Hclass & Hmem & Hty).
  exists k. split; [done|]. split; [done|]. split; [done|]. split.
  - apply from_parmed_parts in Hc as (_ & _ & _ & _ & _ & _ & _ & ->).
    apply list_elem_of_bind. exists (ERBTorsion d).
    split; [|by eapply list_elem_of_lookup_2].
    simpl. rewrite Himp. by left.
  - intros t -> Ht Hreg.
    destruct (rb_type_registered _ _ _ _ Hmaps Hreg)
      as (a & t' & Ha & Ht' & Hid & Hp).
    unfold convert_type, ext_type_map in Hty. simpl in Hty.
    rewrite Ht, Ha in Hty. injection Hty as <-.
    by exists a, (top_rb_dihedraltype (dihedral_members_map s) t'), t'.
Qed.

(** ** Totality of the forward conversion *)

Lemma Qtruthy_inject_Z n : Qtruthy (inject_Z n) = true → n ≠ 0%Z.
Proof. unfold Qtruthy. simpl. rewrite negb_true_iff, Z.eqb_neq. done. Qed.

Lemma unique_atom_types_from seen l t :
  t ∈ unique_atom_types seen l →
  ∃ a, a ∈ l ∧ pmd.atom_type a = pmd.OAtomType t.
Proof.
  revert seen. induction l as [|a l IH]; intros seen; simpl.
  - by intros ?%elem_of_nil.
  - destruct (pmd.atom_type a) as [|t'| | | | | |] eqn:Ha;
      try (intros (a' & ? & ?)%IH; exists a'; split; [by right|done]).
    destruct (decide (pmd.at_id t' ∈ seen)).
    + intros (a' & ? & ?)%IH. exists a'. split; [by right|done].
    + intros [->|(a' & ? & ?)%IH]%elem_of_cons.
      * exists a. split; [by left|done].
      * exists a'. split; [by right|done].
Qed.

Lemma unique_atom_types_covers seen l a t :
  a ∈ l → pmd.atom_type a = pmd.OAtomType t →
  pmd.at_id t ∈ seen ∨
  ∃ t', t' ∈ unique_atom_types seen l ∧ pmd.at_id t' = pmd.at_id t.
Proof.
  revert seen. induction l as [|a' l IH]; intros seen Ha Hty.
  - by apply elem_of_nil in Ha.
  - simpl. apply elem_of_cons in Ha as [<-|Ha].
    + rewrite Hty. destruct (decide (pmd.at_id t ∈ seen)); [by left|].
      right. exists t. split; [by left|done].
    + destruct (pmd.atom_type a') as [|t'| | | | | |];
        try by apply IH.
      destruct (decide (pmd.at_id t' ∈ seen)); [by apply IH|].
      destruct (IH ({[pmd.at_id t']} ∪ seen) Ha Hty)
        as [Hin|(t'' & ? & ?)].
      * apply elem_of_union in Hin as [->%elem_of_singleton|?]; [|by left].
        right. exists t'. split; [by left|done].
      * right. exists t''. split; [by right|done].
Qed.

Section Totality.

Context `{ElementLibrary}.

Lemma forward_types_total s refer_type :
  elements_known s refer_type →
  ∃ pots, forward_types s refer_type =
          Some (if refer_type then forward_maps s 0 else no_type_maps, pots).
Proof.
  intros [_ Hknown]. unfold forward_types. destruct refer_type; [|by eauto].
  destruct (mapM_is_Some_2 atom_potential
              (unique_atom_types ∅ (pmd.structure_atoms s))) as [ps Hps].
  { apply Forall_forall. intros t (a & Ha & Hty)%unique_atom_types_from.
    unfold atom_potential, element_tag. simpl.
    destruct (Qtruthy _) eqn:Hn; [|by eauto].
    apply Qtruthy_inject_Z in Hn.
    destruct (Hknown eq_refl a t Ha Hty Hn) as [e ->]. by eauto. }
  rewrite Hps. simpl. by eauto.
Qed.

Lemma atom_type_indexed s base a t :
  a ∈ pmd.structure_atoms s → pmd.atom_type a = pmd.OAtomType t →
  is_Some (pmd_top_atomtypes (forward_maps s base)
             !! ByObject (pmd.at_id t)).
Proof.
  intros Ha Hty. simpl. apply index_by_is_Some. right.
  destruct (unique_atom_types_covers ∅ _ _ _ Ha Hty) as [?|(t' & ? & Hid)];
    [set_solver|].
  exists t'. by rewrite Hid.
Qed.

Lemma sites_total s refer_type ind_res :
  elements_known s refer_type →
  is_Some (mapM (site_for refer_type ind_res
                   (if refer_type then forward_maps s 0 else no_type_maps))
             (labelled_atoms s)).
Proof.
  intros [Hknown _]. apply mapM_is_Some_2, Forall_forall.
  intros [r a] Hra. simpl.
  assert (a ∈ pmd.structure_atoms s) as Ha.
  { rewrite <- labelled_atoms_snd. apply list_elem_of_fmap.
    by exists (r, a). }
  destruct (Qtruthy _) eqn:Hn.
  - apply Qtruthy_inject_Z in Hn. destruct (Hknown a Ha Hn) as [e ->].
    destruct (pmd.atom_type a) as [|t| | | | | |] eqn:Hty; try by eauto.
    destruct refer_type; [|by eauto].
    destruct (atom_type_indexed s 0 a t Ha Hty) as [i ->]. by eauto.
  - destruct (pmd.atom_type a) as [|t| | | | | |] eqn:Hty; try by eauto.
    destruct refer_type; [|by eauto].
    destruct (atom_type_indexed s 0 a t Ha Hty) as [i ->]. by eauto.
Qed.

Lemma site_map_total s a :
  (∃ atom, atom ∈ pmd.structure_atoms s ∧ pmd.atom_id atom = a) →
  is_Some (final_site_map s !! a).
Proof.
  intros (atom & Hin & <-). apply index_by_is_Some. right. by exists atom.
Qed.

Lemma type_lookup_total s base x key :
  registered s x → ext_type_key x = Some key →
  is_Some (ext_type_map (forward_maps s base) x !! key).
Proof.
  unfold ext_type_map.
  destruct x as [b|a|d|d|i]; simpl.
  - destruct (pmd.b_type b); try done.
    intros (t' & Ht' & Hid) [= <-]. apply index_by_is_Some. right.
    exists t'. by rewrite Hid.
  - destruct (pmd.a_type a); try done.
    intros (t' & Ht' & Hid) [= <-]. apply index_by_is_Some. right.
    exists t'. by rewrite Hid.
  - destruct (pmd.d_type d); try done.
    intros (t' & Ht' & Hid) [= <-].
    destruct (pmd.improper d); simpl;
      apply index_by_is_Some; left; apply index_by_is_Some; right;
      exists t'; by rewrite Hid.
  - destruct (pmd.d_type d); try done.
    intros (t' & Ht' & Hid) [= <-]. apply index_by_is_Some. right.
    exists t'. by rewrite Hid.
  - destruct (pmd.i_type i); try done.
    intros (t' & Ht' & Hid) [= <-]. apply index_by_is_Some. right.
    exists t'. by rewrite Hid.
Qed.

Lemma connections_total s refer_type :
  atoms_present s → (refer_type = true → types_registered s) →
  is_Some (mapM (convert refer_type
                   (if refer_type then forward_maps s 0 else no_type_maps)
                   (final_site_map s))
             (ext_connections s)).
Proof.
  intros Hatoms Htypes. apply mapM_is_Some_2, Forall_forall.
  intros x Hx. unfold convert. simpl.
  destruct (mapM_is_Some_2 (λ a, final_site_map s !! a) (ext_atoms x))
    as [ms ->].
  { apply Forall_forall. intros a Ha. apply site_map_total. by eauto. }
  unfold convert_type.
  destruct (ext_type_key x) as [key|] eqn:Hkey; [|by eauto].
  destruct refer_type; [|by eauto].
  destruct (type_lookup_total s 0 x key (Htypes eq_refl x Hx) Hkey)
    as [ty ->].
  by eauto.
Qed.

(** A well-formed structure converts. *)
Lemma from_parmed_total s refer_type :
  atoms_present s → (refer_type = true → types_registered s) →
  elements_known s refer_type →
  ∃ c, from_parmed s refer_type = inr c.
Proof.
  intros Hatoms Htypes Hknown.
  destruct (forward_types_total s refer_type Hknown) as [pots Hmaps].
  destruct (sites_total s refer_type (_check_independent_residues s) Hknown)
    as [ss Hss].
  destruct (connections_total s refer_type Hatoms Htypes) as [ks Hks].
  eexists. apply from_parmed_inr. unfold forward.
  rewrite Hmaps. cbn [mbind option_bind]. rewrite Hss. cbn [mbind option_bind].
  rewrite Hks. done.
Qed.

End Totality.

Lemma convert_untyped refer_type maps sm x k :
  convert refer_type maps sm x = Some k → ext_type_key x = None →
  gmso.connection_type k = None.
Proof.
  intros (_ & _ & Hty)%convert_parts Hkey.
  unfold convert_type in Hty. rewrite Hkey in Hty. by injection Hty.
Qed.

(** C10.  A well-formed structure (the atoms of its connections are atoms
    of the structure, the types of its typed connections are in its type
    tables, and the element catalogue knows its atomic numbers) converts
    without an error, whether or not its connections carry types.  Every
    connection instance whose type reference is absent or not of the
    expected class becomes a connection of the topology, at the same
    position, of the class of the instance, with the sites of its atoms
    in order as members and with no connection type. *)
Theorem untyped_connections_convert `{ElementLibrary} s refer_type :
  atoms_present s → (refer_type = true → types_registered s) →
  elements_known s refer_type →
  ∃ c,
    from_parmed s refer_type = inr c ∧
    ∀ i x, ext_connections s !! i = Some x → ext_type_key x = None →
      ∃ k,
        gmso.connections (topology c) !! i = Some k ∧
        gmso.c_class k = ext_class x ∧
        mapM (λ a, final_site_map s !! a) (ext_atoms x)
          = Some (gmso.connection_members k) ∧
        gmso.connection_type k = None.
Proof.
  intros Hatoms Htypes Hknown.
  destruct (from_parmed_total s refer_type Hatoms Htypes Hknown) as [c Hc].
  exists c. split; [done|]. intros i x Hx Hkey.
  destruct (from_parmed_connection _ _ _ _ _ Hc Hx)
    as (maps & k & _ & Hk & Hconv).
  exists k. split; [done|].
  pose proof (convert_untyped _ _ _ _ _ Hconv Hkey).
  apply convert_parts in Hconv. tauto.
Qed.

(** ** One internal type per external type *)

Lemma filter_none {A} (P : A → Prop) `{∀ x, Decision (P x)} l :
  (∀ x, x ∈ l → ¬ P x) → filter P l = [].
Proof.
  induction l as [|x l IH]; intros Hno; [done|].
  rewrite filter_cons_False by (apply Hno; by left).
  apply IH. intros y Hy. apply Hno. by right.
Qed.

(** A dictionary has exactly one entry under a key it holds. *)
Lemma one_entry_per_key {K V} `{Countable K} (m : gmap K V) k v :
  m !! k = Some v →
  length (filter (λ e, e.1 = k) (map_to_list m)) = 1%nat.
Proof.
  intros Hk.
  rewrite <- (insert_delete_id m k v Hk).
  rewrite map_to_list_insert by apply lookup_delete_eq.
  rewrite filter_cons_True by done. simpl. f_equal.
  rewrite filter_none; [done|].
  intros [k' v'] Hin%elem_of_map_to_list Heq. simpl in Heq. subst k'.
  by rewrite lookup_delete_eq in Hin.
Qed.

Section Canonical.

Context `{ElementLibrary}.

Variables (s : pmd.Structure) (base : nat).

Lemma empty_bound (k : tkey) (i : nat) (b : nat) :
  (∅ : gmap tkey nat) !! k = Some i → (i < b)%nat.
Proof. by rewrite lookup_empty. Qed.

Lemma empty_inj (k1 k2 : tkey) (i : nat) :
  (∅ : gmap tkey nat) !! k1 = Some i → (∅ : gmap tkey nat) !! k2 = Some i →
  k1 = k2.
Proof. by rewrite lookup_empty. Qed.

(** No dictionary of connection types gives one address to two
    keys. *)
Lemma dictionary_inj d k1 k2 a :
  dictionary_of (forward_maps s base) d !! k1 = Some a →
  dictionary_of (forward_maps s base) d !! k2 = Some a → k1 = k2.
Proof.
  destruct d; simpl.
  - apply index_by_inj; [intros ??; apply empty_bound|apply empty_inj].
  - apply index_by_inj; [intros ??; apply empty_bound|apply empty_inj].
  - apply index_by_inj.
    + apply index_by_bound. intros ??; apply empty_bound.
    + apply index_by_inj; [intros ??; apply empty_bound|apply empty_inj].
  - apply index_by_inj.
    + apply index_by_bound. intros ??; apply empty_bound.
    + apply index_by_inj; [intros ??; apply empty_bound|apply empty_inj].
Qed.

Lemma atom_types_inj k1 k2 a :
  pmd_top_atomtypes (forward_maps s base) !! k1 = Some a →
  pmd_top_atomtypes (forward_maps s base) !! k2 = Some a → k1 = k2.
Proof.
  simpl. apply index_by_inj; [intros ??; apply empty_bound|apply empty_inj].
Qed.

(** Every address of a dictionary is that of a potential created for
    the connection types. *)
Lemma dictionary_bound d k a :
  dictionary_of (forward_maps s base) d !! k = Some a →
  (base + length (unique_atom_types ∅ (pmd.structure_atoms s)) ≤ a <
   base + length (unique_atom_types ∅ (pmd.structure_atoms s)) +
   length (connection_potentials s))%nat.
Proof.
  unfold connection_potentials. rewrite !length_app, !length_fmap.
  destruct d; simpl; intros Ha.
  - apply index_by_lookup in Ha as [[Ha _]|(x & Hx & _ & ?)];
      [by rewrite lookup_empty in Ha|].
    apply lookup_lt_Some in Hx. lia.
  - apply index_by_lookup in Ha as [[Ha _]|(x & Hx & _ & ?)];
      [by rewrite lookup_empty in Ha|].
    apply lookup_lt_Some in Hx. lia.
  - apply index_by_lookup in Ha as [[Ha _]|(x & Hx & _ & ?)].
    + apply index_by_lookup in Ha as [[Ha _]|(x & Hx & _ & ?)];
        [by rewrite lookup_empty in Ha|].
      apply lookup_lt_Some in Hx. lia.
    + apply lookup_lt_Some in Hx. lia.
  - apply index_by_lookup in Ha as [[Ha _]|(x & Hx & _ & ?)].
    + apply index_by_lookup in Ha as [[Ha _]|(x & Hx & _ & ?)];
        [by rewrite lookup_empty in Ha|].
      apply lookup_lt_Some in Hx. lia.
    + apply lookup_lt_Some in Hx. lia.
Qed.

End Canonical.

(** C1.  In a forward conversion with type transfer, the dictionaries
    from external types to internal types are built once; each one gives
    different addresses to different keys.  When two connection instances
    of the structure are looked up in the same dictionary under the same
    key (the same type object, or the same [id] for dihedral and
    Ryckaert-Bellemans types), the dictionary has exactly one entry under
    that key, and the two connections made from them refer to one and
    the same potential of the store. *)
Theorem type_map_canonical `{ElementLibrary} s c :
  from_parmed s true = inr c →
  ∃ maps st',
    build_type_maps s (boxed_state s) = inr (maps, st') ∧
    (∀ d k1 k2 a,
       dictionary_of maps d !! k1 = Some a →
       dictionary_of maps d !! k2 = Some a → k1 = k2) ∧
    (∀ i j x y key,
       ext_connections s !! i = Some x → ext_connections s !! j = Some y →
       ext_dictionary x = ext_dictionary y →
       ext_type_key x = Some key → ext_type_key y = Some key →
       ∃ a ki kj,
         dictionary_of maps (ext_dictionary x) !! key = Some a ∧
         length (filter (λ e, e.1 = key)
                   (map_to_list (dictionary_of maps (ext_dictionary x))))
           = 1%nat ∧
         is_Some (potentials c !! a) ∧
         gmso.connections (topology c) !! i = Some ki ∧
         gmso.connections (topology c) !! j = Some kj ∧
         gmso.connection_type ki = Some a ∧
         gmso.connection_type kj = Some a).
Proof.
  intros Hc.
  pose proof (from_parmed_parts _ _ _ Hc) as (maps & _ & _ & Hmaps & _).
  pose proof (build_type_maps_spec s (boxed_state s)) as Hbuild.
  unfold forward_types in Hmaps.
  destruct (mapM atom_potential _) as [ps|] eqn:Hps; [|done].
  injection Hmaps as <- Hpots. simpl in Hbuild.
  eexists _, _. split; [exact Hbuild|]. split; [apply dictionary_inj|].
  intros i j x y key Hx Hy Hd Hkx Hky.
  destruct (from_parmed_connection _ _ _ _ _ Hc Hx)
    as (maps1 & ki & Hm1 & Hki & Hci).
  destruct (from_parmed_connection _ _ _ _ _ Hc Hy)
    as (maps2 & kj & Hm2 & Hkj & Hcj).
  unfold forward_types in Hm1, Hm2. rewrite Hps in Hm1, Hm2.
  injection Hm1 as <- _. injection Hm2 as <- _.
  apply convert_parts in Hci as (_ & _ & Hti).
  apply convert_parts in Hcj as (_ & _ & Htj).
  unfold convert_type, ext_type_map in Hti, Htj.
  rewrite Hkx in Hti. rewrite Hky, <- Hd in Htj.
  destruct (dictionary_of _ (ext_dictionary x) !! key) as [a|] eqn:Ha;
    [|done].
  injection Hti as Hti. injection Htj as Htj.
  exists a, ki, kj. split; [done|]. split; [by eapply one_entry_per_key|].
  split; [|done].
  apply lookup_lt_is_Some. rewrite <- Hpots, length_app.
  apply mapM_Some_1, Forall2_length in Hps. rewrite <- Hps.
  apply dictionary_bound in Ha. lia.
Qed.

(** ** The reverse converter leaves the box alone once it is set *)

Section KeepsBox.

Context `{ExprMatcher} `{ElementLibrary}.

Lemma keeps_box_ret {A} (a : A) : keeps_box (ret a).
Proof. by intros st a' st' [= <- <-]. Qed.

Lemma keeps_box_raise {A} e : keeps_box (raise e : R A).
Proof. by intros st a' st'. Qed.

Lemma keeps_box_bind {A B} (m : R A) (k : A → R B) :
  keeps_box m → (∀ a, keeps_box (k a)) → keeps_box (bind m k).
Proof.
  intros Hm Hk st b st' (a & st1 & Hrun & Hrest)%bind_inr.
  rewrite (Hk _ _ _ _ Hrest). by eapply Hm.
Qed.

Lemma keeps_box_foldM {A B} (body : B → A → R B) b xs :
  (∀ b x, keeps_box (body b x)) → keeps_box (foldM body b xs).
Proof.
  intros Hbody. revert b. induction xs as [|x xs IH]; intros b; simpl.
  - apply keeps_box_ret.
  - apply keeps_box_bind; [apply Hbody|]. intros b'. apply IH.
Qed.

Lemma keeps_box_forM {A} (body : A → R unit) xs :
  (∀ x, keeps_box (body x)) → keeps_box (forM_ body xs).
Proof.
  intros Hbody. induction xs as [|x xs IH]; simpl.
  - apply keeps_box_ret.
  - apply keeps_box_bind; [apply Hbody|]. by intros _.
Qed.

Lemma keeps_box_get : keeps_box get.
Proof. by intros st a st' [= <- <-]. Qed.

Lemma keeps_box_fresh_id : keeps_box fresh_id.
Proof. by intros st a st' [= <- <-]. Qed.

Lemma keeps_box_on_structure f :
  (∀ s, pmd.box (f s) = pmd.box s) → keeps_box (on_structure f).
Proof. intros Hf st a st' [= <- <-]. apply Hf. Qed.

Ltac keeps :=
  repeat first
    [ apply keeps_box_ret
    | apply keeps_box_raise
    | apply keeps_box_get
    | apply keeps_box_fresh_id
    | apply keeps_box_on_structure; intros ?; reflexivity
    | apply keeps_box_bind; [|intros ?]
    | apply keeps_box_foldM; intros ? ?
    | apply keeps_box_forM; intros ?
    | progress unfold dict_get, deref, to_unit, to_unit_array, parameter_in,
        gmso.parameter, value_if_truthy, assert_, type_of_connection,
        set_dihedral_type
    | progress cbv zeta
    | match goal with
      | |- keeps_box (match ?x with _ => _ end) => destruct x
      | |- keeps_box (on_structure (match ?x with _ => _ end)) =>
          destruct x
      end ].

Lemma keeps_box_site_body atom_map site :
  keeps_box (site_body atom_map site).
Proof. unfold site_body. keeps. Qed.

Lemma keeps_box_bond_out atom_map bond_map bond :
  keeps_box (bond_out atom_map bond_map bond).
Proof. unfold bond_out. keeps. Qed.

Lemma keeps_box_angle_out atom_map angle_map angle :
  keeps_box (angle_out atom_map angle_map angle).
Proof. unfold angle_out. keeps. Qed.

Lemma keeps_box_dihedral_out potentials atom_map dihedral_map dihedral :
  keeps_box (dihedral_out potentials atom_map dihedral_map dihedral).
Proof. unfold dihedral_out. keeps. Qed.

Lemma keeps_box_atom_types potentials top atom_map :
  keeps_box (_atom_types_from_gmso potentials top atom_map).
Proof. unfold _atom_types_from_gmso. keeps. Qed.

Lemma keeps_box_bond_types potentials top bond_map :
  keeps_box (_bond_types_from_gmso potentials top bond_map).
Proof. unfold _bond_types_from_gmso. keeps. Qed.

Lemma keeps_box_angle_types potentials top angle_map :
  keeps_box (_angle_types_from_gmso potentials top angle_map).
Proof. unfold _angle_types_from_gmso. keeps. Qed.

Lemma keeps_box_dihedral_types potentials top dihedral_map :
  keeps_box (_dihedral_types_from_gmso potentials top dihedral_map).
Proof.
  unfold _dihedral_types_from_gmso, dihedral_type_record. keeps.
Qed.

(** The box array of the structure is the one of the box of the
    topology. *)
Lemma to_parmed_box top potentials refer_type s :
  to_parmed top potentials refer_type = inr s →
  pmd.box s = gmso.box top ≫= box_array_of.
Proof.
  unfold to_parmed, to_parmed_steps.
  destruct (bind _ _ _) as [e|[[] st]] eqn:Hrun; [done|].
  intros [= <-].
  apply bind_inr in Hrun as ([] & st1 & Htitle & Hrun).
  apply bind_inr in Hrun as ([] & st2 & Hbox & Hrun).
  assert (pmd.box (structure_ st2) = gmso.box top ≫= box_array_of) as <-.
  { injection Htitle as <-. destruct (gmso.box top) as [b|]; simpl.
    - unfold box_array, box_array_of, to_unit_array, bind, ret, raise,
        on_structure, modify in *.
      destruct b as [[l ul] [a ua]]; simpl in *.
      destruct (unit_factor ul angstrom); simpl in *; [|done].
      destruct (unit_factor ua degree); simpl in *; [|done].
      by injection Hbox as <-.
    - by injection Hbox as <-. }
  cbv beta in Hrun.
  match type of Hrun with
  | ?m st2 = _ => enough (keeps_box m) as Hk by exact (Hk _ _ _ Hrun)
  end.
  clear.
  apply keeps_box_bind;
    [apply keeps_box_foldM, keeps_box_site_body|intros atom_map].
  apply keeps_box_bind;
    [apply keeps_box_foldM, keeps_box_bond_out|intros bond_map].
  apply keeps_box_bind;
    [apply keeps_box_foldM, keeps_box_angle_out|intros angle_map].
  apply keeps_box_bind;
    [apply keeps_box_foldM, keeps_box_dihedral_out|intros dihedral_map].
  destruct refer_type; [|apply keeps_box_ret].
  apply keeps_box_bind; [|intros _].
  { destruct (negb _); [apply keeps_box_atom_types|apply keeps_box_ret]. }
  apply keeps_box_bind; [|intros _].
  { destruct (negb _); [apply keeps_box_bond_types|apply keeps_box_ret]. }
  apply keeps_box_bind; [|intros _].
  { destruct (negb _); [apply keeps_box_angle_types|apply keeps_box_ret]. }
  destruct (negb _); [apply keeps_box_dihedral_types|apply keeps_box_ret].
Qed.

End KeepsBox.

(** C8.  A topology whose box has lengths [2, 2, 2] nm and angles
    [90, 90, 90] degrees converts to a structure with the box array
    [20, 20, 20, 90, 90, 90] (angstrom, degrees), and that structure
    converts back to a topology whose box has lengths in nanometres and
    angles in degrees equal to [2, 2, 2] and [90, 90, 90], hence within
    the relative tolerance of one in a million. *)
Theorem box_round_trip `{ExprMatcher} `{ElementLibrary}
    top potentials refer_type s refer_type' c :
  gmso.box top = Some cube_2nm →
  to_parmed top potentials refer_type = inr s →
  from_parmed s refer_type' = inr c →
  pmd.box s = Some cube_20_angstrom ∧
  ∃ bx,
    gmso.box (topology c) = Some bx ∧
    (gmso.lengths bx).2 = nm ∧ (gmso.angles bx).2 = degree ∧
    allclose (1 # 1000000) (gmso.lengths bx).1 [2; 2; 2]%Q ∧
    allclose (1 # 1000000) (gmso.angles bx).1 [90; 90; 90]%Q ∧
    bx = cube_2nm.
Proof.
  intros Hbox Hto Hfrom.
  apply to_parmed_box in Hto. rewrite Hbox in Hto.
  change (pmd.box s = Some cube_20_angstrom) in Hto.
  split; [done|]. exists cube_2nm.
  rewrite (from_parmed_box _ _ _ Hfrom). unfold box_for. rewrite Hto.
  split; [done|]. split; [done|]. split; [done|].
  split; [|split; [|done]]; repeat constructor; by vm_compute.
Qed.

(** ** The reverse converter and the catalogue of expressions *)

Section Catalogue.

Context `{ExprMatcher}.

(** The interpretation under which the cosine is constantly one, and
    the assignment that gives [k] the value one and every other symbol
    the value zero. *)
Lemma constant_one_cosine_like : cosine_like (λ _, 1%Q).
Proof. by split; [|split]. Qed.

Lemma periodic_not_squared :
  expr_match Forms.periodic_torsion Forms.periodic_torsion_squared = false.
Proof.
  destruct (expr_match _ _) eqn:Hm; [|done].
  apply expr_match_sound in Hm.
  specialize (Hm (λ _, 1%Q) (λ s, if decide (s = "k") then 1%Q else 0%Q)
                _ _ constant_one_cosine_like eq_refl eq_refl).
  by vm_compute in Hm.
Qed.

Lemma periodic_not_ryckaert_bellemans :
  expr_match Forms.periodic_torsion Forms.ryckaert_bellemans = false.
Proof.
  destruct (expr_match _ _) eqn:Hm; [|done].
  apply expr_match_sound in Hm.
  specialize (Hm (λ _, 1%Q) (λ s, if decide (s = "k") then 1%Q else 0%Q)
                _ _ constant_one_cosine_like eq_refl eq_refl).
  by vm_compute in Hm.
Qed.

Lemma matches_periodic_only e other :
  expr_match e Forms.periodic_torsion = true →
  expr_match Forms.periodic_torsion other = false →
  expr_match e other = false.
Proof.
  intros He Hother. destruct (expr_match e other) eqn:Hm; [|done].
  rewrite expr_match_sym in He.
  by rewrite (expr_match_trans _ _ _ He Hm) in Hother.
Qed.

(** A dihedral type that matches neither accepted form is refused with
    the message [msg], whatever its name. *)
Lemma unmatched_dihedral_type dihedral_type st :
  expr_match (gmso.expression dihedral_type)
    Forms.periodic_torsion_squared = false →
  expr_match (gmso.expression dihedral_type)
    Forms.ryckaert_bellemans = false →
  dihedral_type_record dihedral_type st = inl (GMSOError "msg").
Proof. unfold dihedral_type_record. by intros -> ->. Qed.

End Catalogue.

(** C2 (the claim fails on the code).  A dihedral type whose expression
    matches the periodic torsion form [k * (1 + cos(n * phi - phi_eq))]
    is refused by the emission step: the step raises the error of an
    incompatible format instead of emitting a periodic dihedral type
    record, because it compares against the square of the periodic
    form. *)
Theorem periodic_torsion_refused `{ExprMatcher} dihedral_type st :
  expr_match (gmso.expression dihedral_type) Forms.periodic_torsion = true →
  dihedral_type_record dihedral_type st = inl (GMSOError "msg").
Proof.
  intros Hm. apply unmatched_dihedral_type.
  - by apply matches_periodic_only, periodic_not_squared.
  - by apply matches_periodic_only, periodic_not_ryckaert_bellemans.
Qed.

(** The sibling step for atom types names the offending type in its
    error. *)
Lemma atom_type_error_lists_name `{ExprMatcher} `{ElementLibrary}
    potentials top atom_map a rest atom_type st :
  gmso.atom_types top = a :: rest →
  potentials !! a = Some atom_type →
  expr_match (gmso.expression atom_type) Forms.lennard_jones_expanded
    = false →
  _atom_types_from_gmso potentials top atom_map st =
  inl (AssertionError
         ("Atom type " +:+ gmso.p_name atom_type +:+
          " expression does not match Parmed AtomType default expression")).
Proof.
  intros Htypes Ha Hm. unfold _atom_types_from_gmso. rewrite Htypes.
  simpl. unfold bind, deref, assert_, raise, ret. by rewrite Ha, Hm.
Qed.

(** The step for dihedral types raises on the first type outside the
    catalogue, and its error carries the fixed text [msg]. *)
Lemma dihedral_type_error_is_fixed `{ExprMatcher} `{ElementLibrary}
    potentials top dihedral_map a rest dihedral_type st :
  gmso.connection_types gmso.Dihedral top = a :: rest →
  potentials !! a = Some dihedral_type →
  expr_match (gmso.expression dihedral_type)
    Forms.periodic_torsion_squared = false →
  expr_match (gmso.expression dihedral_type)
    Forms.ryckaert_bellemans = false →
  _dihedral_types_from_gmso potentials top dihedral_map st =
  inl (GMSOError "msg").
Proof.
  intros Htypes Ha Hsq Hrb. unfold _dihedral_types_from_gmso.
  rewrite Htypes. simpl. unfold bind, deref, ret. rewrite Ha.
  by rewrite unmatched_dihedral_type.
Qed.

(** C3 (the claim fails on the code).  Reverse conversion with type
    transfer of a topology whose one dihedral type, named [HC-CT-CT-HC],
    has an expression outside the catalogue aborts with an error whose
    message is the fixed text [msg]: the message does not list the name
    of the offending type. *)
Theorem odd_dihedral_error_omits_name :
  to_parmed (H := structural_matcher) (H0 := sample_library)
    Example.odd_topology [Example.odd_dihedral_type] true
  = inl (GMSOError "msg") ∧
  lists_name "msg" (gmso.p_name Example.odd_dihedral_type) = false.
Proof. by vm_compute. Qed.

(** ** Checking well-formedness by computation *)

Section Reflection.

Context `{ElementLibrary}.

Lemma atoms_presentb_sound s : atoms_presentb s = true → atoms_present s.
Proof.
  unfold atoms_presentb, atoms_present. rewrite forallb_forall.
  intros Hall x a Hx%list_elem_of_In Ha%list_elem_of_In.
  specialize (Hall x Hx). rewrite forallb_forall in Hall.
  specialize (Hall a Ha). apply existsb_exists in Hall as (atom & Hin & Hid).
  exists atom. split; [by apply list_elem_of_In|].
  by apply bool_decide_eq_true in Hid.
Qed.

Lemma existsb_id {A} (f : A → nat) (l : list A) n :
  existsb (λ x, bool_decide (f x = n)) l = true → ∃ x, x ∈ l ∧ f x = n.
Proof.
  intros (x & Hin & Hid)%existsb_exists. exists x.
  split; [by apply list_elem_of_In|]. by apply bool_decide_eq_true in Hid.
Qed.

Lemma registeredb_sound s x : registeredb s x = true → registered s x.
Proof.
  destruct x as [b|a|d|d|i]; simpl.
  - destruct (pmd.b_type b); try done. apply existsb_id.
  - destruct (pmd.a_type a); try done. apply existsb_id.
  - destruct (pmd.d_type d); try done. apply existsb_id.
  - destruct (pmd.d_type d); try done. apply existsb_id.
  - destruct (pmd.i_type i); try done. apply existsb_id.
Qed.

Lemma types_registeredb_sound s :
  types_registeredb s = true → types_registered s.
Proof.
  unfold types_registeredb, types_registered. rewrite forallb_forall.
  intros Hall x Hx%list_elem_of_In. by apply registeredb_sound, Hall.
Qed.

Lemma knownb_sound n :
  knownb n = true → n ≠ 0%Z → ∃ e, element_by_atomic_number n = inr e.
Proof.
  unfold knownb. intros [Hz|He]%orb_true_iff Hn.
  - by apply bool_decide_eq_true in Hz.
  - destruct (element_by_atomic_number n); [done|by eauto].
Qed.

Lemma elements_knownb_sound s refer_type :
  elements_knownb s = true → elements_known s refer_type.
Proof.
  unfold elements_knownb, elements_known. rewrite forallb_forall.
  intros Hall. split.
  - intros a Ha%list_elem_of_In Hn.
    apply Hall, andb_true_iff in Ha as [Hk _]. by apply knownb_sound.
  - intros _ a t Ha%list_elem_of_In Hty Hn.
    apply Hall, andb_true_iff in Ha as [_ Hk]. rewrite Hty in Hk.
    by apply knownb_sound.
Qed.

End Reflection.

(** ** The theorems at work on the examples *)

(** In [butane] the two proper dihedrals, at positions 3 and 4 of the
    topology, refer to the same potential. *)
Lemma type_map_canonical_witness :
  from_parmed (H := sample_library) Example.butane true
    = inr Example.butane_converted ∧
  ∃ a ki kj,
    gmso.connections (topology Example.butane_converted) !! 3%nat = Some ki ∧
    gmso.connections (topology Example.butane_converted) !! 4%nat = Some kj ∧
    gmso.connection_type ki = Some a ∧ gmso.connection_type kj = Some a.
Proof.
  split; [by vm_compute|].
  destruct (type_map_canonical (H := sample_library) Example.butane
              Example.butane_converted) as (maps & st' & _ & _ & Hshare).
  { by vm_compute. }
  destruct (Hshare 3%nat 4%nat
              (EDihedral (Example.dihedral 4 2 3 1 false
                            (pmd.ODihedralType Example.periodic)))
              (EDihedral (Example.dihedral 1 3 2 4 false
                            (pmd.ODihedralType Example.periodic)))
              (ById 50))
    as (a & ki & kj & _ & _ & _ & Hi & Hj & Hti & Htj);
    [reflexivity..|].
  by exists a, ki, kj.
Defined.

(** In [butane] the improper periodic dihedral becomes the Improper at
    position 2, with the site of its first atom first. *)
Lemma periodic_improper_keeps_order_witness :
  from_parmed (H := sample_library) Example.butane true
    = inr Example.butane_converted ∧
  ∃ k m1 m2 m3 m4 a site,
    gmso.connections (topology Example.butane_converted) !! 2%nat = Some k ∧
    gmso.c_class k = gmso.Improper ∧
    gmso.connection_members k = [m1; m2; m3; m4] ∧
    final_site_map Example.butane !! 1%nat = Some m1 ∧
    final_site_map Example.butane !! 2%nat = Some m2 ∧
    final_site_map Example.butane !! 3%nat = Some m3 ∧
    final_site_map Example.butane !! 4%nat = Some m4 ∧
    pmd.structure_atoms Example.butane !! m1 = Some a ∧
    pmd.atom_id a = 1%nat ∧
    gmso.sites (topology Example.butane_converted) !! m1 = Some site ∧
    gmso.s_name site = pmd.name a.
Proof.
  split; [by vm_compute|].
  apply (periodic_improper_keeps_order (H := sample_library) Example.butane
           true Example.butane_converted 0
           (Example.dihedral 1 2 3 4 true
              (pmd.ODihedralType Example.periodic)));
    by vm_compute.
Defined.

(** In [butane] the improper Ryckaert-Bellemans torsion becomes the
    Dihedral at position 5, and the warning about it is issued. *)
Lemma rb_improper_becomes_dihedral_witness :
  from_parmed (H := sample_library) Example.butane true
    = inr Example.butane_converted ∧
  ∃ k,
    gmso.connections (topology Example.butane_converted) !! 5%nat = Some k ∧
    gmso.c_class k = gmso.Dihedral ∧
    RBImproperWarning
      (Example.dihedral 1 2 3 4 true (pmd.ORBTorsionType Example.rb))
      ∈ issued Example.butane_converted.
Proof.
  split; [by vm_compute|].
  destruct (rb_improper_becomes_dihedral (H := sample_library) Example.butane
              true Example.butane_converted 0
              (Example.dihedral 1 2 3 4 true
                 (pmd.ORBTorsionType Example.rb)))
    as (k & Hk & Hclass & _ & Hwarn & _); [by vm_compute..|].
  by exists k.
Defined.

(** The residues of [butane] pass the check and its sites carry a
    molecule label. *)
Lemma molecule_label_iff_check_witness :
  from_parmed (H := sample_library) Example.butane true
    = inr Example.butane_converted ∧
  ((∀ site, site ∈ gmso.sites (topology Example.butane_converted) →
      is_Some (gmso.molecule site)) ↔
   _check_independent_residues Example.butane = true).
Proof.
  split; [by vm_compute|].
  apply (molecule_label_iff_check (H := sample_library) Example.butane true
           Example.butane_converted).
  by vm_compute.
Defined.

(** C6, as stated, fails.  In [two_pairs] the one residue is not a
    connected subgraph of the bond graph, yet every site carries a
    molecule label; in [loose_atom] no bond crosses a residue boundary,
    yet no site carries a molecule label. *)
Lemma molecule_label_counterexample :
  ¬ (∀ s c, from_parmed (H := sample_library) s true = inr c →
       (Forall (λ site, is_Some (gmso.molecule site))
          (gmso.sites (topology c)) ↔
        Wording.independent_connected s = true)) ∧
  ¬ (∀ s c, from_parmed (H := sample_library) s true = inr c →
       (Forall (λ site, is_Some (gmso.molecule site))
          (gmso.sites (topology c)) ↔
        Wording.no_bond_crosses s = true)).
Proof.
  split; intros Hclaim.
  - destruct (Hclaim Example.two_pairs Example.two_pairs_converted)
      as [Hlabelled _]; [by vm_compute|].
    assert (Wording.independent_connected Example.two_pairs = true) as Habs.
    { apply Hlabelled. repeat constructor; by eexists. }
    by vm_compute in Habs.
  - destruct (Hclaim Example.loose_atom Example.loose_atom_converted)
      as [_ Hlabelled]; [by vm_compute|].
    assert (Forall (λ site, is_Some (gmso.molecule site))
              (gmso.sites (topology Example.loose_atom_converted))) as Habs.
    { apply Hlabelled. by vm_compute. }
    apply Forall_cons in Habs as [[l Hl] _]. by vm_compute in Hl.
Qed.

(** In [butane] the third dihedral has the key of the second, which is
    already recorded: the dictionary is left as it was. *)
Lemma get_types_map_first_wins_witness :
  members_of Example.butane "dihedrals"
    = Some (MemDihedral <$> pmd.dihedrals Example.butane) ∧
  foldl (types_map_step Example.butane false) ∅
    (take 3 (MemDihedral <$> pmd.dihedrals Example.butane)) =
  foldl (types_map_step Example.butane false) ∅
    (take 2 (MemDihedral <$> pmd.dihedrals Example.butane)).
Proof.
  split; [reflexivity|].
  destruct (get_types_map_first_wins Example.butane "dihedrals" false
              (MemDihedral <$> pmd.dihedrals Example.butane) 2
              (MemDihedral (Example.dihedral 1 3 2 4 false
                              (pmd.ODihedralType Example.periodic))))
    as (final & _ & _ & Hdropped & _); [reflexivity..|].
  apply Hdropped. intros [Hfree _]. by vm_compute in Hfree.
Defined.

(** The box of [boxed] goes to the structure and comes back. *)
Lemma box_round_trip_witness :
  gmso.box Example.boxed = Some cube_2nm ∧
  pmd.box Example.boxed_structure = Some cube_20_angstrom ∧
  gmso.box (topology Example.boxed_converted) = Some cube_2nm.
Proof.
  split; [reflexivity|].
  destruct (box_round_trip (H := structural_matcher) (H0 := sample_library)
              Example.boxed [] true Example.boxed_structure true
              Example.boxed_converted)
    as (Hbox & bx & Hbx & _ & _ & _ & _ & ->); [by vm_compute..|].
  by split.
Defined.

(** [flat] has a box array with a zero: its topology has no box. *)
Lemma from_parmed_box_needs_nonzero_witness :
  from_parmed (H := sample_library) Example.flat true
    = inr Example.flat_converted ∧
  gmso.box (topology Example.flat_converted) = None.
Proof.
  split; [by vm_compute|].
  destruct (from_parmed_box_needs_nonzero (H := sample_library) Example.flat
              true Example.flat_converted) as [Hzero _]; [by vm_compute|].
  apply (Hzero [20; 20; 0; 90; 90; 90]%Q 0%Q); [reflexivity| |reflexivity].
  set_solver.
Defined.

(** [butane] is well formed; its two bonds, one without a type and one
    with a type of another class, become bonds without a type. *)
Lemma untyped_connections_convert_witness :
  ∃ c,
    from_parmed (H := sample_library) Example.butane true = inr c ∧
    ∀ i x, ext_connections Example.butane !! i = Some x →
      ext_type_key x = None →
      ∃ k,
        gmso.connections (topology c) !! i = Some k ∧
        gmso.c_class k = ext_class x ∧
        mapM (λ a, final_site_map Example.butane !! a) (ext_atoms x)
          = Some (gmso.connection_members k) ∧
        gmso.connection_type k = None.
Proof.
  apply (untyped_connections_convert (H := sample_library) Example.butane
           true).
  - apply atoms_presentb_sound. by vm_compute.
  - intros _. apply types_registeredb_sound. by vm_compute.
  - apply elements_knownb_sound. by vm_compute.
Defined.

(** The dihedral type the forward converter makes from a periodic
    dihedral type is refused on the way back. *)
Lemma periodic_torsion_refused_witness :
  expr_match (ExprMatcher := structural_matcher)
    (gmso.expression (top_dihedraltype ∅ Example.periodic))
    Forms.periodic_torsion = true ∧
  dihedral_type_record (H := structural_matcher)
    (top_dihedraltype ∅ Example.periodic)
    {| structure_ := pmd.empty; next_id := 1 |}
  = inl (GMSOError "msg").
Proof.
  split; [reflexivity|].
  apply (periodic_torsion_refused (H := structural_matcher)). reflexivity.
Defined.

(** * Further properties of the converters *)

(** ** Sites of a forward conversion *)

Lemma site_for_fields `{ElementLibrary} refer_type ind_res maps r atom site :
  site_for refer_type ind_res maps (r, atom) = Some site →
  gmso.s_name site = pmd.name atom ∧
  gmso.position site =
    ([pmd.xx atom; pmd.xy atom; pmd.xz atom], angstrom) ∧
  gmso.charge site = Some (Quantity (pmd.charge atom) elementary_charge) ∧
  gmso.mass site = None ∧
  (if Qtruthy (inject_Z (pmd.element atom))
   then ∃ e, element_by_atomic_number (pmd.element atom) = inr e ∧
             gmso.element site = Some e
   else gmso.element site = None).
Proof.
  unfold site_for.
  destruct (Qtruthy (inject_Z (pmd.element atom))).
  - destruct (element_by_atomic_number (pmd.element atom)) as [|e]; [done|].
    destruct (match pmd.atom_type atom with pmd.PyNone => _ | _ => _ end);
      [|done].
    intros [= <-]. simpl. by eauto 10.
  - destruct (match pmd.atom_type atom with pmd.PyNone => _ | _ => _ end);
      [|done].
    by intros [= <-].
Qed.

(** X1.  A forward conversion that returns makes one site per atom of the
    structure, in the order of the atoms: the site at position [i] has
    the name of the atom at position [i], its coordinates as a position
    in angstrom, its charge in elementary charges, no mass of its own,
    and the element the catalogue gives for its atomic number (none when
    the atomic number is zero). *)
Theorem from_parmed_sites `{ElementLibrary} s refer_type c :
  from_parmed s refer_type = inr c →
  length (gmso.sites (topology c)) = length (pmd.structure_atoms s) ∧
  ∀ i atom, pmd.structure_atoms s !! i = Some atom →
    ∃ site,
      gmso.sites (topology c) !! i = Some site ∧
      gmso.s_name site = pmd.name atom ∧
      gmso.position site =
        ([pmd.xx atom; pmd.xy atom; pmd.xz atom], angstrom) ∧
      gmso.charge site =
        Some (Quantity (pmd.charge atom) elementary_charge) ∧
      gmso.mass site = None ∧
      (if Qtruthy (inject_Z (pmd.element atom))
       then ∃ e, element_by_atomic_number (pmd.element atom) = inr e ∧
                 gmso.element site = Some e
       else gmso.element site = None).
Proof.
  intros (maps & ss & ks & _ & Hss & _ & -> & _)%from_parmed_parts. simpl.
  apply mapM_Some_1 in Hss. split.
  - rewrite <- (Forall2_length _ _ _ Hss), <- labelled_atoms_snd.
    by rewrite length_fmap.
  - intros i atom Hi.
    rewrite <- labelled_atoms_snd, list_lookup_fmap in Hi.
    destruct (labelled_atoms s !! i) as [[r a]|] eqn:Hra; [|done].
    injection Hi as <-.
    destruct (Forall2_lookup_l _ _ _ _ _ Hss Hra) as (site & Hsite & Hfor).
    exists site. split; [done|]. by eapply site_for_fields.
Qed.

(** ** Connections and warnings of a forward conversion *)

Lemma bind_no_warning {A} (f : A → list warning) (l : list A) :
  (∀ x, f x = []) → l ≫= f = [].
Proof.
  intros Hf. induction l as [|x l IH]; [done|].
  by rewrite bind_cons, IH, Hf.
Qed.

Lemma bind_flagged (f : pmd.Dihedral → list warning)
    (w : pmd.Dihedral → warning) l :
  (∀ d, f d = if pmd.improper d then [w d] else []) →
  l ≫= f = w <$> filter (λ d, pmd.improper d = true) l.
Proof.
  intros Hf. induction l as [|d l IH]; [done|]. rewrite bind_cons, IH, Hf.
  destruct (pmd.improper d) eqn:Hd.
  - by rewrite filter_cons_True.
  - rewrite filter_cons_False; [done|]. by rewrite Hd.
Qed.

(** X2.  A forward conversion that returns makes one connection per
    connection instance of the structure (bonds, then angles, dihedrals,
    Ryckaert-Bellemans torsions and impropers), each of the class of its
    instance, and issues exactly one warning per dihedral flagged
    improper followed by one per Ryckaert-Bellemans torsion flagged
    improper, in the order of the structure. *)
Theorem from_parmed_connections `{ElementLibrary} s refer_type c :
  from_parmed s refer_type = inr c →
  length (gmso.connections (topology c)) =
    (length (pmd.bonds s) + length (pmd.angles s) +
     length (pmd.dihedrals s) + length (pmd.rb_torsions s) +
     length (pmd.impropers s))%nat ∧
  Forall2 (λ x k, gmso.c_class k = ext_class x)
    (ext_connections s) (gmso.connections (topology c)) ∧
  issued c =
    (PeriodicImproperWarning
       <$> filter (λ d, pmd.improper d = true) (pmd.dihedrals s)) ++
    (RBImproperWarning
       <$> filter (λ d, pmd.improper d = true) (pmd.rb_torsions s)).
Proof.
  intros (maps & ss & ks & _ & _ & Hks & -> & ->)%from_parmed_parts. simpl.
  apply mapM_Some_1 in Hks. split; [|split].
  - rewrite <- (Forall2_length _ _ _ Hks). unfold ext_connections.
    rewrite !length_app, !length_fmap. lia.
  - eapply Forall2_impl; [exact Hks|].
    intros x k Hconv. by apply convert_parts in Hconv as (? & _).
  - unfold ext_connections. rewrite !bind_app, !list_fmap_bind.
    rewrite (bind_no_warning (ext_warning ∘ EBond)) by done.
    rewrite (bind_no_warning (ext_warning ∘ EAngle)) by done.
    rewrite (bind_no_warning (ext_warning ∘ EImproper)) by done.
    rewrite app_nil_r. simpl.
    rewrite (bind_flagged (ext_warning ∘ EDihedral) PeriodicImproperWarning)
      by done.
    by rewrite (bind_flagged (ext_warning ∘ ERBTorsion) RBImproperWarning).
Qed.

(** X3.  Without type transfer a forward conversion creates no
    potential: the store is empty, no site has an atom type and no
    connection has a connection type. *)
Theorem from_parmed_without_types `{ElementLibrary} s c :
  from_parmed s false = inr c →
  potentials c = [] ∧
  Forall (λ site, gmso.atom_type site = None) (gmso.sites (topology c)) ∧
  Forall (λ k, gmso.connection_type k = None)
    (gmso.connections (topology c)).
Proof.
  intros (maps & ss & ks & Hmaps & Hss & Hks & -> & _)%from_parmed_parts.
  simpl. injection Hmaps as <- <-. split; [done|].
  apply mapM_Some_1 in Hss. apply mapM_Some_1 in Hks. split.
  - apply Forall_forall. intros site [i Hi]%list_elem_of_lookup.
    destruct (Forall2_lookup_r _ _ _ _ _ Hss Hi) as ([r a] & _ & Hfor).
    unfold site_for in Hfor.
    destruct (if Qtruthy _ then _ else _); [|done].
    destruct (pmd.atom_type a); by injection Hfor as <-.
  - apply Forall_forall. intros k [i Hi]%list_elem_of_lookup.
    destruct (Forall2_lookup_r _ _ _ _ _ Hks Hi) as (x & _ & Hconv).
    apply convert_parts in Hconv as (_ & _ & Hty).
    unfold convert_type in Hty. destruct (ext_type_key x); by injection Hty.
Qed.

(** ** Failed lookups *)

Lemma from_parmed_raises_on `{ElementLibrary} s refer_type x :
  x ∈ ext_connections s →
  (∀ maps pots, forward_types s refer_type = Some (maps, pots) →
     convert refer_type maps (final_site_map s) x = None) →
  ∃ e, from_parmed s refer_type = inl e.
Proof.
  intros Hx Hnone. pose proof (from_parmed_forward s refer_type) as Hf.
  destruct (forward s refer_type) as [c|] eqn:Hfwd; [|done].
  apply forward_parts in Hfwd as (maps & ss & ks & Hmaps & _ & Hks & _).
  pose proof (Hnone _ _ Hmaps) as Hconv.
  apply mapM_Some_1 in Hks. apply list_elem_of_lookup in Hx as [i Hi].
  destruct (Forall2_lookup_l _ _ _ _ _ Hks Hi) as (k & _ & Hk). congruence.
Qed.

(** X4.  With type transfer, a bond whose type is a bond type that is
    not in the table of bond types of the structure makes the forward
    conversion raise: the dictionary of bond types has no entry for
    it. *)
Theorem from_parmed_unregistered_bond_type `{ElementLibrary} s b t :
  b ∈ pmd.bonds s →
  pmd.b_type b = pmd.OBondType t →
  (∀ t', t' ∈ pmd.bond_types s → pmd.bt_id t' ≠ pmd.bt_id t) →
  ∃ e, from_parmed s true = inl e.
Proof.
  intros Hb Hty Hnot. apply (from_parmed_raises_on s true (EBond b)).
  - unfold ext_connections. apply elem_of_app. left.
    by apply list_elem_of_fmap_2.
  - intros maps pots Hmaps. unfold forward_types in Hmaps.
    destruct (mapM atom_potential _); [|done]. injection Hmaps as <- _.
    unfold convert. destruct (mapM _ _); [|done].
    unfold convert_type, ext_type_map. simpl. rewrite Hty.
    destruct (index_by _ _ (pmd.bond_types s) ∅ !! _) as [a|] eqn:Ha;
      [|done].
    apply index_by_lookup in Ha as [[Ha _]|(t' & Ht' & Hid & _)];
      [by rewrite lookup_empty in Ha|].
    destruct (Hnot t'); [by eapply list_elem_of_lookup_2|congruence].
Qed.

(** X5.  A connection instance one of whose atoms is not an atom of a
    residue of the structure makes the forward conversion raise, with or
    without type transfer: the dictionary from atoms to sites has no
    entry for the atom. *)
Theorem from_parmed_foreign_atom `{ElementLibrary} s refer_type x a :
  x ∈ ext_connections s →
  a ∈ ext_atoms x →
  (∀ atom, atom ∈ pmd.structure_atoms s → pmd.atom_id atom ≠ a) →
  ∃ e, from_parmed s refer_type = inl e.
Proof.
  intros Hx Ha Hnot. apply (from_parmed_raises_on s refer_type x Hx).
  intros maps pots _. unfold convert.
  destruct (mapM _ (ext_atoms x)) as [ms|] eqn:Hms; [|done].
  apply mapM_Some_1 in Hms. apply list_elem_of_lookup in Ha as [i Hi].
  destruct (Forall2_lookup_l _ _ _ _ _ Hms Hi) as (m & _ & Hm).
  apply index_by_lookup in Hm as [[Hm _]|(atom & Hatom & Hid & _)];
    [by rewrite lookup_empty in Hm|].
  destruct (Hnot atom); [by eapply list_elem_of_lookup_2|done].
Qed.

(** ** The member-types dictionaries *)

Lemma types_map_step_entries s impropers (P : mkey → pyval → Prop) tm m :
  (∀ k v, tm !! k = Some v → P k v) →
  (∀ k mt, _get_member_types_map_for s m impropers = (k, mt) →
           py_all mt = true → P k (VMembers mt)) →
  ∀ k v, types_map_step s impropers tm m !! k = Some v → P k v.
Proof.
  intros Htm Hm k v. unfold types_map_step.
  destruct (_get_member_types_map_for s m impropers) as [k' mt] eqn:Hfor.
  destruct (bool_decide _ && py_all mt) eqn:Hc; [|by apply Htm].
  apply andb_true_iff in Hc as [_ Hall].
  destruct (decide (k' = k)) as [->|Hne].
  - rewrite lookup_insert_eq. intros [= <-]. by apply Hm.
  - rewrite lookup_insert_ne by done. by apply Htm.
Qed.

Lemma types_map_entries s impropers (P : mkey → pyval → Prop) ms :
  (∀ m k mt, m ∈ ms → _get_member_types_map_for s m impropers = (k, mt) →
             py_all mt = true → P k (VMembers mt)) →
  ∀ tm, (∀ k v, tm !! k = Some v → P k v) →
  ∀ k v, foldl (types_map_step s impropers) tm ms !! k = Some v → P k v.
Proof.
  induction ms as [|m ms IH]; intros Hms tm Htm; [done|]. simpl.
  apply IH.
  - intros m' k mt Hm'. apply Hms. by right.
  - apply types_map_step_entries; [done|]. intros k mt. apply Hms. by left.
Qed.

Lemma member_key_is_id s m impropers k mt :
  _get_member_types_map_for s m impropers = (k, mt) →
  py_all mt = true → ∃ i, k = KId i.
Proof.
  destruct m as [a|b|a|d|i]; simpl.
  - intros [= <- _] _. by eauto.
  - intros [= <- _] _. by eauto.
  - intros [= <- _] _. by eauto.
  - destruct impropers, (pmd.improper d); simpl; intros [= <- <-] Hall;
      by eauto.
  - destruct impropers; simpl; intros [= <- <-] Hall; by eauto.
Qed.

(** X6.  The member-types dictionary of the impropers, built as the
    forward conversion builds it (without the improper flag), is empty
    whatever the structure holds: an Improper instance is answered with
    the key None and the labels (None, None), which the loop never
    records. *)
Theorem get_types_map_impropers_empty {S} s (st : S) :
  _get_types_map s "impropers" false st = inr (∅, st).
Proof.
  unfold _get_types_map. simpl. unfold ret. do 2 f_equal.
  induction (pmd.impropers s) as [|i l IH]; [done|]. by rewrite fmap_cons.
Qed.

(** X7.  Every entry of a member-types dictionary was read off a member
    of the requested collection: its key is the identity of an object
    (never the key None), its value the labels of that member, and all
    of these labels are non-empty. *)
Theorem get_types_map_entries {S} s attr impropers (st st' : S) tm k v :
  _get_types_map s attr impropers st = inr (tm, st') →
  tm !! k = Some v →
  ∃ members m mt i,
    members_of s attr = Some members ∧ m ∈ members ∧
    _get_member_types_map_for s m impropers = (k, mt) ∧
    k = KId i ∧ v = VMembers mt ∧ py_all mt = true.
Proof.
  unfold _get_types_map.
  destruct (members_of s attr) as [members|]; [|done].
  intros [= <- _] Hk.
  enough (∃ m mt i, m ∈ members ∧
            _get_member_types_map_for s m impropers = (k, mt) ∧
            k = KId i ∧ v = VMembers mt ∧ py_all mt = true)
    as (m & mt & i & ?) by by exists members, m, mt, i.
  revert k v Hk.
  apply (types_map_entries s impropers
           (λ k v, ∃ m mt i, m ∈ members ∧
              _get_member_types_map_for s m impropers = (k, mt) ∧
              k = KId i ∧ v = VMembers mt ∧ py_all mt = true) members).
  - intros m k mt Hm Hfor Hall.
    destruct (member_key_is_id _ _ _ _ _ Hfor Hall) as [i ->].
    by exists m, mt, i.
  - intros k v. by rewrite lookup_empty.
Qed.

(** ** The check of the residues *)

Lemma elem_of_concat {A} (x : A) (ls : list (list A)) :
  x ∈ concat ls ↔ ∃ l, x ∈ l ∧ l ∈ ls.
Proof.
  induction ls as [|l ls IH]; simpl.
  - split; [by intros ?%elem_of_nil|by intros (l & _ & ?%elem_of_nil)].
  - rewrite elem_of_app, IH. split.
    + intros [Hx|(l' & Hx & Hl')]; [exists l|exists l'];
        (split; [done|]); [by left|by right].
    + intros (l' & Hx & [->|Hl']%elem_of_cons); [by left|right; by eauto].
Qed.

Lemma elem_of_bond_partners s a x :
  x ∈ pmd.bond_partners s a ↔
  ∃ b, b ∈ pmd.bonds s ∧
    ((pmd.b_atom1 b = pmd.atom_id a ∧ x = pmd.b_atom2 b) ∨
     (pmd.b_atom2 b = pmd.atom_id a ∧ x = pmd.b_atom1 b)).
Proof.
  unfold pmd.bond_partners. rewrite elem_of_concat. split.
  - intros (l & Hx & (b & -> & Hb)%list_elem_of_fmap). exists b.
    split; [done|].
    apply elem_of_app in Hx as [Hx|Hx]; case_decide;
      try (by apply elem_of_nil in Hx);
      apply list_elem_of_singleton in Hx; by auto.
  - intros (b & Hb & Hends). eexists. split; [|by apply list_elem_of_fmap_2].
    apply elem_of_app.
    destruct Hends as [[H1 ->]|[H2 ->]]; [left|right]; case_decide;
      try done; by apply list_elem_of_singleton.
Qed.

Lemma elem_of_residue_partners s r x :
  x ∈ concat (pmd.bond_partners s <$> pmd.atoms r) ↔
  ∃ a, a ∈ pmd.atoms r ∧ x ∈ pmd.bond_partners s a.
Proof.
  rewrite elem_of_concat. split.
  - intros (l & Hx & (a & -> & Ha)%list_elem_of_fmap). by exists a.
  - intros (a & Ha & Hx). eexists. split; [done|].
    by apply list_elem_of_fmap_2.
Qed.

Lemma passing_residue_closed s r b :
  residue_passes s r → b ∈ pmd.bonds s →
  (pmd.b_atom1 b ∈ Wording.residue_ids r ↔
   pmd.b_atom2 b ∈ Wording.residue_ids r).
Proof.
  intros Hpass Hb. unfold Wording.residue_ids.
  assert (∀ x y,
    ((pmd.b_atom1 b = x ∧ y = pmd.b_atom2 b) ∨
     (pmd.b_atom2 b = x ∧ y = pmd.b_atom1 b)) →
    x ∈ pmd.atom_id <$> pmd.atoms r → y ∈ pmd.atom_id <$> pmd.atoms r)
    as Hstep.
  { intros x y Hends (a & -> & Ha)%list_elem_of_fmap.
    assert (y ∈ concat (pmd.bond_partners s <$> pmd.atoms r)) as Hy.
    { apply elem_of_residue_partners. exists a. split; [done|].
      apply elem_of_bond_partners. by exists b. }
    destruct Hpass as [Hnil|Heq].
    - rewrite Hnil in Hy. by apply elem_of_nil in Hy.
    - apply (elem_of_list_to_set (C := gset nat)).
      rewrite Heq. by apply elem_of_list_to_set. }
  split; apply Hstep; by auto.
Qed.

(** X8.  When the check of the residues passes, no bond of the
    structure has one end inside a residue and the other outside, and in
    a residue with a bonded atom every atom is the bond partner of an
    atom of that residue. *)
Theorem check_passes_closed_residues s :
  _check_independent_residues s = true →
  Wording.no_bond_crosses s = true ∧
  ∀ r a, r ∈ pmd.residues s → a ∈ pmd.atoms r →
    concat (pmd.bond_partners s <$> pmd.atoms r) ≠ [] →
    ∃ a', a' ∈ pmd.atoms r ∧ pmd.atom_id a ∈ pmd.bond_partners s a'.
Proof.
  unfold _check_independent_residues. rewrite check_residues_true.
  rewrite Forall_forall. intros Hpass. split.
  - unfold Wording.no_bond_crosses. apply forallb_forall.
    intros b Hb%list_elem_of_In. apply forallb_forall.
    intros r Hr%list_elem_of_In. apply bool_decide_eq_true.
    apply (passing_residue_closed s r b); [by apply Hpass|done].
  - intros r a Hr Ha Hbonded. destruct (Hpass r Hr) as [Hnil|Heq]; [done|].
    apply elem_of_residue_partners.
    apply (elem_of_list_to_set (C := gset nat)). rewrite <- Heq.
    apply elem_of_list_to_set. by apply list_elem_of_fmap_2.
Qed.

(** X9.  A structure without bonds passes the check of the residues,
    whatever its residues are. *)
Theorem check_passes_without_bonds s :
  pmd.bonds s = [] → _check_independent_residues s = true.
Proof.
  intros Hb. unfold _check_independent_residues. apply check_residues_true.
  apply Forall_forall. intros r _. left.
  induction (pmd.atoms r) as [|a l IH]; [done|].
  rewrite fmap_cons. simpl. rewrite IH, app_nil_r.
  unfold pmd.bond_partners. by rewrite Hb.
Qed.

(** ** Members and atom types of a forward conversion *)

(** X10.  In a forward conversion that returns, the connection at the
    position of an instance has as members, in the order of the atoms of
    the instance, positions of sites made from atoms with the identity
    of these atoms; when the atoms of the structure are distinct
    objects, these are the positions of the atoms themselves. *)
Theorem from_parmed_members `{ElementLibrary} s refer_type c i x :
  from_parmed s refer_type = inr c →
  ext_connections s !! i = Some x →
  ∃ k,
    gmso.connections (topology c) !! i = Some k ∧
    Forall2 (λ a m, ∃ atom,
               pmd.structure_atoms s !! m = Some atom ∧ pmd.atom_id atom = a ∧
               (NoDup (pmd.atom_id <$> pmd.structure_atoms s) →
                ∀ m' atom', pmd.structure_atoms s !! m' = Some atom' →
                            pmd.atom_id atom' = a → m' = m))
      (ext_atoms x) (gmso.connection_members k).
Proof.
  intros (maps & ss & ks & _ & _ & Hks & -> & _)%from_parmed_parts Hx.
  simpl. apply mapM_Some_1 in Hks.
  destruct (Forall2_lookup_l _ _ _ _ _ Hks Hx) as (k & Hk & Hconv).
  exists k. split; [done|].
  apply convert_parts in Hconv as (_ & Hms & _). apply mapM_Some_1 in Hms.
  eapply Forall2_impl; [exact Hms|]. intros a m Hm. simpl in Hm.
  apply index_by_lookup in Hm as [[Hm _]|(atom & Hatom & Hid & _)];
    [by rewrite lookup_empty in Hm|].
  rewrite Nat.sub_0_r in Hatom. exists atom. split; [done|]. split; [done|].
  intros Hnd m' atom' Hatom' Hid'.
  apply (NoDup_lookup _ m' m a Hnd); rewrite list_lookup_fmap.
  - by rewrite Hatom'; simpl; f_equal.
  - by rewrite Hatom; simpl; f_equal.
Qed.

(** X11.  With type transfer, the site made from an atom that carries
    an AtomType refers to a potential of the store made from an AtomType
    with the same identity, and the sites of two such atoms refer to the
    same potential exactly when the two AtomTypes are the same object. *)
Theorem from_parmed_atom_types_shared `{ElementLibrary} s c i j a b t u :
  from_parmed s true = inr c →
  pmd.structure_atoms s !! i = Some a →
  pmd.structure_atoms s !! j = Some b →
  pmd.atom_type a = pmd.OAtomType t →
  pmd.atom_type b = pmd.OAtomType u →
  ∃ si sj p q t' el,
    gmso.sites (topology c) !! i = Some si ∧
    gmso.sites (topology c) !! j = Some sj ∧
    gmso.atom_type si = Some p ∧ gmso.atom_type sj = Some q ∧
    (p = q ↔ pmd.at_id t = pmd.at_id u) ∧
    potentials c !! p = Some (top_atomtype el t') ∧
    pmd.at_id t' = pmd.at_id t ∧ element_tag t' = inr el.
Proof.
  intros (maps & ss & ks & Hmaps & Hss & _ & -> & _)%from_parmed_parts.
  intros Ha Hb Hta Htb. simpl. unfold forward_types in Hmaps.
  destruct (mapM atom_potential _) as [ps|] eqn:Hps; [|done].
  injection Hmaps as <- Hpots. apply mapM_Some_1 in Hss.
  assert (∀ n x v, pmd.structure_atoms s !! n = Some x →
            pmd.atom_type x = pmd.OAtomType v →
            ∃ site p, ss !! n = Some site ∧ gmso.atom_type site = Some p ∧
              pmd_top_atomtypes (forward_maps s 0) !! ByObject (pmd.at_id v)
                = Some p) as Hsite.
  { intros n x v Hn Hv.
    rewrite <- labelled_atoms_snd, list_lookup_fmap in Hn.
    destruct (labelled_atoms s !! n) as [[r x']|] eqn:Hra; [|done].
    injection Hn as ->.
    destruct (Forall2_lookup_l _ _ _ _ _ Hss Hra) as (site & Hs & Hfor).
    unfold site_for in Hfor. rewrite Hv in Hfor.
    destruct (if Qtruthy _ then _ else _); [|done].
    destruct (pmd_top_atomtypes _ !! _) as [p|] eqn:Hp; [|done].
    injection Hfor as <-. eexists _, p. by split_and!. }
  destruct (Hsite i a t Ha Hta) as (si & p & Hsi & Hp & Hlp).
  destruct (Hsite j b u Hb Htb) as (sj & q & Hsj & Hq & Hlq).
  simpl in Hlp, Hlq.
  pose proof Hlp as Hlp'.
  apply index_by_lookup in Hlp' as [[Hm _]|(t' & Ht' & Hid & _)];
    [by rewrite lookup_empty in Hm|].
  rewrite Nat.sub_0_r in Ht'. apply mapM_Some_1 in Hps.
  destruct (Forall2_lookup_l _ _ _ _ _ Hps Ht') as (pot & Hpot & Hmade).
  unfold atom_potential in Hmade.
  destruct (element_tag t') as [|el] eqn:Hel; [done|]. injection Hmade as <-.
  exists si, sj, p, q, t', el. repeat split; try done.
  - intros <-.
    assert (ByObject (pmd.at_id t) = ByObject (pmd.at_id u)) as Heq
      by (eapply (atom_types_inj s 0); simpl; eassumption).
    by injection Heq.
  - intros Hid'. rewrite Hid' in Hlp. congruence.
  - rewrite <- Hpots. by apply lookup_app_l_Some.
  - congruence.
Qed.

(** ** What the reverse conversion leaves alone *)

Section Respects.

Context (rel : relation pmd.Structure) `{!PreOrder rel}.

Lemma respects_ret {A} (a : A) : respects rel (ret a).
Proof. by intros st a' st' [= <- <-]. Qed.

Lemma respects_raise {A} e : respects rel (raise e : R A).
Proof. by intros st a' st'. Qed.

Lemma respects_bind {A B} (m : R A) (k : A → R B) :
  respects rel m → (∀ a, respects rel (k a)) → respects rel (bind m k).
Proof.
  intros Hm Hk st b st' (a & st1 & Hrun & Hrest)%bind_inr.
  transitivity (structure_ st1); [by eapply Hm|by eapply Hk].
Qed.

Lemma respects_foldM {A B} (body : B → A → R B) b xs :
  (∀ b x, respects rel (body b x)) → respects rel (foldM body b xs).
Proof.
  intros Hbody. revert b. induction xs as [|x xs IH]; intros b; simpl.
  - apply respects_ret.
  - apply respects_bind; [apply Hbody|]. intros b'. apply IH.
Qed.

Lemma respects_forM {A} (body : A → R unit) xs :
  (∀ x, respects rel (body x)) → respects rel (forM_ body xs).
Proof.
  intros Hbody. induction xs as [|x xs IH]; simpl.
  - apply respects_ret.
  - apply respects_bind; [apply Hbody|]. by intros _.
Qed.

Lemma respects_get : respects rel get.
Proof. by intros st a st' [= <- <-]. Qed.

Lemma respects_fresh_id : respects rel fresh_id.
Proof. by intros st a st' [= <- <-]. Qed.

Lemma respects_on_structure f :
  (∀ s, rel s (f s)) → respects rel (on_structure f).
Proof. intros Hf st a st' [= <- <-]. apply Hf. Qed.

End Respects.

(** The steps are taken apart down to the assignments to the structure;
    [edit] settles that an assignment is within the relation. *)
Ltac respects_by edit :=
  repeat first
    [ apply respects_ret; exact _
    | apply respects_raise
    | apply respects_get; exact _
    | apply respects_fresh_id; exact _
    | apply respects_on_structure; intros ?; edit
    | apply respects_bind; [exact _| |intros ?]
    | apply respects_foldM; [exact _|intros ? ?]
    | apply respects_forM; [exact _|intros ?]
    | progress unfold dict_get, deref, to_unit, to_unit_array, parameter_in,
        gmso.parameter, value_if_truthy, assert_, type_of_connection,
        set_dihedral_type, box_array, site_body, bond_out, angle_out,
        dihedral_out, _atom_types_from_gmso, _bond_types_from_gmso,
        _angle_types_from_gmso, _dihedral_types_from_gmso,
        dihedral_type_record
    | progress cbv zeta
    | match goal with
      | |- respects _ (match ?x with _ => _ end) => destruct x
      | |- respects _ (on_structure (match ?x with _ => _ end)) =>
          destruct x
      end ].

Lemma to_parmed_respects `{ExprMatcher} `{ElementLibrary}
    (rel : relation pmd.Structure) top potentials refer_type s :
  respects rel (to_parmed_steps top potentials refer_type) →
  to_parmed top potentials refer_type = inr s → rel pmd.empty s.
Proof.
  intros Hrel. unfold to_parmed.
  destruct (to_parmed_steps _ _ _ _) as [e|[[] st]] eqn:Hrun; [done|].
  intros [= <-]. by apply Hrel in Hrun.
Qed.

#[local] Instance adds_no_improper_preorder : PreOrder adds_no_improper.
Proof.
  split.
  - by intros s.
  - intros s1 s2 s3 (Hi & Ht & Hd & Hr) (Hi' & Ht' & Hd' & Hr').
    split_and!; [congruence|congruence|by auto|by auto].
Qed.

#[local] Instance adds_no_type_preorder : PreOrder adds_no_type.
Proof.
  split.
  - by intros s.
  - intros s1 s2 s3 (? & ? & ? & ? & ? & ? & ? & ? & ?)
      (? & ? & ? & ? & ? & ? & ? & ? & ?).
    split_and!; try congruence; by auto.
Qed.

Lemma structure_atoms_add_atom atom resname resnum s :
  pmd.structure_atoms (Build.add_atom atom resname resnum s) =
  pmd.structure_atoms s ++ [atom].
Proof.
  unfold pmd.structure_atoms, Build.add_atom. simpl.
  induction (pmd.residues s) as [|r rs IH]; [done|].
  destruct rs as [|r' rs].
  - simpl. case_decide; simpl; by rewrite ?app_nil_r.
  - change (Build.residues_add_atom (r :: r' :: rs) atom resname resnum)
      with (r :: Build.residues_add_atom (r' :: rs) atom resname resnum).
    rewrite !fmap_cons. rewrite fmap_cons in IH. simpl in *.
    by rewrite IH, app_assoc.
Qed.

Lemma structure_atoms_update_atom a f s :
  pmd.structure_atoms (Build.update_atom a f s) =
  (λ x, if decide (pmd.atom_id x = a) then f x else x)
    <$> pmd.structure_atoms s.
Proof.
  unfold pmd.structure_atoms, Build.update_atom. simpl.
  induction (pmd.residues s) as [|r rs IH]; [done|].
  rewrite !fmap_cons. simpl. by rewrite fmap_app, IH.
Qed.

Ltac no_improper_edit :=
  solve [ split_and!; simpl; try done; intros ?;
          first [ by apply Forall_app; split; [|constructor]
                | by apply Forall_alter ] ].

(** X12.  The structure a reverse conversion returns has no improper
    and no improper type, and none of its dihedrals or
    Ryckaert-Bellemans torsions is flagged improper: the impropers of
    the topology are not converted. *)
Theorem to_parmed_no_impropers `{ExprMatcher} `{ElementLibrary}
    top potentials refer_type s :
  to_parmed top potentials refer_type = inr s →
  pmd.impropers s = [] ∧ pmd.improper_types s = [] ∧
  Forall (λ d, pmd.improper d = false) (pmd.dihedrals s) ∧
  Forall (λ d, pmd.improper d = false) (pmd.rb_torsions s).
Proof.
  intros Hs.
  assert (adds_no_improper pmd.empty s) as (Hi & Ht & Hd & Hr).
  { apply (to_parmed_respects adds_no_improper top potentials refer_type);
      [|done].
    unfold to_parmed_steps. respects_by no_improper_edit. }
  split_and!; [done|done|by apply Hd|by apply Hr].
Qed.

Ltac no_type_edit :=
  solve [ split_and!; simpl; try done; intros ?;
          first [ by apply Forall_app; split; [|constructor]
                | rewrite structure_atoms_add_atom;
                  by apply Forall_app; split; [|constructor] ] ].

(** X13.  Without type transfer the structure a reverse conversion
    returns has empty tables of types, and none of its atoms, bonds,
    angles, dihedrals and Ryckaert-Bellemans torsions carries a type. *)
Theorem to_parmed_without_types `{ExprMatcher} `{ElementLibrary}
    top potentials s :
  to_parmed top potentials false = inr s →
  pmd.bond_types s = [] ∧ pmd.angle_types s = [] ∧
  pmd.dihedral_types s = [] ∧ pmd.rb_torsion_types s = [] ∧
  Forall (λ a, pmd.type a = "" ∧ pmd.atom_type a = pmd.PyNone)
    (pmd.structure_atoms s) ∧
  Forall (λ b, pmd.b_type b = pmd.PyNone) (pmd.bonds s) ∧
  Forall (λ a, pmd.a_type a = pmd.PyNone) (pmd.angles s) ∧
  Forall (λ d, pmd.d_type d = pmd.PyNone) (pmd.dihedrals s) ∧
  Forall (λ d, pmd.d_type d = pmd.PyNone) (pmd.rb_torsions s).
Proof.
  intros Hs.
  assert (adds_no_type pmd.empty s)
    as (? & ? & ? & ? & Ha & Hb & Hg & Hd & Hr).
  { apply (to_parmed_respects adds_no_type top potentials false); [|done].
    unfold to_parmed_steps. respects_by no_type_edit. }
  split_and!; try done;
    [by apply Ha|by apply Hb|by apply Hg|by apply Hd|by apply Hr].
Qed.

(** ** What the reverse conversion builds *)

#[local] Instance same_atoms_preorder : PreOrder same_atoms.
Proof.
  split; [by intros s|]. unfold same_atoms. intros s1 s2 s3 ??. congruence.
Qed.

#[local] Instance same_bonds_preorder : PreOrder same_bonds.
Proof.
  split; [by intros s|]. unfold same_bonds. intros s1 s2 s3 ??. congruence.
Qed.

#[local] Instance same_angles_preorder : PreOrder same_angles.
Proof.
  split; [by intros s|]. unfold same_angles. intros s1 s2 s3 ??. congruence.
Qed.

#[local] Instance same_dihedrals_preorder : PreOrder same_dihedrals.
Proof.
  split; [by intros s|]. unfold same_dihedrals.
  intros s1 s2 s3 [??] [??]. split; congruence.
Qed.

Lemma fmap_alter_same {A B} (g : A → B) (f : A → A) i (l : list A) :
  (∀ x, g (f x) = g x) → g <$> alter f i l = g <$> l.
Proof.
  intros Hg. revert i. induction l as [|x l IH]; intros [|i]; simpl; try done.
  - by rewrite Hg.
  - f_equal. apply IH.
Qed.

Lemma fst_enumerate {A} (l : list A) : (enumerate l).*1 = seq 0 (length l).
Proof. unfold enumerate. apply fst_zip. by rewrite length_seq. Qed.

Lemma length_enumerate {A} (l : list A) : length (enumerate l) = length l.
Proof. by rewrite <- (snd_enumerate l) at 2; rewrite length_fmap. Qed.

Section ReverseLoops.

Context `{ExprMatcher} `{ElementLibrary}.

Ltac run :=
  repeat first
    [ progress unfold bind, ret, raise, get, modify, on_structure, fresh_id,
        dict_get, deref, to_unit, to_unit_array, value_if_truthy in *
    | progress simplify_eq/=
    | case_match ].

Lemma site_body_run atom_map n site st am' st' :
  site_body atom_map (n, site) st = inr (am', st') →
  ∃ atom resname resnum,
    st' = {| structure_ := Build.add_atom atom resname resnum (structure_ st);
             next_id := S (next_id st) |} ∧
    am' = <[n := next_id st]> atom_map ∧
    pmd.atom_id atom = next_id st ∧ atom_made_from site atom.
Proof.
  unfold site_body. intros Hrun. run.
  all: eexists _, _, _; split_and!; try done.
  all: unfold atom_made_from, field_of; simpl; split_and!; try done.
  all: repeat case_match; simplify_eq; first [congruence|by eauto].
Qed.

Lemma bond_out_run atom_map bond_map n c st bm' st' :
  bond_out atom_map bond_map (n, c) st = inr (bm', st') →
  ∃ b,
    st' = {| structure_ := Build.on_bonds (λ l, l ++ [b]) (structure_ st);
             next_id := next_id st |} ∧
    Forall2 (λ m e, atom_map !! m = Some e)
      (gmso.connection_members c) (bond_ends b).
Proof.
  unfold bond_out. intros Hrun. run.
  eexists. split; [done|]. by repeat constructor.
Qed.

Lemma angle_out_run atom_map angle_map n c st am' st' :
  angle_out atom_map angle_map (n, c) st = inr (am', st') →
  ∃ a,
    st' = {| structure_ := Build.on_angles (λ l, l ++ [a]) (structure_ st);
             next_id := next_id st |} ∧
    Forall2 (λ m e, atom_map !! m = Some e)
      (gmso.connection_members c) (angle_ends a).
Proof.
  unfold angle_out. intros Hrun. run.
  eexists. split; [done|]. by repeat constructor.
Qed.

Lemma dihedral_out_run potentials atom_map dihedral_map n c st dm' st' :
  dihedral_out potentials atom_map dihedral_map (n, c) st = inr (dm', st') →
  ∃ d,
    st' = {| structure_ :=
               (if files_as_rb potentials (n, c)
                then Build.on_rb_torsions (λ l, l ++ [d])
                else Build.on_dihedrals (λ l, l ++ [d])) (structure_ st);
             next_id := next_id st |} ∧
    Forall2 (λ m e, atom_map !! m = Some e)
      (gmso.connection_members c) (dihedral_ends d).
Proof.
  unfold dihedral_out, files_as_rb. intros Hrun. run.
  all: eexists; split; [done|]; by repeat constructor.
Qed.

Lemma sites_loop sites st am st' :
  foldM site_body ∅ (enumerate sites) st = inr (am, st') →
  pmd.structure_atoms (structure_ st) = [] →
  Forall2 atom_made_from sites (pmd.structure_atoms (structure_ st')) ∧
  pmd.atom_id <$> pmd.structure_atoms (structure_ st')
    = seq (next_id st) (length sites) ∧
  (∀ m e, am !! m = Some e → (m < length sites)%nat ∧ e = (next_id st + m)%nat) ∧
  pmd.bonds (structure_ st') = pmd.bonds (structure_ st) ∧
  pmd.angles (structure_ st') = pmd.angles (structure_ st) ∧
  pmd.dihedrals (structure_ st') = pmd.dihedrals (structure_ st) ∧
  pmd.rb_torsions (structure_ st') = pmd.rb_torsions (structure_ st).
Proof.
  intros Hrun Hnil.
  pose (I := λ (pre : list (nat * gmso.Atom)) (am1 : gmap nat nat)
               (st1 : rstate),
    Forall2 (λ x a, atom_made_from x.2 a) pre
      (pmd.structure_atoms (structure_ st1)) ∧
    pmd.atom_id <$> pmd.structure_atoms (structure_ st1)
      = seq (next_id st) (length pre) ∧
    next_id st1 = (next_id st + length pre)%nat ∧
    (pre.*1 = seq 0 (length pre) →
     ∀ m e, am1 !! m = Some e →
       (m < length pre)%nat ∧ e = (next_id st + m)%nat) ∧
    pmd.bonds (structure_ st1) = pmd.bonds (structure_ st) ∧
    pmd.angles (structure_ st1) = pmd.angles (structure_ st) ∧
    pmd.dihedrals (structure_ st1) = pmd.dihedrals (structure_ st) ∧
    pmd.rb_torsions (structure_ st1) = pmd.rb_torsions (structure_ st)).
  assert (I (enumerate sites) am st')
    as (Hmade & Hids & _ & Hmap & Hb & Ha & Hd & Hr).
  { apply (foldM_invariant _ I _ _ _ _ _ Hrun).
    - unfold I. rewrite Hnil. simpl.
      split_and!;
        first [done|lia|by intros _ m e; rewrite lookup_empty].
    - intros pre [n site] am1 st1 am2 st2
        (Hmade & Hids & Hnext & Hmap & Hb & Ha & Hd & Hr)
        (atom & resname & resnum & -> & -> & Hid & Hfrom)%site_body_run.
      unfold I. simpl. rewrite structure_atoms_add_atom, length_app. simpl.
      split_and!; try done.
      + apply Forall2_app; [done|apply Forall2_cons; split; [done|constructor]].
      + rewrite fmap_app, Hids, seq_app. simpl. by rewrite Hid, Hnext.
      + lia.
      + rewrite fmap_app, seq_app. simpl. intros Hpre.
        apply app_inj_1 in Hpre as [Hpre [= ->]];
          [|by rewrite length_fmap, length_seq].
        intros m e. destruct (decide (m = length pre)) as [->|Hne].
        * rewrite lookup_insert_eq. intros [= <-]. split; lia.
        * rewrite lookup_insert_ne by done.
          intros Hm. destruct (Hmap Hpre m e Hm). split; [lia|done]. }
  rewrite length_enumerate in Hids. split_and!; try done.
  - rewrite <- (snd_enumerate sites) at 1. by apply Forall2_fmap_l.
  - intros m e Hm. rewrite <- (length_enumerate sites).
    apply Hmap; [|done]. rewrite fst_enumerate. by rewrite length_enumerate.
Qed.

Lemma bonds_loop atom_map conns st bm st' :
  foldM (bond_out atom_map) ∅ conns st = inr (bm, st') →
  pmd.bonds (structure_ st) = [] →
  Forall2 (λ x b, Forall2 (λ m e, atom_map !! m = Some e)
                    (gmso.connection_members x.2) (bond_ends b))
    conns (pmd.bonds (structure_ st')) ∧
  pmd.structure_atoms (structure_ st')
    = pmd.structure_atoms (structure_ st) ∧
  pmd.angles (structure_ st') = pmd.angles (structure_ st) ∧
  pmd.dihedrals (structure_ st') = pmd.dihedrals (structure_ st) ∧
  pmd.rb_torsions (structure_ st') = pmd.rb_torsions (structure_ st).
Proof.
  intros Hrun Hnil.
  apply (foldM_invariant _
    (λ pre (_ : gmap nat nat) st1,
       Forall2 (λ x b, Forall2 (λ m e, atom_map !! m = Some e)
                         (gmso.connection_members x.2) (bond_ends b))
         pre (pmd.bonds (structure_ st1)) ∧
       pmd.structure_atoms (structure_ st1)
         = pmd.structure_atoms (structure_ st) ∧
       pmd.angles (structure_ st1) = pmd.angles (structure_ st) ∧
       pmd.dihedrals (structure_ st1) = pmd.dihedrals (structure_ st) ∧
       pmd.rb_torsions (structure_ st1) = pmd.rb_torsions (structure_ st))
    _ _ _ _ _ Hrun).
  - rewrite Hnil. by split_and!.
  - intros pre [n c] bm1 st1 bm2 st2 (Hall & ? & ? & ? & ?)
      (b & -> & Hends)%bond_out_run. simpl.
    split_and!; try done.
    apply Forall2_app; [done|apply Forall2_cons; split; [done|constructor]].
Qed.

Lemma angles_loop atom_map conns st am st' :
  foldM (angle_out atom_map) ∅ conns st = inr (am, st') →
  pmd.angles (structure_ st) = [] →
  Forall2 (λ x a, Forall2 (λ m e, atom_map !! m = Some e)
                    (gmso.connection_members x.2) (angle_ends a))
    conns (pmd.angles (structure_ st')) ∧
  pmd.structure_atoms (structure_ st')
    = pmd.structure_atoms (structure_ st) ∧
  pmd.bonds (structure_ st') = pmd.bonds (structure_ st) ∧
  pmd.dihedrals (structure_ st') = pmd.dihedrals (structure_ st) ∧
  pmd.rb_torsions (structure_ st') = pmd.rb_torsions (structure_ st).
Proof.
  intros Hrun Hnil.
  apply (foldM_invariant _
    (λ pre (_ : gmap nat nat) st1,
       Forall2 (λ x a, Forall2 (λ m e, atom_map !! m = Some e)
                         (gmso.connection_members x.2) (angle_ends a))
         pre (pmd.angles (structure_ st1)) ∧
       pmd.structure_atoms (structure_ st1)
         = pmd.structure_atoms (structure_ st) ∧
       pmd.bonds (structure_ st1) = pmd.bonds (structure_ st) ∧
       pmd.dihedrals (structure_ st1) = pmd.dihedrals (structure_ st) ∧
       pmd.rb_torsions (structure_ st1) = pmd.rb_torsions (structure_ st))
    _ _ _ _ _ Hrun).
  - rewrite Hnil. by split_and!.
  - intros pre [n c] am1 st1 am2 st2 (Hall & ? & ? & ? & ?)
      (a & -> & Hends)%angle_out_run. simpl.
    split_and!; try done.
    apply Forall2_app; [done|apply Forall2_cons; split; [done|constructor]].
Qed.

Lemma dihedrals_loop potentials atom_map conns st dm st' :
  foldM (dihedral_out potentials atom_map) ∅ conns st = inr (dm, st') →
  pmd.dihedrals (structure_ st) = [] →
  pmd.rb_torsions (structure_ st) = [] →
  Forall2 (λ x d, Forall2 (λ m e, atom_map !! m = Some e)
                    (gmso.connection_members x.2) (dihedral_ends d))
    (filter (λ x, files_as_rb potentials x = true) conns)
    (pmd.rb_torsions (structure_ st')) ∧
  Forall2 (λ x d, Forall2 (λ m e, atom_map !! m = Some e)
                    (gmso.connection_members x.2) (dihedral_ends d))
    (filter (λ x, files_as_rb potentials x = false) conns)
    (pmd.dihedrals (structure_ st')) ∧
  pmd.structure_atoms (structure_ st')
    = pmd.structure_atoms (structure_ st) ∧
  pmd.bonds (structure_ st') = pmd.bonds (structure_ st) ∧
  pmd.angles (structure_ st') = pmd.angles (structure_ st).
Proof.
  intros Hrun Hnil Hnil'.
  apply (foldM_invariant _
    (λ pre (_ : gmap nat (bool * nat)) st1,
       Forall2 (λ x d, Forall2 (λ m e, atom_map !! m = Some e)
                         (gmso.connection_members x.2) (dihedral_ends d))
         (filter (λ x, files_as_rb potentials x = true) pre)
         (pmd.rb_torsions (structure_ st1)) ∧
       Forall2 (λ x d, Forall2 (λ m e, atom_map !! m = Some e)
                         (gmso.connection_members x.2) (dihedral_ends d))
         (filter (λ x, files_as_rb potentials x = false) pre)
         (pmd.dihedrals (structure_ st1)) ∧
       pmd.structure_atoms (structure_ st1)
         = pmd.structure_atoms (structure_ st) ∧
       pmd.bonds (structure_ st1) = pmd.bonds (structure_ st) ∧
       pmd.angles (structure_ st1) = pmd.angles (structure_ st))
    _ _ _ _ _ Hrun).
  - rewrite Hnil, Hnil'. by split_and!.
  - intros pre [n c] dm1 st1 dm2 st2 (Hrb & Hd & ? & ? & ?)
      (d & -> & Hends)%dihedral_out_run.
    rewrite !filter_app, !filter_cons, !filter_nil.
    destruct (files_as_rb potentials (n, c)) eqn:Hfile; simpl;
      repeat case_decide; try done; rewrite app_nil_r;
      split_and!; try done;
      (apply Forall2_app; [done|apply Forall2_cons; split; [done|constructor]]).
Qed.

Lemma Forall2_compose {A B C} (P : A → B → Prop) (Q : B → C → Prop)
    (T : A → C → Prop) l k m :
  (∀ x y z, P x y → Q y z → T x z) →
  Forall2 P l k → Forall2 Q k m → Forall2 T l m.
Proof.
  intros Hc Hlk. revert m. induction Hlk as [|x y l k Hxy Hlk IH]; intros m Hkm.
  - apply Forall2_nil_inv_l in Hkm as ->. constructor.
  - apply Forall2_cons_inv_l in Hkm as (z & m' & Hyz & Hkm & ->).
    constructor; [by eapply Hc|by apply IH].
Qed.

Lemma Forall2_same_image {A B} (f : A → B) l k :
  f <$> k = f <$> l → Forall2 (λ a a', f a' = f a) l k.
Proof.
  revert k. induction l as [|x l IH]; intros [|y k] [=]; constructor; auto.
Qed.

Lemma Forall2_through_image {A B C} (f : B → C) (P : A → C → Prop) l k k' :
  f <$> k' = f <$> k →
  Forall2 (λ x y, P x (f y)) l k → Forall2 (λ x y, P x (f y)) l k'.
Proof.
  intros Hf Hlk.
  eapply Forall2_compose;
    [|exact Hlk|exact (Forall2_same_image f _ _ Hf)].
  intros x y y' Hxy Hy. simpl in Hy. rewrite Hy. exact Hxy.
Qed.

Lemma atom_made_from_core site a a' :
  atom_core a' = atom_core a → atom_made_from site a → atom_made_from site a'.
Proof.
  unfold atom_core, atom_made_from.
  intros [= Hid Hn Hname Hm Hc Hx Hy Hz].
  by rewrite Hn, Hname, Hm, Hc, Hx, Hy, Hz.
Qed.

Lemma joins_of_map s c ends (am : gmap nat nat) n :
  pmd.atom_id <$> pmd.structure_atoms s = seq 1 n →
  (∀ m e, am !! m = Some e → (m < n)%nat ∧ e = (1 + m)%nat) →
  Forall2 (λ m e, am !! m = Some e) (gmso.connection_members c) ends →
  joins s c ends.
Proof.
  intros Hids Ham Hall. unfold joins. eapply Forall2_impl; [exact Hall|].
  intros m e Hm. simpl in Hm. destruct (Ham m e Hm) as [Hlt ->].
  assert ((pmd.atom_id <$> pmd.structure_atoms s) !! m = Some (1 + m)%nat)
    as Hl by (rewrite Hids; by apply lookup_seq).
  rewrite list_lookup_fmap in Hl.
  destruct (pmd.structure_atoms s !! m) as [a|]; [|done].
  exists a. split; [done|]. by injection Hl.
Qed.

Ltac same_atoms_edit :=
  solve [ unfold same_atoms;
          first [ reflexivity
                | rewrite structure_atoms_update_atom, <- list_fmap_compose;
                  apply list_fmap_ext; intros ? ? ?; simpl;
                  by case_decide ] ].

Ltac same_ends_edit :=
  solve [ unfold same_bonds, same_angles, same_dihedrals; simpl;
          first [ reflexivity
                | by apply fmap_alter_same
                | split; first [reflexivity|by apply fmap_alter_same] ] ].

(** The structure a reverse conversion returns, read off the
    topology. *)
Lemma to_parmed_built top potentials refer_type s :
  to_parmed top potentials refer_type = inr s →
  Forall2 atom_made_from (gmso.sites top) (pmd.structure_atoms s) ∧
  pmd.atom_id <$> pmd.structure_atoms s
    = seq 1 (length (gmso.sites top)) ∧
  Forall2 (λ x b, joins s x.2 (bond_ends b))
    (connections_of gmso.Bond top) (pmd.bonds s) ∧
  Forall2 (λ x a, joins s x.2 (angle_ends a))
    (connections_of gmso.Angle top) (pmd.angles s) ∧
  Forall2 (λ x d, joins s x.2 (dihedral_ends d))
    (filter (λ x, files_as_rb potentials x = true)
       (connections_of gmso.Dihedral top))
    (pmd.rb_torsions s) ∧
  Forall2 (λ x d, joins s x.2 (dihedral_ends d))
    (filter (λ x, files_as_rb potentials x = false)
       (connections_of gmso.Dihedral top))
    (pmd.dihedrals s).
Proof.
  unfold to_parmed, to_parmed_steps.
  destruct (bind _ _ _) as [e|[[] st]] eqn:Hrun; [done|]. intros [= <-].
  apply bind_inr in Hrun as ([] & st1 & Htitle & Hrun).
  apply bind_inr in Hrun as ([] & st2 & Hbox & Hrun).
  apply bind_inr in Hrun as (atom_map & st3 & Hsites & Hrun).
  apply bind_inr in Hrun as (bond_map & st4 & Hbonds & Hrun).
  apply bind_inr in Hrun as (angle_map & st5 & Hangles & Hrun).
  apply bind_inr in Hrun as (dihedral_map & st6 & Hdihedrals & Hrun).
  assert (∃ b, st2 =
            {| structure_ :=
                 Build.set_box b
                   (Build.set_title (gmso.t_name top) pmd.empty);
               next_id := 1 |}) as [b ->].
  { injection Htitle as <-. unfold box_array in Hbox. run; by eauto. }
  apply sites_loop in Hsites as (Hmade & Hids & Hmap & Hb3 & Ha3 & Hd3 & Hr3);
    [|done].
  simpl in Hids, Hmap, Hb3, Ha3, Hd3, Hr3.
  apply bonds_loop in Hbonds as (Hbs & Hat4 & Ha4 & Hd4 & Hr4); [|done].
  apply angles_loop in Hangles as (Has & Hat5 & Hb5 & Hd5 & Hr5);
    [|congruence].
  apply dihedrals_loop in Hdihedrals as (Hrs & Hds & Hat6 & Hb6 & Ha6);
    [|congruence..].
  cbv beta in Hrun.
  assert (same_atoms (structure_ st6) (structure_ st) ∧
          same_bonds (structure_ st6) (structure_ st) ∧
          same_angles (structure_ st6) (structure_ st) ∧
          same_dihedrals (structure_ st6) (structure_ st))
    as (Hsa & Hsb & Hsg & [Hsd Hsr]).
  { match type of Hrun with
    | ?m st6 = _ =>
        assert (respects same_atoms m) as Ra
          by respects_by same_atoms_edit;
        assert (respects same_bonds m) as Rb
          by respects_by same_ends_edit;
        assert (respects same_angles m) as Rg
          by respects_by same_ends_edit;
        assert (respects same_dihedrals m) as Rd
          by respects_by same_ends_edit
    end.
    split_and!; [by eapply Ra|by eapply Rb|by eapply Rg|by eapply Rd]. }
  unfold same_atoms in Hsa. unfold same_bonds in Hsb.
  unfold same_angles in Hsg.
  assert (pmd.atom_id <$> pmd.structure_atoms (structure_ st)
            = seq 1 (length (gmso.sites top))) as Hids'.
  { rewrite <- Hids, <- Hat4, <- Hat5, <- Hat6.
    change pmd.atom_id with ((λ c, c.1.1.1.1.1) ∘ atom_core).
    by rewrite !list_fmap_compose, Hsa. }
  assert (∀ c ends,
    Forall2 (λ m e, atom_map !! m = Some e) (gmso.connection_members c) ends →
    joins (structure_ st) c ends) as Hjoin.
  { intros c ends. by apply joins_of_map with (n := length (gmso.sites top)). }
  split_and!.
  - rewrite <- Hat4, <- Hat5, <- Hat6 in Hmade.
    eapply Forall2_compose; [|exact Hmade|].
    + intros site a a' Hfrom Hcore. eapply atom_made_from_core; [|exact Hfrom].
      exact Hcore.
    + by apply Forall2_same_image.
  - done.
  - rewrite <- Hb5, <- Hb6 in Hbs.
    apply (Forall2_through_image bond_ends
             (λ x ends, joins (structure_ st) x.2 ends) _ _ _ Hsb).
    eapply Forall2_impl; [exact Hbs|]. intros x c. apply Hjoin.
  - rewrite <- Ha6 in Has.
    apply (Forall2_through_image angle_ends
             (λ x ends, joins (structure_ st) x.2 ends) _ _ _ Hsg).
    eapply Forall2_impl; [exact Has|]. intros x c. apply Hjoin.
  - apply (Forall2_through_image dihedral_ends
             (λ x ends, joins (structure_ st) x.2 ends) _ _ _ Hsr).
    eapply Forall2_impl; [exact Hrs|]. intros x c. apply Hjoin.
  - apply (Forall2_through_image dihedral_ends
             (λ x ends, joins (structure_ st) x.2 ends) _ _ _ Hsd).
    eapply Forall2_impl; [exact Hds|]. intros x c. apply Hjoin.
Qed.

End ReverseLoops.

(** X14.  The structure a reverse conversion returns has one atom per
    site of the topology, in the order of the sites; each atom has the
    name of its site, the atomic number of the element of the site (zero
    without an element), the coordinates of the site in angstrom, and
    the mass and the charge of the site in atomic mass units and
    elementary charges (none when the site has none or a zero one).
    The atoms are distinct objects. *)
Theorem to_parmed_atoms `{ExprMatcher} `{ElementLibrary}
    top potentials refer_type s :
  to_parmed top potentials refer_type = inr s →
  Forall2 atom_made_from (gmso.sites top) (pmd.structure_atoms s) ∧
  NoDup (pmd.atom_id <$> pmd.structure_atoms s).
Proof.
  intros (Hmade & Hids & _)%to_parmed_built. split; [done|].
  rewrite Hids. apply NoDup_seq.
Qed.

(** X15.  The bonds of the structure a reverse conversion returns are
    the bonds of the topology, in order, and the angles its angles: each
    joins, in the order of the member sites, the atoms at the positions
    of these sites. *)
Theorem to_parmed_bonds_angles `{ExprMatcher} `{ElementLibrary}
    top potentials refer_type s :
  to_parmed top potentials refer_type = inr s →
  Forall2 (λ x b, joins s x.2 (bond_ends b))
    (connections_of gmso.Bond top) (pmd.bonds s) ∧
  Forall2 (λ x a, joins s x.2 (angle_ends a))
    (connections_of gmso.Angle top) (pmd.angles s).
Proof. by intros (_ & _ & Hb & Ha & _)%to_parmed_built. Qed.

(** X16.  The dihedrals of the topology are split by their type: those
    whose type has the Ryckaert-Bellemans expression become, in order,
    the Ryckaert-Bellemans torsions of the structure, all others
    (untyped ones included) its dihedrals; each joins the atoms at the
    positions of its member sites. *)
Theorem to_parmed_dihedrals `{ExprMatcher} `{ElementLibrary}
    top potentials refer_type s :
  to_parmed top potentials refer_type = inr s →
  Forall2 (λ x d, joins s x.2 (dihedral_ends d))
    (filter (λ x, files_as_rb potentials x = true)
       (connections_of gmso.Dihedral top))
    (pmd.rb_torsions s) ∧
  Forall2 (λ x d, joins s x.2 (dihedral_ends d))
    (filter (λ x, files_as_rb potentials x = false)
       (connections_of gmso.Dihedral top))
    (pmd.dihedrals s).
Proof. by intros (_ & _ & _ & _ & Hr & Hd)%to_parmed_built. Qed.

(** ** There and back *)

Lemma from_parmed_sites_made `{ElementLibrary} s refer_type c :
  from_parmed s refer_type = inr c →
  Forall2 (λ atom site,
             gmso.s_name site = pmd.name atom ∧
             gmso.position site =
               ([pmd.xx atom; pmd.xy atom; pmd.xz atom], angstrom))
    (pmd.structure_atoms s) (gmso.sites (topology c)).
Proof.
  intros (maps & ss & ks & _ & Hss & _ & -> & _)%from_parmed_parts. simpl.
  apply mapM_Some_1 in Hss. rewrite <- labelled_atoms_snd.
  apply Forall2_fmap_l. eapply Forall2_impl; [exact Hss|].
  intros [r atom] site Hfor. simpl.
  by apply site_for_fields in Hfor as (? & ? & _).
Qed.

(** X17.  A structure converted to a topology and back has its atoms
    in the same number and order, each with its name and its
    coordinates. *)
Theorem round_trip_atoms `{ExprMatcher} `{ElementLibrary}
    s refer_type c refer_type' s' :
  from_parmed s refer_type = inr c →
  to_parmed (topology c) (potentials c) refer_type' = inr s' →
  Forall2 (λ a a', pmd.name a' = pmd.name a ∧
                   pmd.xx a' == pmd.xx a ∧ pmd.xy a' == pmd.xy a ∧
                   pmd.xz a' == pmd.xz a)
    (pmd.structure_atoms s) (pmd.structure_atoms s').
Proof.
  intros Hthere%from_parmed_sites_made (Hback & _)%to_parmed_built.
  eapply Forall2_compose; [|exact Hthere|exact Hback].
  intros a site a' [Hname Hpos] (Hname' & _ & _ & _ & f & Hf & Hxyz).
  rewrite Hpos in Hf, Hxyz. simpl in Hf, Hxyz. injection Hf as <-.
  injection Hxyz as -> -> ->. split; [congruence|].
  split_and!; rewrite Qred_correct; ring.
Qed.

(** ** Title and combining rule *)

#[local] Instance same_header_preorder : PreOrder same_header.
Proof.
  split; [by intros s|]. unfold same_header.
  intros s1 s2 s3 [??] [??]. split; congruence.
Qed.

Ltac same_header_edit := solve [split; reflexivity].

(** X18.  The structure a reverse conversion returns has the name of
    the topology as title, and the combining rule of a new structure:
    the combining rule of the topology is not transferred. *)
Theorem to_parmed_header `{ExprMatcher} `{ElementLibrary}
    top potentials refer_type s :
  to_parmed top potentials refer_type = inr s →
  pmd.title s = gmso.t_name top ∧
  pmd.combining_rule s = pmd.combining_rule pmd.empty.
Proof.
  unfold to_parmed, to_parmed_steps.
  destruct (bind _ _ _) as [e|[[] st]] eqn:Hrun; [done|]. intros [= <-].
  apply bind_inr in Hrun as ([] & st1 & Htitle & Hrun).
  injection Htitle as <-. cbv beta in Hrun.
  match type of Hrun with
  | ?m ?st1 = _ =>
      assert (respects same_header m) as Hkeeps
        by respects_by same_header_edit
  end.
  by apply Hkeeps in Hrun as [-> ->].
Qed.

(** X19.  The topology a forward conversion returns has the title of
    the structure as name and the combining rule of the structure. *)
Theorem from_parmed_header `{ElementLibrary} s refer_type c :
  from_parmed s refer_type = inr c →
  gmso.t_name (topology c) = pmd.title s ∧
  gmso.combining_rule (topology c) = pmd.combining_rule s.
Proof. by intros (maps & ss & ks & _ & _ & _ & -> & _)%from_parmed_parts. Qed.

(** ** Types outside the catalogue *)

Lemma foldM_inl {S A B} (body : B → A → M S B) b xs (st : S) e :
  foldM body b xs st = inl e →
  ∃ x b1 st1, x ∈ xs ∧ body b1 x st1 = inl e.
Proof.
  revert b st. induction xs as [|x xs IH]; intros b st; simpl; [done|].
  unfold bind at 1. destruct (body b x st) as [e'|[b' st']] eqn:Hx.
  - intros [= ->]. exists x, b, st. split; [by left|done].
  - intros (x' & b1 & st1 & Hin & Hfail)%IH.
    exists x', b1, st1. split; [by right|done].
Qed.

Lemma forM_inl {S A} (body : A → M S unit) xs (st : S) e :
  forM_ body xs st = inl e → ∃ x st1, x ∈ xs ∧ body x st1 = inl e.
Proof.
  revert st. induction xs as [|x xs IH]; intros st; simpl; [done|].
  unfold bind at 1. destruct (body x st) as [e'|[[] st']] eqn:Hx.
  - intros [= ->]. exists x, st. split; [by left|done].
  - intros (x' & st1 & Hin & Hfail)%IH.
    exists x', st1. split; [by right|done].
Qed.

Ltac run_steps :=
  repeat first
    [ progress unfold bind, ret, raise, get, modify, on_structure, fresh_id,
        dict_get, deref, to_unit, to_unit_array, value_if_truthy, assert_,
        parameter_in, gmso.parameter, type_of_connection in *
    | progress simplify_eq/=
    | case_match ].

(** X20.  Whenever the emission of bond types stops with an assertion
    error, the message lists the name of a bond type of the topology
    whose expression is not the harmonic bond form. *)
Theorem bond_type_error_lists_name `{ExprMatcher} `{ElementLibrary}
    potentials top bond_map st msg :
  _bond_types_from_gmso potentials top bond_map st
    = inl (AssertionError msg) →
  ∃ a bond_type,
    a ∈ gmso.connection_types gmso.Bond top ∧
    potentials !! a = Some bond_type ∧
    expr_match (gmso.expression bond_type) Forms.harmonic_bond = false ∧
    msg = "Bond type " +:+ gmso.p_name bond_type +:+
          " expression does not match Parmed BondType default expression".
Proof.
  unfold _bond_types_from_gmso. unfold bind at 1.
  destruct (foldM _ _ _ _) as [e|[btype_map st1]] eqn:Hloop.
  - intros [= ->].
    apply foldM_inl in Hloop as (a & b1 & st2 & Hin & Hfail).
    exists a. run_steps. by eauto.
  - intros (x & st2 & _ & Hfail)%forM_inl. run_steps.
Qed.

(** X21.  Whenever the emission of angle types stops with an assertion
    error, the message lists the name of an angle type of the topology
    whose expression is not the harmonic angle form. *)
Theorem angle_type_error_lists_name `{ExprMatcher} `{ElementLibrary}
    potentials top angle_map st msg :
  _angle_types_from_gmso potentials top angle_map st
    = inl (AssertionError msg) →
  ∃ a angle_type,
    a ∈ gmso.connection_types gmso.Angle top ∧
    potentials !! a = Some angle_type ∧
    expr_match (gmso.expression angle_type) Forms.harmonic_angle = false ∧
    msg = "Angle type " +:+ gmso.p_name angle_type +:+
          " expression does not match Parmed AngleType default expression".
Proof.
  unfold _angle_types_from_gmso. unfold bind at 1.
  destruct (foldM _ _ _ _) as [e|[agltype_map st1]] eqn:Hloop.
  - intros [= ->].
    apply foldM_inl in Hloop as (a & b1 & st2 & Hin & Hfail).
    exists a. run_steps. by eauto.
  - intros (x & st2 & _ & Hfail)%forM_inl. run_steps.
Qed.

(** X22.  Whenever the emission of atom types stops with an assertion
    error, the message lists the name of an atom type of the topology
    whose expression is not the Lennard-Jones form. *)
Theorem atom_type_error_names_type `{ExprMatcher} `{ElementLibrary}
    potentials top atom_map st msg :
  _atom_types_from_gmso potentials top atom_map st
    = inl (AssertionError msg) →
  ∃ a atom_type,
    a ∈ gmso.atom_types top ∧
    potentials !! a = Some atom_type ∧
    expr_match (gmso.expression atom_type) Forms.lennard_jones_expanded
      = false ∧
    msg = "Atom type " +:+ gmso.p_name atom_type +:+
          " expression does not match Parmed AtomType default expression".
Proof.
  unfold _atom_types_from_gmso. unfold bind at 1.
  destruct (foldM _ _ _ _) as [e|[atype_map st1]] eqn:Hloop.
  - intros [= ->].
    apply foldM_inl in Hloop as (a & b1 & st2 & Hin & Hfail).
    exists a. run_steps. by eauto.
  - intros (x & st2 & _ & Hfail)%forM_inl. run_steps.
Qed.

(** ** Types there and back *)

#[local] Instance same_tables_preorder : PreOrder same_tables.
Proof.
  split; [by intros s|]. unfold same_tables.
  intros s1 s2 s3 (? & ? & ? & ?) (? & ? & ? & ?). split_and!; congruence.
Qed.

Ltac same_tables_edit := solve [split_and!; reflexivity].

Lemma ryckaert_bellemans_not_squared `{ExprMatcher} :
  expr_match Forms.ryckaert_bellemans Forms.periodic_torsion_squared = false.
Proof.
  destruct (expr_match _ _) eqn:Hm; [|done].
  apply expr_match_sound in Hm.
  specialize (Hm (λ _, 1%Q) (λ _, 1%Q) _ _ constant_one_cosine_like
                eq_refl eq_refl).
  by vm_compute in Hm.
Qed.

(** X23.  A dihedral type made by the forward conversion from a
    Ryckaert-Bellemans torsion type is emitted by the reverse
    conversion as a Ryckaert-Bellemans torsion type with the same six
    coefficients, appended to the table of these types. *)
Theorem rb_type_converts_back `{ExprMatcher} mm t st :
  ∃ t',
    dihedral_type_record (top_rb_dihedraltype mm t) st =
    inr (pmd.ORBTorsionType t',
         {| structure_ :=
              Build.on_rb_torsion_types (λ l, l ++ [t']) (structure_ st);
            next_id := S (next_id st) |}) ∧
    pmd.rb_c0 t' == pmd.rb_c0 t ∧ pmd.rb_c1 t' == pmd.rb_c1 t ∧
    pmd.rb_c2 t' == pmd.rb_c2 t ∧ pmd.rb_c3 t' == pmd.rb_c3 t ∧
    pmd.rb_c4 t' == pmd.rb_c4 t ∧ pmd.rb_c5 t' == pmd.rb_c5 t.
Proof.
  unfold dihedral_type_record. simpl.
  rewrite ryckaert_bellemans_not_squared, expr_match_refl.
  eexists. split; [reflexivity|]. simpl.
  split_and!; rewrite Qred_correct; ring.
Qed.

(** X24.  When the emission of bond types returns, it has appended one
    bond type record per bond type of the topology, in order, and the
    record of a bond type made by the forward conversion has the force
    constant and the equilibrium length of the record it was made
    from. *)
Theorem bond_types_round_trip `{ExprMatcher} `{ElementLibrary}
    potentials top bond_map st st' :
  _bond_types_from_gmso potentials top bond_map st = inr (tt, st') →
  ∃ rs,
    pmd.bond_types (structure_ st') = pmd.bond_types (structure_ st) ++ rs ∧
    Forall2 (λ a r, ∀ mm t,
               potentials !! a = Some (top_bondtype mm t) →
               pmd.bt_k r == pmd.bt_k t ∧ pmd.bt_req r == pmd.bt_req t)
      (gmso.connection_types gmso.Bond top) rs.
Proof.
  unfold _bond_types_from_gmso.
  intros (btype_map & st1 & Hloop & Hassign)%bind_inr.
  assert (pmd.bond_types (structure_ st') = pmd.bond_types (structure_ st1))
    as ->.
  { match type of Hassign with
    | ?m st1 = _ =>
        assert (respects same_tables m) as Hk
          by respects_by same_tables_edit
    end.
    by apply Hk in Hassign as (? & _). }
  apply (foldM_invariant _
    (λ pre (_ : gmap nat pmd.BondType) st1,
       ∃ rs,
         pmd.bond_types (structure_ st1)
           = pmd.bond_types (structure_ st) ++ rs ∧
         Forall2 (λ a r, ∀ mm t,
                    potentials !! a = Some (top_bondtype mm t) →
                    pmd.bt_k r == pmd.bt_k t ∧ pmd.bt_req r == pmd.bt_req t)
           pre rs)
    _ _ _ _ _ Hloop).
  - exists []. by rewrite app_nil_r.
  - intros pre a m1 st2 m2 st3 (rs & Hrs & Hall) Hstep.
    clear Hloop Hassign. run_steps.
    eexists (rs ++ [_]). split; [by rewrite Hrs, app_assoc|].
    apply Forall2_app; [done|]. apply Forall2_cons. split; [|constructor].
    intros mm t Hp. simplify_eq.
    repeat match goal with
           | Hf : list_find _ _ = Some _ |- _ =>
               cbn in Hf; repeat case_decide; simplify_eq/=
           | Hf : unit_factor _ _ = Some _ |- _ => vm_compute in Hf; simplify_eq
           end.
    simpl. rewrite !Qred_correct. split; ring.
Qed.

(** X25.  When the emission of angle types returns, it has appended
    one angle type record per angle type of the topology, in order, and
    the record of an angle type made by the forward conversion has the
    force constant and the equilibrium angle of the record it was made
    from. *)
Theorem angle_types_round_trip `{ExprMatcher} `{ElementLibrary}
    potentials top angle_map st st' :
  _angle_types_from_gmso potentials top angle_map st = inr (tt, st') →
  ∃ rs,
    pmd.angle_types (structure_ st')
      = pmd.angle_types (structure_ st) ++ rs ∧
    Forall2 (λ a r, ∀ mm t,
               potentials !! a = Some (top_angletype mm t) →
               pmd.agt_k r == pmd.agt_k t ∧
               pmd.agt_theteq r == pmd.agt_theteq t)
      (gmso.connection_types gmso.Angle top) rs.
Proof.
  unfold _angle_types_from_gmso.
  intros (agltype_map & st1 & Hloop & Hassign)%bind_inr.
  assert (pmd.angle_types (structure_ st')
            = pmd.angle_types (structure_ st1)) as ->.
  { match type of Hassign with
    | ?m st1 = _ =>
        assert (respects same_tables m) as Hk
          by respects_by same_tables_edit
    end.
    by apply Hk in Hassign as (_ & ? & _). }
  apply (foldM_invariant _
    (λ pre (_ : gmap nat pmd.AngleType) st1,
       ∃ rs,
         pmd.angle_types (structure_ st1)
           = pmd.angle_types (structure_ st) ++ rs ∧
         Forall2 (λ a r, ∀ mm t,
                    potentials !! a = Some (top_angletype mm t) →
                    pmd.agt_k r == pmd.agt_k t ∧
                    pmd.agt_theteq r == pmd.agt_theteq t)
           pre rs)
    _ _ _ _ _ Hloop).
  - exists []. by rewrite app_nil_r.
  - intros pre a m1 st2 m2 st3 (rs & Hrs & Hall) Hstep.
    clear Hloop Hassign. run_steps.
    eexists (rs ++ [_]). split; [by rewrite Hrs, app_assoc|].
    apply Forall2_app; [done|]. apply Forall2_cons. split; [|constructor].
    intros mm t Hp. simplify_eq.
    repeat match goal with
           | Hf : list_find _ _ = Some _ |- _ =>
               cbn in Hf; repeat case_decide; simplify_eq/=
           | Hf : unit_factor _ _ = Some _ |- _ => vm_compute in Hf; simplify_eq
           end.
    simpl. rewrite !Qred_correct. split; ring.
Qed.

(** X26.  A structure whose box array has six entries, converted to a
    topology and back: when no entry is zero the box array comes back
    with equal entries, and when an entry is zero the structure that
    comes back has no box. *)
Theorem box_there_and_back `{ExprMatcher} `{ElementLibrary}
    s refer_type c refer_type' s' b :
  pmd.box s = Some b → length b = 6%nat →
  from_parmed s refer_type = inr c →
  to_parmed (topology c) (potentials c) refer_type' = inr s' →
  if np_all b then ∃ b', pmd.box s' = Some b' ∧ Forall2 Qeq b' b
  else pmd.box s' = None.
Proof.
  intros Hb Hlen Hthere%from_parmed_box Hback%to_parmed_box.
  rewrite Hthere in Hback. unfold box_for in Hback. rewrite Hb in Hback.
  destruct (np_all b); [|done].
  destruct b as [|x1 [|x2 [|x3 [|x4 [|x5 [|x6 [|]]]]]]]; try done.
  eexists. split; [exact Hback|].
  repeat constructor; rewrite ?Qred_correct; ring.
Qed.

(** * Positions in the Gromos87 writer *)

Section GroPositions.

Lemma Qltb_lt x y : gro.Qltb x y = true ↔ (x < y)%Q.
Proof.
  unfold gro.Qltb. rewrite negb_true_iff. split.
  - intros Hb. apply Qnot_le_lt. intros Hle%Qle_bool_iff. congruence.
  - intros Hlt. destruct (Qle_bool y x) eqn:Hb; [|done].
    apply Qle_bool_iff in Hb. by apply Qlt_not_le in Hlt.
Qed.

Lemma Qltb_ge x y : gro.Qltb x y = false ↔ (y <= x)%Q.
Proof. unfold gro.Qltb. rewrite negb_false_iff. apply Qle_bool_iff. Qed.

Lemma minimum_cases x y : gro.minimum x y = x ∨ gro.minimum x y = y.
Proof. unfold gro.minimum. destruct (Qle_bool x y); by auto. Qed.

Lemma minimum_le_l x y : (gro.minimum x y <= x)%Q.
Proof.
  unfold gro.minimum. destruct (Qle_bool x y) eqn:Hb; [apply Qle_refl|].
  apply Qlt_le_weak, Qnot_le_lt. intros Hle%Qle_bool_iff. congruence.
Qed.

Lemma minimum_le_r x y : (gro.minimum x y <= y)%Q.
Proof.
  unfold gro.minimum. destruct (Qle_bool x y) eqn:Hb; [|apply Qle_refl].
  by apply Qle_bool_iff.
Qed.

Lemma foldl_minimum_le x l :
  (foldl gro.minimum x l <= x)%Q ∧
  Forall (λ y, (foldl gro.minimum x l <= y)%Q) l.
Proof.
  revert x. induction l as [|y l IH]; intros x; simpl.
  - split; [apply Qle_refl|constructor].
  - destruct (IH (gro.minimum x y)) as [Hm Hall]. split.
    + eapply Qle_trans; [exact Hm|apply minimum_le_l].
    + constructor; [|done]. eapply Qle_trans; [exact Hm|apply minimum_le_r].
Qed.

Lemma foldl_minimum_elem x l : foldl gro.minimum x l ∈ x :: l.
Proof.
  revert x. induction l as [|y l IH]; intros x; simpl; [by left|].
  destruct (minimum_cases x y) as [-> | ->].
  - destruct (proj1 (elem_of_cons _ _ _) (IH x)) as [->|Hin];
      [by left|by do 2 right].
  - right. apply IH.
Qed.

Lemma shifted_snoc mins m j x :
  gro.shifted (mins ++ [m]) j x =
  if decide (j = length mins)
  then (if gro.Qltb m 0 then (x - m)%Q else x)
  else gro.shifted mins j x.
Proof.
  unfold gro.shifted. case_decide as Hj.
  - subst j. by rewrite list_lookup_middle.
  - destruct (decide (j < length mins)%nat) as [Hlt|Hge].
    + by rewrite lookup_app_l.
    + rewrite !lookup_ge_None_2; [done|lia|].
      rewrite length_app. simpl. lia.
Qed.

Lemma shift_column mins m (row : list Q) :
  alter (λ x, (x - m)%Q) (length mins) (imap (gro.shifted mins) row) =
  imap (λ j x, if decide (j = length mins) then (x - m)%Q
               else gro.shifted mins j x) row.
Proof.
  apply list_eq. intros j. rewrite list_lookup_imap.
  destruct (decide (j = length mins)) as [->|Hne].
  - rewrite list_lookup_alter, list_lookup_imap.
    case_decide; [|done].
    destruct (row !! length mins) as [x|]; [|done]. simpl.
    unfold gro.shifted. by rewrite lookup_ge_None_2.
  - rewrite list_lookup_alter_ne by done. by rewrite list_lookup_imap.
Qed.

(** The loop over the columns translates every column with a negative
    minimum by that minimum. *)
Lemma shift_loop mins (a : list (list Q)) (st : list string) :
  foldM (λ (pos_array : list (list Q)) (im : nat * Q),
    if gro.Qltb im.2 0 then
      ret ((λ loc, alter (λ x, (x - im.2)%Q) im.1 loc) <$> pos_array)
    else ret pos_array)
    a (enumerate mins) st
  = inr ((λ loc, imap (gro.shifted mins) loc) <$> a, st).
Proof.
  destruct (foldM _ a (enumerate mins) st) as [e|[a' st']] eqn:Hrun.
  - apply foldM_inl in Hrun as ([i m] & b1 & st1 & _ & Hfail).
    simpl in Hfail. by destruct (gro.Qltb m 0).
  - assert (st' = st ∧
            ((enumerate mins).*1 = seq 0 (length (enumerate mins)) →
             a' = (λ loc, imap (gro.shifted (enumerate mins).*2) loc) <$> a))
      as [-> Ha'].
    { apply (foldM_invariant _
        (λ pre b st1, st1 = st ∧
           (pre.*1 = seq 0 (length pre) →
            b = (λ loc, imap (gro.shifted pre.*2) loc) <$> a))
        _ _ _ _ _ Hrun).
      - split; [done|]. intros _. simpl.
        rewrite <- (list_fmap_id a) at 1. apply list_fmap_ext.
        intros i row _. simpl. apply list_eq. intros j.
        rewrite list_lookup_imap. by destruct (row !! j).
      - intros pre [i m] b1 st1 b2 st2 [-> Hb1] Hstep. simpl in Hstep.
        assert (st2 = st) as ->
          by (destruct (gro.Qltb m 0); by injection Hstep).
        split; [done|].
        rewrite !fmap_app, length_app, seq_app. simpl. intros Hpre.
        apply app_inj_1 in Hpre as [Hpre [= ->]];
          [|by rewrite length_fmap, length_seq].
        specialize (Hb1 Hpre). subst b1.
        assert (∀ loc : list Q,
          imap (gro.shifted (pre.*2 ++ [m])) loc =
          imap (λ j x, if decide (j = length pre.*2)
                       then (if gro.Qltb m 0 then (x - m)%Q else x)
                       else gro.shifted pre.*2 j x) loc) as Hsnoc.
        { intros loc. apply imap_ext. intros j x _. apply shifted_snoc. }
        destruct (gro.Qltb m 0) eqn:Hneg; injection Hstep as <-.
        + rewrite <- list_fmap_compose. apply list_fmap_ext.
          intros i row _. simpl. rewrite Hsnoc.
          rewrite <- (length_fmap snd pre). apply shift_column.
        + apply list_fmap_ext. intros i row _. simpl. rewrite Hsnoc.
          apply imap_ext. intros j x _. case_decide as Hj; [|done].
          unfold gro.shifted. rewrite lookup_ge_None_2; [done|lia]. }
    rewrite snd_enumerate in Ha'. rewrite Ha'; [done|].
    by rewrite fst_enumerate, length_enumerate.
Qed.

Lemma elem_of_column j (a : list (list Q)) x :
  x ∈ gro.column j a ↔ ∃ row, row ∈ a ∧ row !! j = Some x.
Proof. unfold gro.column. apply list_elem_of_omap. Qed.

(** The minimum of a column is its least entry. *)
Lemma column_minimum row rest j m :
  imap (λ i x, foldl gro.minimum x (gro.column i rest)) row !! j = Some m →
  m ∈ gro.column j (row :: rest) ∧
  Forall (λ x, (m <= x)%Q) (gro.column j (row :: rest)).
Proof.
  rewrite list_lookup_imap. unfold gro.column at 2 3. simpl.
  destruct (row !! j) as [x|] eqn:Hx; [|done]. simpl. intros [= <-].
  split; [apply foldl_minimum_elem|].
  destruct (foldl_minimum_le x (gro.column j rest)) as [Hx' Hrest].
  by constructor.
Qed.

(** What the function returns, and the warnings it leaves. *)
Lemma validate_positions_run row rest x l (st : list string) :
  concat (row :: rest) = x :: l →
  gro._validate_positions (row :: rest) st =
  inr ((λ loc,
          imap (gro.shifted
                  (imap (λ i x, foldl gro.minimum x (gro.column i rest)) row))
            loc) <$> (row :: rest),
       if gro.Qltb (foldl gro.minimum x l) 0
       then st ++ [gro.negative_positions] else st).
Proof.
  intros Hconcat. unfold gro._validate_positions. rewrite Hconcat.
  unfold gro.np_min, gro.np_min_axis0.
  unfold bind at 1. unfold ret at 1.
  destruct (gro.Qltb (foldl gro.minimum x l) 0);
    unfold bind, modify, ret; simpl; apply shift_loop.
Qed.

End GroPositions.

(** X27.  An array of positions without entries is refused: the minimum
    of an empty array does not exist, and the error is a value error. *)
Theorem validate_positions_empty (a : list (list Q)) (st : list string) :
  concat a = [] → gro._validate_positions a st = inl ValueError.
Proof. intros Hnil. unfold gro._validate_positions. by rewrite Hnil. Qed.

Lemma validate_positions_inr a st a' st' :
  gro._validate_positions a st = inr (a', st') →
  ∃ row rest x l, a = row :: rest ∧ concat a = x :: l.
Proof.
  destruct (concat a) as [|x l] eqn:Hconcat.
  - by rewrite validate_positions_empty.
  - destruct a as [|row rest]; [done|]. intros _. by exists row, rest, x, l.
Qed.


(** X29.  On an array with at least one entry and rows of one length
    the function returns, and no entry of the array it returns is
    negative. *)
Theorem validate_positions_non_negative a (st : list string) w :
  Forall (λ row, length row = w) a → concat a ≠ [] →
  ∃ a' st',
    gro._validate_positions a st = inr (a', st') ∧
    Forall2 (λ row' row, length row' = length row) a' a ∧
    Forall (Forall (λ x, (0 <= x)%Q)) a'.
Proof.
  intros Hw Hne. destruct a as [|row rest]; [done|].
  destruct (concat (row :: rest)) as [|x l] eqn:Hconcat; [done|].
  rewrite (validate_positions_run _ _ _ _ _ Hconcat).
  eexists _, _. split; [done|]. split.
  - apply Forall2_fmap_l, Forall_Forall2_diag, Forall_forall.
    intros loc _. simpl. by rewrite length_imap.
  - apply Forall_fmap, Forall_forall. intros loc Hloc.
    apply Forall_lookup. intros j y. rewrite list_lookup_imap.
    destruct (loc !! j) as [x'|] eqn:Hx'; [|done]. simpl. intros [= <-].
    assert (length loc = length row) as Hlen.
    { rewrite Forall_forall in Hw. rewrite (Hw loc Hloc).
      symmetry. apply Hw. by left. }
    destruct (lookup_lt_is_Some_2
                (imap (λ i x, foldl gro.minimum x (gro.column i rest)) row) j)
      as [m Hm].
    { rewrite length_imap, <- Hlen. by eapply lookup_lt_Some. }
    unfold gro.shifted. rewrite Hm.
    apply column_minimum in Hm as [_ Hleast].
    rewrite Forall_forall in Hleast.
    assert (m <= x')%Q as Hle.
    { apply Hleast, elem_of_column. by exists loc. }
    destruct (gro.Qltb m 0) eqn:Hneg.
    + unfold Qminus. by apply Qle_minus_iff in Hle.
    + apply Qltb_ge in Hneg. by eapply Qle_trans.
Qed.

Lemma foldl_minimum_negative x l :
  gro.Qltb (foldl gro.minimum x l) 0 = existsb (λ y, gro.Qltb y 0) (x :: l).
Proof.
  destruct (existsb _ _) eqn:Hex.
  - apply existsb_exists in Hex as (y & Hy%list_elem_of_In & Hneg).
    apply Qltb_lt in Hneg. apply Qltb_lt.
    eapply Qle_lt_trans; [|exact Hneg].
    destruct (foldl_minimum_le x l) as [Hx Hl].
    apply elem_of_cons in Hy as [->|Hy]; [done|].
    rewrite Forall_forall in Hl. by apply Hl.
  - destruct (gro.Qltb (foldl gro.minimum x l) 0) eqn:Hneg; [|done].
    rewrite <- Hex. symmetry. apply existsb_exists.
    exists (foldl gro.minimum x l). split; [|done].
    apply list_elem_of_In, foldl_minimum_elem.
Qed.

Lemma unshifted mins (a : list (list Q)) :
  (∀ j m, mins !! j = Some m → gro.Qltb m 0 = false) →
  (λ loc, imap (gro.shifted mins) loc) <$> a = a.
Proof.
  intros Hmins. transitivity (id <$> a); [|apply list_fmap_id].
  apply list_fmap_ext. intros i loc _. simpl. apply list_eq. intros j.
  rewrite list_lookup_imap. destruct (loc !! j) as [y|]; [|done]. simpl.
  f_equal. unfold gro.shifted.
  destruct (mins !! j) as [m|] eqn:Hm; [|done]. by rewrite (Hmins j m).
Qed.

(** X30.  The function warns exactly when some entry is negative: it
    then leaves the one warning about negative positions; otherwise it
    leaves no warning and returns the array as it was. *)
Theorem validate_positions_warns a st a' st' :
  gro._validate_positions a st = inr (a', st') →
  if existsb (λ x, gro.Qltb x 0) (concat a)
  then st' = st ++ [gro.negative_positions]
  else st' = st ∧ a' = a.
Proof.
  intros Hrun.
  destruct (validate_positions_inr _ _ _ _ Hrun)
    as (row & rest & x & l & -> & Hconcat).
  rewrite (validate_positions_run _ _ _ _ _ Hconcat) in Hrun.
  injection Hrun as <- <-. rewrite foldl_minimum_negative, <- Hconcat.
  destruct (existsb _ _) eqn:Hex; [done|]. split; [done|].
  apply (unshifted _ (row :: rest)). intros j m Hm.
  apply column_minimum in Hm as [(loc' & Hloc' & Hm)%elem_of_column _].
  destruct (gro.Qltb m 0) eqn:Hneg; [|done].
  rewrite <- Hex. symmetry. apply existsb_exists. exists m. split; [|done].
  apply list_elem_of_In, elem_of_concat. exists loc'. split; [|done].
  by eapply list_elem_of_lookup_2.
Qed.

(** * The further properties on the sample structures *)

Lemma from_parmed_sites_witness :
  from_parmed (H := sample_library) Cases.ethyl true
    = inr Cases.ethyl_converted ∧
  length (gmso.sites (topology Cases.ethyl_converted)) = 3%nat.
Proof.
  split; [by vm_compute|].
  destruct (from_parmed_sites (H := sample_library) Cases.ethyl true
              Cases.ethyl_converted) as [Hlen _]; [by vm_compute|].
  exact Hlen.
Defined.

Lemma from_parmed_connections_witness :
  from_parmed (H := sample_library) Example.butane true
    = inr Example.butane_converted ∧
  length (gmso.connections (topology Example.butane_converted)) = 6%nat ∧
  length (issued Example.butane_converted) = 2%nat.
Proof.
  split; [by vm_compute|].
  destruct (from_parmed_connections (H := sample_library) Example.butane true
              Example.butane_converted) as (Hlen & _ & Hwarn);
    [by vm_compute|].
  split; [exact Hlen|]. by rewrite Hwarn.
Defined.

Lemma from_parmed_without_types_witness :
  from_parmed (H := sample_library) Cases.ethyl false
    = inr Cases.ethyl_untyped ∧
  potentials Cases.ethyl_untyped = [].
Proof.
  split; [by vm_compute|].
  destruct (from_parmed_without_types (H := sample_library) Cases.ethyl
              Cases.ethyl_untyped) as [Hpots _]; [by vm_compute|].
  exact Hpots.
Defined.

Lemma from_parmed_unregistered_bond_type_witness :
  Example.bond 1 2 (pmd.OBondType Cases.stiff)
    ∈ pmd.bonds Cases.unregistered ∧
  pmd.bond_types Cases.unregistered = [] ∧
  ∃ e, from_parmed (H := sample_library) Cases.unregistered true = inl e.
Proof.
  split; [by left|]. split; [reflexivity|].
  apply (from_parmed_unregistered_bond_type (H := sample_library)
           Cases.unregistered
           (Example.bond 1 2 (pmd.OBondType Cases.stiff)) Cases.stiff).
  - by left.
  - reflexivity.
  - intros t' Ht'. by apply elem_of_nil in Ht'.
Defined.

Lemma from_parmed_foreign_atom_witness :
  EBond (Example.bond 3 9 pmd.PyNone) ∈ ext_connections Cases.dangling ∧
  ∃ e, from_parmed (H := sample_library) Cases.dangling false = inl e.
Proof.
  assert (EBond (Example.bond 3 9 pmd.PyNone)
            ∈ ext_connections Cases.dangling) as Hin.
  { vm_compute. do 2 right. by left. }
  split; [exact Hin|].
  apply (from_parmed_foreign_atom (H := sample_library) Cases.dangling false
           (EBond (Example.bond 3 9 pmd.PyNone)) 9%nat Hin).
  - right. by left.
  - apply (Forall_forall (λ atom, pmd.atom_id atom ≠ 9%nat)).
    vm_compute. by repeat constructor.
Defined.

Lemma get_types_map_entries_witness :
  ∃ members m mt i,
    members_of Example.butane "dihedrals" = Some members ∧ m ∈ members ∧
    _get_member_types_map_for Example.butane m false = (KId 50, mt) ∧
    KId 50 = KId i ∧
    VMembers (MTuple [Some "CT"; Some "CT"; Some "CT"; Some "CT"])
      = VMembers mt ∧
    py_all mt = true.
Proof.
  apply (get_types_map_entries (S := unit) Example.butane "dihedrals" false
           tt tt
           (members_map Example.butane
              (MemDihedral <$> pmd.dihedrals Example.butane))).
  - reflexivity.
  - by vm_compute.
Defined.

Lemma check_passes_closed_residues_witness :
  _check_independent_residues Example.butane = true ∧
  Wording.no_bond_crosses Example.butane = true.
Proof.
  split; [by vm_compute|].
  destruct (check_passes_closed_residues Example.butane) as [Hclosed _];
    [by vm_compute|].
  exact Hclosed.
Defined.

Lemma check_passes_without_bonds_witness :
  pmd.bonds Cases.unbonded = [] ∧
  _check_independent_residues Cases.unbonded = true.
Proof.
  split; [reflexivity|].
  apply (check_passes_without_bonds Cases.unbonded). reflexivity.
Defined.

Lemma from_parmed_members_witness :
  from_parmed (H := sample_library) Example.butane true
    = inr Example.butane_converted ∧
  ∃ k,
    gmso.connections (topology Example.butane_converted) !! 3%nat = Some k ∧
    length (gmso.connection_members k) = 4%nat.
Proof.
  split; [by vm_compute|].
  destruct (from_parmed_members (H := sample_library) Example.butane true
              Example.butane_converted 3
              (EDihedral (Example.dihedral 4 2 3 1 false
                            (pmd.ODihedralType Example.periodic))))
    as (k & Hk & Hmembers); [by vm_compute..|].
  exists k. split; [exact Hk|].
  by rewrite <- (Forall2_length _ _ _ Hmembers).
Defined.

Lemma from_parmed_atom_types_shared_witness :
  from_parmed (H := sample_library) Cases.ethyl true
    = inr Cases.ethyl_converted ∧
  ∃ si sj p,
    gmso.sites (topology Cases.ethyl_converted) !! 0%nat = Some si ∧
    gmso.sites (topology Cases.ethyl_converted) !! 1%nat = Some sj ∧
    gmso.atom_type si = Some p ∧ gmso.atom_type sj = Some p.
Proof.
  split; [by vm_compute|].
  destruct (from_parmed_atom_types_shared (H := sample_library) Cases.ethyl
              Cases.ethyl_converted 0 1
              (Cases.typed 1 6 "C1" Cases.opls_135)
              (Cases.typed 2 6 "C2" Cases.opls_135)
              Cases.opls_135 Cases.opls_135)
    as (si & sj & p & q & t' & el & Hsi & Hsj & Hp & Hq & Hsame & _);
    [by vm_compute..|].
  exists si, sj, p. split_and!; [done..|].
  rewrite Hq. f_equal. symmetry. by apply Hsame.
Defined.

Lemma to_parmed_no_impropers_witness :
  to_parmed (H := structural_matcher) (H0 := sample_library)
    (topology Example.butane_converted)
    (potentials Example.butane_converted) false
    = inr Cases.butane_back ∧
  pmd.impropers Cases.butane_back = [] ∧
  length (gmso.of_class gmso.Improper (topology Example.butane_converted))
    = 1%nat.
Proof.
  split; [by vm_compute|].
  destruct (to_parmed_no_impropers (H := structural_matcher)
              (H0 := sample_library) (topology Example.butane_converted)
              (potentials Example.butane_converted) false Cases.butane_back)
    as [Hnone _]; [by vm_compute|].
  split; [exact Hnone|reflexivity].
Defined.

Lemma to_parmed_without_types_witness :
  to_parmed (H := structural_matcher) (H0 := sample_library)
    (topology Cases.ethyl_converted) (potentials Cases.ethyl_converted) false
    = inr Cases.ethyl_back ∧
  pmd.bond_types Cases.ethyl_back = [] ∧
  Forall (λ b, pmd.b_type b = pmd.PyNone) (pmd.bonds Cases.ethyl_back).
Proof.
  split; [by vm_compute|].
  destruct (to_parmed_without_types (H := structural_matcher)
              (H0 := sample_library) (topology Cases.ethyl_converted)
              (potentials Cases.ethyl_converted) Cases.ethyl_back)
    as (Htable & _ & _ & _ & _ & Hbonds & _); [by vm_compute|].
  by split.
Defined.

Lemma to_parmed_atoms_witness :
  to_parmed (H := structural_matcher) (H0 := sample_library)
    (topology Cases.ethyl_converted) (potentials Cases.ethyl_converted) false
    = inr Cases.ethyl_back ∧
  Forall2 atom_made_from (gmso.sites (topology Cases.ethyl_converted))
    (pmd.structure_atoms Cases.ethyl_back).
Proof.
  split; [by vm_compute|].
  destruct (to_parmed_atoms (H := structural_matcher) (H0 := sample_library)
              (topology Cases.ethyl_converted)
              (potentials Cases.ethyl_converted) false Cases.ethyl_back)
    as [Hmade _]; [by vm_compute|].
  exact Hmade.
Defined.

Lemma to_parmed_bonds_angles_witness :
  to_parmed (H := structural_matcher) (H0 := sample_library)
    (topology Example.butane_converted)
    (potentials Example.butane_converted) false
    = inr Cases.butane_back ∧
  Forall2 (λ x b, joins Cases.butane_back x.2 (bond_ends b))
    (connections_of gmso.Bond (topology Example.butane_converted))
    (pmd.bonds Cases.butane_back).
Proof.
  split; [by vm_compute|].
  destruct (to_parmed_bonds_angles (H := structural_matcher)
              (H0 := sample_library) (topology Example.butane_converted)
              (potentials Example.butane_converted) false Cases.butane_back)
    as [Hbonds _]; [by vm_compute|].
  exact Hbonds.
Defined.

Lemma to_parmed_dihedrals_witness :
  to_parmed (H := structural_matcher) (H0 := sample_library)
    (topology Example.butane_converted)
    (potentials Example.butane_converted) false
    = inr Cases.butane_back ∧
  length (pmd.rb_torsions Cases.butane_back) = 1%nat ∧
  length (pmd.dihedrals Cases.butane_back) = 2%nat.
Proof.
  split; [by vm_compute|].
  destruct (to_parmed_dihedrals (H := structural_matcher)
              (H0 := sample_library) (topology Example.butane_converted)
              (potentials Example.butane_converted) false Cases.butane_back)
    as [Hrb Hd]; [by vm_compute|].
  split.
  - by rewrite <- (Forall2_length _ _ _ Hrb).
  - by rewrite <- (Forall2_length _ _ _ Hd).
Defined.

Lemma round_trip_atoms_witness :
  from_parmed (H := sample_library) Cases.ethyl true
    = inr Cases.ethyl_converted ∧
  to_parmed (H := structural_matcher) (H0 := sample_library)
    (topology Cases.ethyl_converted) (potentials Cases.ethyl_converted) false
    = inr Cases.ethyl_back ∧
  Forall2 (λ a a', pmd.name a' = pmd.name a ∧
                   pmd.xx a' == pmd.xx a ∧ pmd.xy a' == pmd.xy a ∧
                   pmd.xz a' == pmd.xz a)
    (pmd.structure_atoms Cases.ethyl) (pmd.structure_atoms Cases.ethyl_back).
Proof.
  split; [by vm_compute|]. split; [by vm_compute|].
  apply (round_trip_atoms (H := structural_matcher) (H0 := sample_library)
           Cases.ethyl true Cases.ethyl_converted false Cases.ethyl_back);
    by vm_compute.
Defined.

Lemma to_parmed_header_witness :
  to_parmed (H := structural_matcher) (H0 := sample_library)
    (topology Cases.bent_converted) (potentials Cases.bent_converted) false
    = inr (structure_ Cases.bent_untyped) ∧
  gmso.combining_rule (topology Cases.bent_converted) = "geometric" ∧
  pmd.title (structure_ Cases.bent_untyped) = "bent" ∧
  pmd.combining_rule (structure_ Cases.bent_untyped) = "lorentz".
Proof.
  split; [by vm_compute|]. split; [reflexivity|].
  apply (to_parmed_header (H := structural_matcher) (H0 := sample_library)
           (topology Cases.bent_converted) (potentials Cases.bent_converted)
           false (structure_ Cases.bent_untyped)).
  by vm_compute.
Defined.

Lemma from_parmed_header_witness :
  from_parmed (H := sample_library) Cases.bent true
    = inr Cases.bent_converted ∧
  gmso.t_name (topology Cases.bent_converted) = "bent" ∧
  gmso.combining_rule (topology Cases.bent_converted) = "geometric".
Proof.
  split; [by vm_compute|].
  apply (from_parmed_header (H := sample_library) Cases.bent true
           Cases.bent_converted).
  by vm_compute.
Defined.

Lemma bond_type_error_lists_name_witness :
  ∃ a bond_type,
    a ∈ gmso.connection_types gmso.Bond Cases.odd_types ∧
    [Example.odd_dihedral_type] !! a = Some bond_type ∧
    expr_match (ExprMatcher := structural_matcher)
      (gmso.expression bond_type) Forms.harmonic_bond = false ∧
    "Bond type HC-CT-CT-HC expression does not match Parmed BondType default expression"
      = "Bond type " +:+ gmso.p_name bond_type +:+
        " expression does not match Parmed BondType default expression".
Proof.
  apply (bond_type_error_lists_name (H := structural_matcher)
           (H0 := sample_library) [Example.odd_dihedral_type]
           Cases.odd_types ∅ Cases.start).
  by vm_compute.
Defined.

Lemma angle_type_error_lists_name_witness :
  ∃ a angle_type,
    a ∈ gmso.connection_types gmso.Angle Cases.odd_types ∧
    [Example.odd_dihedral_type] !! a = Some angle_type ∧
    expr_match (ExprMatcher := structural_matcher)
      (gmso.expression angle_type) Forms.harmonic_angle = false ∧
    "Angle type HC-CT-CT-HC expression does not match Parmed AngleType default expression"
      = "Angle type " +:+ gmso.p_name angle_type +:+
        " expression does not match Parmed AngleType default expression".
Proof.
  apply (angle_type_error_lists_name (H := structural_matcher)
           (H0 := sample_library) [Example.odd_dihedral_type]
           Cases.odd_types ∅ Cases.start).
  by vm_compute.
Defined.

Lemma atom_type_error_names_type_witness :
  ∃ a atom_type,
    a ∈ gmso.atom_types Cases.odd_types ∧
    [Example.odd_dihedral_type] !! a = Some atom_type ∧
    expr_match (ExprMatcher := structural_matcher)
      (gmso.expression atom_type) Forms.lennard_jones_expanded = false ∧
    "Atom type HC-CT-CT-HC expression does not match Parmed AtomType default expression"
      = "Atom type " +:+ gmso.p_name atom_type +:+
        " expression does not match Parmed AtomType default expression".
Proof.
  apply (atom_type_error_names_type (H := structural_matcher)
           (H0 := sample_library) [Example.odd_dihedral_type]
           Cases.odd_types ∅ Cases.start).
  by vm_compute.
Defined.

Lemma bond_types_round_trip_witness :
  _bond_types_from_gmso (H := structural_matcher)
    (potentials Cases.bent_converted) (topology Cases.bent_converted)
    Cases.bent_bond_map Cases.bent_untyped
    = inr (tt, Cases.bent_bonds_typed) ∧
  ∃ rs,
    pmd.bond_types (structure_ Cases.bent_bonds_typed)
      = pmd.bond_types (structure_ Cases.bent_untyped) ++ rs ∧
    Forall2 (λ a r, ∀ mm t,
               potentials Cases.bent_converted !! a
                 = Some (top_bondtype mm t) →
               pmd.bt_k r == pmd.bt_k t ∧ pmd.bt_req r == pmd.bt_req t)
      (gmso.connection_types gmso.Bond (topology Cases.bent_converted)) rs.
Proof.
  split; [by vm_compute|].
  apply (bond_types_round_trip (H := structural_matcher)
           (H0 := sample_library) (potentials Cases.bent_converted)
           (topology Cases.bent_converted) Cases.bent_bond_map
           Cases.bent_untyped Cases.bent_bonds_typed).
  by vm_compute.
Defined.

Lemma angle_types_round_trip_witness :
  _angle_types_from_gmso (H := structural_matcher)
    (potentials Cases.bent_converted) (topology Cases.bent_converted)
    Cases.bent_angle_map Cases.bent_untyped
    = inr (tt, Cases.bent_angles_typed) ∧
  ∃ rs,
    pmd.angle_types (structure_ Cases.bent_angles_typed)
      = pmd.angle_types (structure_ Cases.bent_untyped) ++ rs ∧
    Forall2 (λ a r, ∀ mm t,
               potentials Cases.bent_converted !! a
                 = Some (top_angletype mm t) →
               pmd.agt_k r == pmd.agt_k t ∧
               pmd.agt_theteq r == pmd.agt_theteq t)
      (gmso.connection_types gmso.Angle (topology Cases.bent_converted)) rs.
Proof.
  split; [by vm_compute|].
  apply (angle_types_round_trip (H := structural_matcher)
           (H0 := sample_library) (potentials Cases.bent_converted)
           (topology Cases.bent_converted) Cases.bent_angle_map
           Cases.bent_untyped Cases.bent_angles_typed).
  by vm_compute.
Defined.

Lemma box_there_and_back_witness :
  from_parmed (H := sample_library) Example.butane true
    = inr Example.butane_converted ∧
  to_parmed (H := structural_matcher) (H0 := sample_library)
    (topology Example.butane_converted)
    (potentials Example.butane_converted) false
    = inr Cases.butane_back ∧
  ∃ b', pmd.box Cases.butane_back = Some b' ∧
        Forall2 Qeq b' [20; 20; 20; 90; 90; 90]%Q.
Proof.
  split; [by vm_compute|]. split; [by vm_compute|].
  apply (box_there_and_back (H := structural_matcher) (H0 := sample_library)
           Example.butane true Example.butane_converted false
           Cases.butane_back [20; 20; 20; 90; 90; 90]%Q);
    by vm_compute.
Defined.

Lemma validate_positions_empty_witness :
  gro._validate_positions [] [] = inl ValueError.
Proof. apply (validate_positions_empty [] []). reflexivity. Defined.


Lemma validate_positions_non_negative_witness :
  ∃ a' st',
    gro._validate_positions gro.sample [] = inr (a', st') ∧
    Forall2 (λ row' row, length row' = length row) a' gro.sample ∧
    Forall (Forall (λ x, (0 <= x)%Q)) a'.
Proof.
  apply (validate_positions_non_negative gro.sample [] 3).
  - by repeat constructor.
  - by vm_compute.
Defined.

Lemma validate_positions_warns_witness :
  gro._validate_positions gro.sample []
    = inr ([[2; 0; 3]; [0; 2; 5]; [5; 3; 2]]%Q, [gro.negative_positions]) ∧
  [gro.negative_positions] = [] ++ [gro.negative_positions].
Proof.
  split; [by vm_compute|].
  apply (validate_positions_warns gro.sample []
           [[2; 0; 3]; [0; 2; 5]; [5; 3; 2]]%Q [gro.negative_positions]).
  by vm_compute.
Defined.
